(** * Eduvance: the database layer's business rules

    The application keeps its business logic in the database: PL/pgSQL
    functions, triggers and one view, defined in the migrations under
    [supabase/migrations].  This development embeds those routines as
    functions over tables (lists of rows) and studies the rules for
    document totals, client statements, weighted averages, number
    sequences and recurring invoices.

    Modelling conventions.
    - A table is the list of its rows, in storage order.
    - SQL [numeric] is arbitrary-precision decimal arithmetic.  A value
      is a rational [Q], compared with [==]; a stored value with digits
      [n] and display scale [s] is the fraction [n # 10^s], so 15.00 is
      [1500 # 100].  Sums and products are exact: values are taken to
      stay within the limits of the format (16383 decimal places), below
      which neither rounds.  A quotient is rounded to the result scale
      that PostgreSQL selects for it ([select_div_scale],
      [round_to_scale]).
    - A nullable column is an [option]; SQL comparison with NULL is not
      true, so it selects no row.
    - A statement that can raise (division by zero, a violated UNIQUE
      constraint, an integer out of range) returns a [result]. *)

From Stdlib Require Import ZArith QArith Qround Qabs Qpower List String Ascii Bool Lia Lqa.
From Stdlib Require Import Permutation Sorted.
Import ListNotations.

Open Scope Z_scope.
Open Scope Q_scope.

(** ** SQL values, NULL and errors *)

Definition numeric := Q.
Definition uuid := nat.
Bind Scope nat_scope with uuid.

Inductive sql_error : Type :=
| division_by_zero
| unique_violation
| not_null_violation
| numeric_value_out_of_range
| ambiguous_column.

Inductive result (A : Type) : Type :=
| Ok (a : A)
| Raise (e : sql_error).
Arguments Ok {A} a.
Arguments Raise {A} e.

Definition bind {A B : Type} (r : result A) (k : A -> result B) : result B :=
  match r with
  | Ok a => k a
  | Raise e => Raise e
  end.

Notation "x <- r ;; k" := (bind r (fun x => k))
  (at level 61, r at next level, right associativity).

(** [a = b] on a nullable column and a nullable argument: true only when
    both are present and equal. *)
Definition sql_eq (a b : option uuid) : bool :=
  match a, b with
  | Some x, Some y => Nat.eqb x y
  | _, _ => false
  end.

Definition qsum (xs : list numeric) : numeric := fold_right Qplus 0 xs.

(** [SUM(e)]: NULL over no rows. *)
Definition SUM (xs : list numeric) : option numeric :=
  match xs with
  | [] => None
  | _ => Some (qsum xs)
  end.

Definition COALESCE {A : Type} (v : option A) (d : A) : A :=
  match v with
  | Some x => x
  | None => d
  end.

(** ** Division of numerics

    PostgreSQL's [numeric_div] picks a result scale from the two operands
    ([select_div_scale]) and returns the quotient rounded to that many
    decimal places, halves away from zero. *)

(** The display scale of a stored value [n # 10^s] is [s].  A rational
    whose denominator is no power of ten is no stored numeric and has no
    display scale. *)
Fixpoint scale_of_denominator (fuel : nat) (d : Z) : option nat :=
  match fuel with
  | O => None
  | S fuel' =>
      if (d =? 1)%Z then Some O
      else if (d mod 10 =? 0)%Z
           then option_map S (scale_of_denominator fuel' (d / 10))
           else None
  end.

Definition dscale (x : numeric) : option nat :=
  scale_of_denominator (S (Z.to_nat (Z.log2 (Zpos (Qden x)))))
                       (Zpos (Qden x)).

(** The digits of a numeric are kept in base 10000, aligned at the
    decimal point.  The weight of a value is the position of its first
    non-zero base-10000 digit (0 for the digit of the units, -1 for the
    first one after the point) and 0 for the value zero. *)
Fixpoint weight_of_integer (fuel : nat) (n : Z) : Z :=
  match fuel with
  | O => 0%Z
  | S fuel' =>
      if (n <? 10000)%Z then 0%Z
      else (weight_of_integer fuel' (n / 10000) + 1)%Z
  end.

Fixpoint weight_of_fraction (fuel : nat) (x : Q) : Z :=
  match fuel with
  | O => (-1)%Z
  | S fuel' =>
      if Qle_bool 1 (x * 10000) then (-1)%Z
      else (weight_of_fraction fuel' (x * 10000) - 1)%Z
  end.

Definition numeric_weight (x : numeric) : Z :=
  let a := Qabs x in
  if Qeq_bool a 0 then 0%Z
  else if Qle_bool 1 a
       then weight_of_integer (S (Z.to_nat (Z.log2 (Qfloor a)))) (Qfloor a)
       else weight_of_fraction
              (S (Z.to_nat (Z.log2 (Zpos (Qden a))))) a.

(** The first non-zero base-10000 digit, 0 for the value zero. *)
Definition first_digit (x : numeric) : Z :=
  Qfloor (Qabs x / Qpower 10000 (numeric_weight x)).

(** [select_div_scale]: at least 16 significant digits for the estimated
    weight of the quotient, not less than either display scale, between 0
    and 1000. *)
Definition select_div_scale (x : numeric) (sx : nat) (y : numeric) (sy : nat)
  : nat :=
  let qweight :=
    (numeric_weight x - numeric_weight y
     - (if first_digit x <=? first_digit y then 1 else 0))%Z in
  let rscale := (16 - qweight * 4)%Z in
  Z.to_nat
    (Z.min 1000
       (Z.max 0 (Z.max (Z.of_nat sy) (Z.max (Z.of_nat sx) rscale)))).

(** Rounding to [rscale] decimal places, halves away from zero: the
    number of units of the last place, and the rounded value, which has
    display scale [rscale]. *)
Definition rounded_units (rscale : nat) (x : Q) : Z :=
  let m := x * inject_Z (10 ^ Z.of_nat rscale) in
  if Qle_bool 0 m then Qfloor (m + (1 # 2)) else Qceiling (m - (1 # 2)).

Definition round_to_scale (rscale : nat) (x : Q) : numeric :=
  rounded_units rscale x # Z.to_pos (10 ^ Z.of_nat rscale).

(** The quotient of two values with their display scales.  Operands that
    are no stored numerics have no result scale; their quotient is left
    as it is. *)
Definition div_var (x : numeric) (sx : option nat) (y : numeric)
    (sy : option nat) : numeric :=
  match sx, sy with
  | Some a, Some b => round_to_scale (select_div_scale x a y b) (x / y)
  | _, _ => x / y
  end.

(** The display scale of [SUM(e)]: the largest scale among the rows. *)
Fixpoint max_scale (scales : list (option nat)) : option nat :=
  match scales with
  | [] => Some O
  | s :: rest =>
      match s, max_scale rest with
      | Some a, Some b => Some (Nat.max a b)
      | _, _ => None
      end
  end.

(** The display scale of a product: the sum of the two scales. *)
Definition product_scale (a b : option nat) : option nat :=
  match a, b with
  | Some x, Some y => Some (x + y)%nat
  | _, _ => None
  end.

(** [a / b] on numerics: strict in NULL, raises on a zero divisor. *)
Definition numeric_div (a : option numeric) (sa : option nat)
    (b : option numeric) (sb : option nat) : result (option numeric) :=
  match a, b with
  | Some x, Some y =>
      if Qeq_bool y 0 then Raise division_by_zero
      else Ok (Some (div_var x sa y sb))
  | _, _ => Ok None
  end.

(** ** Assessments and the weighted average
    ([20250212145640_little_poetry.sql]) *)

Inductive assessment_type : Type :=
| exam | assignment | practical | project | test.

Record assessment : Type := mkAssessment {
  as_id : uuid;
  as_student_id : option uuid;
  as_subject_id : option uuid;
  as_term : Z;
  as_year : Z;
  as_type : assessment_type;
  as_weight : numeric;
  as_score : numeric
}.

(** The table's CHECK constraints. *)
Definition assessment_check (a : assessment) : Prop :=
  (1 <= as_term a <= 4)%Z /\
  0 <= as_weight a /\ as_weight a <= 100 /\
  0 <= as_score a /\ as_score a <= 100.

(** The WHERE clause of [calculate_subject_average]. *)
Definition matching_assessment (p_student_id p_subject_id : uuid)
    (p_term p_year : Z) (a : assessment) : bool :=
  sql_eq (as_student_id a) (Some p_student_id)
  && sql_eq (as_subject_id a) (Some p_subject_id)
  && Z.eqb (as_term a) p_term
  && Z.eqb (as_year a) p_year.

Definition matching_assessments (assessments : list assessment)
    (p_student_id p_subject_id : uuid) (p_term p_year : Z) : list assessment :=
  filter (matching_assessment p_student_id p_subject_id p_term p_year)
         assessments.

Definition weighted_scores (rows : list assessment) : list numeric :=
  map (fun a => as_score a * as_weight a) rows.

Definition weights (rows : list assessment) : list numeric :=
  map as_weight rows.

(** The display scales of [SUM(score * weight)] and of [SUM(weight)]. *)
Definition weighted_scores_scale (rows : list assessment) : option nat :=
  max_scale
    (map (fun a => product_scale (dscale (as_score a)) (dscale (as_weight a)))
         rows).

Definition weights_scale (rows : list assessment) : option nat :=
  max_scale (map (fun a => dscale (as_weight a)) rows).

(** [SELECT SUM(score * weight) / SUM(weight) INTO v_average ...;
     RETURN COALESCE(v_average, 0)]. *)
Definition calculate_subject_average (assessments : list assessment)
    (p_student_id p_subject_id : uuid) (p_term p_year : Z) : result numeric :=
  let rows :=
    matching_assessments assessments p_student_id p_subject_id p_term p_year in
  v_average <- numeric_div (SUM (weighted_scores rows))
                           (weighted_scores_scale rows)
                           (SUM (weights rows)) (weights_scale rows) ;;
  Ok (COALESCE v_average 0).


(** ** Dates, timestamps and intervals

    A [date] is a civil date.  A [timestamptz] is a date and the
    microseconds since midnight, read in the session's time zone.  An
    [interval] has a month part and a day part, which PostgreSQL adds in
    this order: the months first, if there are any, with the day clamped
    to the length of the target month, then the days. *)

Record date : Type := mkDate { d_year : Z; d_month : Z; d_day : Z }.

Definition is_leap_year (y : Z) : bool :=
  (y mod 4 =? 0)%Z && (negb (y mod 100 =? 0)%Z || (y mod 400 =? 0)%Z).

Definition days_in_month (y m : Z) : Z :=
  if (m =? 2)%Z then (if is_leap_year y then 29 else 28)%Z
  else if (m =? 4)%Z || (m =? 6)%Z || (m =? 9)%Z || (m =? 11)%Z then 30%Z
  else 31%Z.

(** The dates the type [date] holds. *)
Definition valid_date (d : date) : Prop :=
  (1 <= d_month d <= 12)%Z
  /\ (1 <= d_day d <= days_in_month (d_year d) (d_month d))%Z.

Definition date_compare (a b : date) : comparison :=
  match (d_year a ?= d_year b)%Z with
  | Eq => match (d_month a ?= d_month b)%Z with
          | Eq => (d_day a ?= d_day b)%Z
          | c => c
          end
  | c => c
  end.

Definition date_eqb (a b : date) : bool :=
  match date_compare a b with Eq => true | _ => false end.
Definition date_ltb (a b : date) : bool :=
  match date_compare a b with Lt => true | _ => false end.
Definition date_leb (a b : date) : bool :=
  match date_compare a b with Gt => false | _ => true end.

Definition next_day (d : date) : date :=
  if (d_day d <? days_in_month (d_year d) (d_month d))%Z
  then mkDate (d_year d) (d_month d) (d_day d + 1)
  else if (d_month d <? 12)%Z
       then mkDate (d_year d) (d_month d + 1) 1
       else mkDate (d_year d + 1) 1 1.

Definition add_days (n : nat) (d : date) : date := Nat.iter n next_day d.

Definition add_months (k : Z) (d : date) : date :=
  let t := (d_year d * 12 + (d_month d - 1) + k)%Z in
  let y := (t / 12)%Z in
  let m := (t mod 12 + 1)%Z in
  mkDate y m (Z.min (d_day d) (days_in_month y m)).

Record interval : Type := mkInterval { iv_months : Z; iv_days : nat }.

Record timestamptz : Type := mkTimestamp { ts_date : date; ts_time : Z }.

(** [d::timestamptz]: midnight of [d]; [ts::date]: the date part. *)
Definition date_to_timestamp (d : date) : timestamptz := mkTimestamp d 0.
Definition timestamp_to_date (ts : timestamptz) : date := ts_date ts.

Definition timestamp_pl_interval (ts : timestamptz) (iv : interval)
  : timestamptz :=
  let d :=
    if (iv_months iv =? 0)%Z then ts_date ts
    else add_months (iv_months iv) (ts_date ts) in
  mkTimestamp (add_days (iv_days iv) d) (ts_time ts).

(** [date + interval] is a timestamp. *)
Definition date_pl_interval (d : date) (iv : interval) : timestamptz :=
  timestamp_pl_interval (date_to_timestamp d) iv.

Definition timestamp_leb (a b : timestamptz) : bool :=
  date_ltb (ts_date a) (ts_date b)
  || (date_eqb (ts_date a) (ts_date b) && (ts_time a <=? ts_time b)%Z).


(** ** Invoices, credit notes and their line items
    ([20250212082105_bold_lab.sql], credit-notes migration) *)

Inductive invoice_status : Type := draft | sent | paid | overdue.

Definition invoice_status_eqb (a b : invoice_status) : bool :=
  match a, b with
  | draft, draft | sent, sent | paid, paid | overdue, overdue => true
  | _, _ => false
  end.

Record invoice : Type := mkInvoice {
  inv_id : uuid;
  inv_number : string;
  inv_client_id : uuid;
  inv_date : date;
  inv_due_date : date;
  inv_subtotal : numeric;
  inv_tax_rate : numeric;
  inv_tax_amount : numeric;
  inv_total : numeric;
  inv_status : invoice_status;
  inv_currency_code : string;
  inv_user_id : option uuid;
  inv_updated_at : timestamptz
}.

Inductive credit_note_status : Type := cn_draft | cn_issued.

Record credit_note : Type := mkCreditNote {
  cn_id : uuid;
  cn_number : string;
  cn_invoice_id : option uuid;
  cn_client_id : uuid;
  cn_date : date;
  cn_reason : string;
  cn_subtotal : numeric;
  cn_tax_rate : numeric;
  cn_tax_amount : numeric;
  cn_total : numeric;
  cn_status : credit_note_status;
  cn_currency_code : string;
  cn_user_id : option uuid;
  cn_updated_at : timestamptz
}.

(** [invoice_items] and [credit_note_items] have the same columns; the
    reference to the owning document ([invoice_id], [credit_note_id]) is
    nullable. *)
Record line_item : Type := mkLineItem {
  li_id : uuid;
  li_document_id : option uuid;
  li_description : string;
  li_quantity : numeric;
  li_rate : numeric;
  li_amount : numeric
}.

(** [SELECT COALESCE(SUM(amount), 0) FROM items WHERE document_id = k]. *)
Definition items_of (items : list line_item) (k : option uuid)
  : list line_item :=
  filter (fun it => sql_eq (li_document_id it) k) items.

Definition sum_amounts (items : list line_item) (k : option uuid) : numeric :=
  COALESCE (SUM (map li_amount (items_of items k))) 0.

Definition set_invoice_subtotal (s : numeric) (now : timestamptz)
    (i : invoice) : invoice :=
  mkInvoice (inv_id i) (inv_number i) (inv_client_id i) (inv_date i)
    (inv_due_date i) s (inv_tax_rate i) (inv_tax_amount i) (inv_total i)
    (inv_status i) (inv_currency_code i) (inv_user_id i) now.

Definition set_invoice_tax_total (tax total : numeric) (i : invoice)
  : invoice :=
  mkInvoice (inv_id i) (inv_number i) (inv_client_id i) (inv_date i)
    (inv_due_date i) (inv_subtotal i) (inv_tax_rate i) tax total
    (inv_status i) (inv_currency_code i) (inv_user_id i) (inv_updated_at i).

Definition set_credit_note_subtotal (s : numeric) (now : timestamptz)
    (c : credit_note) : credit_note :=
  mkCreditNote (cn_id c) (cn_number c) (cn_invoice_id c) (cn_client_id c)
    (cn_date c) (cn_reason c) s (cn_tax_rate c) (cn_tax_amount c)
    (cn_total c) (cn_status c) (cn_currency_code c) (cn_user_id c) now.

Definition set_credit_note_tax_total (tax total : numeric) (c : credit_note)
  : credit_note :=
  mkCreditNote (cn_id c) (cn_number c) (cn_invoice_id c) (cn_client_id c)
    (cn_date c) (cn_reason c) (cn_subtotal c) (cn_tax_rate c) tax total
    (cn_status c) (cn_currency_code c) (cn_user_id c) (cn_updated_at c).

(** The record [NEW] of a row-level trigger: the new row on INSERT and
    UPDATE, the null record on DELETE, every field of which reads as
    NULL. *)
Definition NEW_document_id (NEW : option line_item) : option uuid :=
  match NEW with
  | Some row => li_document_id row
  | None => None
  end.

(** [tax_rate / 100]: the stored rate divided by the integer constant
    100, a numeric of display scale 0. *)
Definition tax_fraction (tax_rate : numeric) : numeric :=
  div_var tax_rate (dscale tax_rate) 100 (Some O).

(** [update_invoice_totals()]: two UPDATEs on [invoices], both
    [WHERE id = NEW.invoice_id].  The second reads the subtotal the first
    one stored. *)
Definition update_invoice_totals (now : timestamptz) (NEW : option line_item)
    (invoices : list invoice) (invoice_items : list line_item)
  : list invoice :=
  let k := NEW_document_id NEW in
  let invoices1 :=
    map (fun i => if sql_eq (Some (inv_id i)) k
                  then set_invoice_subtotal (sum_amounts invoice_items k) now i
                  else i) invoices in
  map (fun i => if sql_eq (Some (inv_id i)) k
                then set_invoice_tax_total
                       (inv_subtotal i * tax_fraction (inv_tax_rate i))
                       (inv_subtotal i
                        + inv_subtotal i * tax_fraction (inv_tax_rate i)) i
                else i) invoices1.

(** [update_credit_note_totals()]: the same two UPDATEs on
    [credit_notes]. *)
Definition update_credit_note_totals (now : timestamptz)
    (NEW : option line_item) (credit_notes : list credit_note)
    (credit_note_items : list line_item) : list credit_note :=
  let k := NEW_document_id NEW in
  let credit_notes1 :=
    map (fun c => if sql_eq (Some (cn_id c)) k
                  then set_credit_note_subtotal
                         (sum_amounts credit_note_items k) now c
                  else c) credit_notes in
  map (fun c => if sql_eq (Some (cn_id c)) k
                then set_credit_note_tax_total
                       (cn_subtotal c * tax_fraction (cn_tax_rate c))
                       (cn_subtotal c
                        + cn_subtotal c * tax_fraction (cn_tax_rate c)) c
                else c) credit_notes1.

(** A document table with its item table, and the three single-row
    statements on the item table.  Each statement changes the items and
    then fires the AFTER ... FOR EACH ROW trigger once per affected row. *)
Inductive item_statement : Type :=
| InsertItem (row : line_item)
| UpdateItem (id : uuid) (row : line_item)
| DeleteItem (id : uuid).

Definition apply_item_statement (st : item_statement)
    (items : list line_item) : list line_item :=
  match st with
  | InsertItem row => items ++ [row]
  | UpdateItem id row =>
      map (fun it => if Nat.eqb (li_id it) id then row else it) items
  | DeleteItem id =>
      filter (fun it => negb (Nat.eqb (li_id it) id)) items
  end.

(** The [NEW] records handed to the trigger, one per affected row. *)
Definition fired_NEW (st : item_statement) (items : list line_item)
  : list (option line_item) :=
  match st with
  | InsertItem row => [Some row]
  | UpdateItem id row =>
      map (fun _ => Some row)
          (filter (fun it => Nat.eqb (li_id it) id) items)
  | DeleteItem id =>
      map (fun _ => None)
          (filter (fun it => Nat.eqb (li_id it) id) items)
  end.

Definition exec_invoice_item_statement (now : timestamptz)
    (st : item_statement) (invoices : list invoice)
    (invoice_items : list line_item) : list invoice * list line_item :=
  let items' := apply_item_statement st invoice_items in
  (fold_left (fun invs NEW => update_invoice_totals now NEW invs items')
             (fired_NEW st invoice_items) invoices,
   items').

Definition exec_credit_note_item_statement (now : timestamptz)
    (st : item_statement) (credit_notes : list credit_note)
    (credit_note_items : list line_item)
  : list credit_note * list line_item :=
  let items' := apply_item_statement st credit_note_items in
  (fold_left (fun cns NEW => update_credit_note_totals now NEW cns items')
             (fired_NEW st credit_note_items) credit_notes,
   items').

(** What the trigger stores for a document: the sum of its items, the
    tax on it at the quotient [tax_rate / 100] as the division returns
    it, and their sum. *)
Definition invoice_totals_stored (invoice_items : list line_item)
    (i : invoice) : Prop :=
  inv_subtotal i == qsum (map li_amount
                            (items_of invoice_items (Some (inv_id i))))
  /\ inv_tax_amount i == inv_subtotal i * tax_fraction (inv_tax_rate i)
  /\ inv_total i == inv_subtotal i + inv_tax_amount i.

Definition credit_note_totals_stored (credit_note_items : list line_item)
    (c : credit_note) : Prop :=
  cn_subtotal c == qsum (map li_amount
                           (items_of credit_note_items (Some (cn_id c))))
  /\ cn_tax_amount c == cn_subtotal c * tax_fraction (cn_tax_rate c)
  /\ cn_total c == cn_subtotal c + cn_tax_amount c.

(** The invariant of a stored document. *)
Definition invoice_totals_ok (invoice_items : list line_item) (i : invoice)
  : Prop :=
  inv_subtotal i == qsum (map li_amount
                            (items_of invoice_items (Some (inv_id i))))
  /\ inv_tax_amount i == inv_subtotal i * (inv_tax_rate i / 100)
  /\ inv_total i == inv_subtotal i + inv_tax_amount i.

Definition credit_note_totals_ok (credit_note_items : list line_item)
    (c : credit_note) : Prop :=
  cn_subtotal c == qsum (map li_amount
                           (items_of credit_note_items (Some (cn_id c))))
  /\ cn_tax_amount c == cn_subtotal c * (cn_tax_rate c / 100)
  /\ cn_total c == cn_subtotal c + cn_tax_amount c.

(** The specification's rounding, [round(x, 2)]: to the nearest
    hundredth, halves away from zero.  It is not part of the code. *)
Definition spec_round2 (x : numeric) : numeric :=
  let n := x * 100 in
  (if Qle_bool 0 n then Qfloor (n + (1 # 2)) else Qceiling (n - (1 # 2))) # 100.


(** ** Clients, the statement ledger and its summary
    ([get_client_statement], [client_statement_summary]) *)

Record client : Type := mkClient {
  c_id : uuid;
  c_name : string;
  c_user_id : option uuid
}.

(** The column [type]: ['invoice'] or ['payment']. *)
Inductive entry_type : Type := entry_invoice | entry_payment.

(** A row of the CTE [transactions]. *)
Record transaction : Type := mkTransaction {
  tx_date : date;
  tx_description : string;
  tx_reference : string;
  tx_type : entry_type;
  tx_debit : numeric;
  tx_credit : numeric
}.

(** A row of the result: the transaction and its [running_balance]. *)
Record statement_entry : Type := mkEntry {
  se_tx : transaction;
  se_running_balance : numeric
}.

(** [i.client_id = p_client_id AND i.date BETWEEN p_start_date AND
    p_end_date AND i.user_id = auth.uid()]. *)
Definition in_statement_scope (auth_uid : option uuid) (p_client_id : uuid)
    (p_start_date p_end_date : date) (i : invoice) : bool :=
  Nat.eqb (inv_client_id i) p_client_id
  && (date_leb p_start_date (inv_date i) && date_leb (inv_date i) p_end_date)
  && sql_eq (inv_user_id i) auth_uid.

Definition invoice_transaction (i : invoice) : transaction :=
  mkTransaction (inv_date i) ("Invoice #" ++ inv_number i) (inv_number i)
    entry_invoice (inv_total i) 0.

Definition payment_transaction (i : invoice) : transaction :=
  mkTransaction (inv_date i) ("Payment for Invoice #" ++ inv_number i)
    (inv_number i) entry_payment 0 (inv_total i).

(** The two branches of the UNION ALL: every invoice in scope is a debit,
    every paid one is also a credit, dated like the invoice. *)
Definition transactions (auth_uid : option uuid) (invoices : list invoice)
    (p_client_id : uuid) (p_start_date p_end_date : date)
  : list transaction :=
  map invoice_transaction
      (filter (in_statement_scope auth_uid p_client_id p_start_date p_end_date)
              invoices)
  ++ map payment_transaction
      (filter (fun i =>
                 in_statement_scope auth_uid p_client_id p_start_date
                                    p_end_date i
                 && invoice_status_eqb (inv_status i) paid)
              invoices).

(** [CASE WHEN t.type = 'invoice' THEN 0 ELSE 1 END]. *)
Definition type_rank (t : transaction) : Z :=
  match tx_type t with
  | entry_invoice => 0%Z
  | entry_payment => 1%Z
  end.

(** [ORDER BY t.date, CASE ... END]. *)
Definition order_leb (a b : transaction) : bool :=
  date_ltb (tx_date a) (tx_date b)
  || (date_eqb (tx_date a) (tx_date b) && (type_rank a <=? type_rank b)%Z).

Definition order_ltb (a b : transaction) : bool := negb (order_leb b a).

(** The ORDER BY as a stable insertion sort.  SQL leaves the order of rows
    with equal keys open; the running balances do not depend on it. *)
Fixpoint insert_transaction (t : transaction) (l : list transaction)
  : list transaction :=
  match l with
  | [] => [t]
  | x :: l' =>
      if order_ltb x t then x :: insert_transaction t l' else t :: x :: l'
  end.

Definition sort_transactions (l : list transaction) : list transaction :=
  fold_right insert_transaction [] l.

Definition delta (t : transaction) : numeric := tx_debit t - tx_credit t.

(** [SUM(t.debit - t.credit) OVER (ORDER BY ...)].  No frame is written,
    so the frame is RANGE BETWEEN UNBOUNDED PRECEDING AND CURRENT ROW: all
    rows up to the current one and the rows that share its ORDER BY key. *)
Definition window_sum (rows : list transaction) (t : transaction) : numeric :=
  qsum (map delta (filter (fun r => order_leb r t) rows)).

Definition get_client_statement (auth_uid : option uuid)
    (invoices : list invoice) (p_client_id : uuid)
    (p_start_date p_end_date : date) : list statement_entry :=
  let rows :=
    sort_transactions
      (transactions auth_uid invoices p_client_id p_start_date p_end_date) in
  map (fun t => mkEntry t (window_sum rows t)) rows.

(** The running balance as the specification words it: the cumulative sum
    of debit - credit, entry by entry. *)
Fixpoint spec_running_balances (acc : numeric) (rows : list transaction)
  : list numeric :=
  match rows with
  | [] => []
  | t :: rows' =>
      (acc + delta t) :: spec_running_balances (acc + delta t) rows'
  end.

Definition last_entry {A : Type} (l : list A) : option A :=
  match l with
  | [] => None
  | x :: l' => Some (last l' x)
  end.

(** A row of the view [client_statement_summary]. *)
Record statement_summary : Type := mkSummary {
  ss_client_id : uuid;
  ss_client_name : string;
  ss_total_invoices : nat;
  ss_total_paid : numeric;
  ss_total_outstanding : numeric;
  ss_first_invoice_date : option date;
  ss_last_invoice_date : option date
}.

Definition min_date (ds : list date) : option date :=
  match ds with
  | [] => None
  | d :: ds' =>
      Some (fold_left (fun m x => if date_ltb x m then x else m) ds' d)
  end.

Definition max_date (ds : list date) : option date :=
  match ds with
  | [] => None
  | d :: ds' =>
      Some (fold_left (fun m x => if date_ltb m x then x else m) ds' d)
  end.

Definition paid_part (i : invoice) : numeric :=
  match inv_status i with paid => inv_total i | _ => 0 end.

Definition outstanding_part (i : invoice) : numeric :=
  match inv_status i with sent | overdue => inv_total i | _ => 0 end.

Definition draft_part (i : invoice) : numeric :=
  match inv_status i with draft => inv_total i | _ => 0 end.

(** [FROM clients c LEFT JOIN invoices i ON c.id = i.client_id
     WHERE c.user_id = auth.uid() GROUP BY c.id, c.name]: one row per
    client of the caller ([id] is the primary key); a client without
    invoices joins one all-NULL row, over which the count is 0, the two
    sums are 0 and the dates are NULL. *)
Definition client_statement_summary (auth_uid : option uuid)
    (clients : list client) (invoices : list invoice)
  : list statement_summary :=
  map (fun c =>
         let joined :=
           filter (fun i => Nat.eqb (inv_client_id i) (c_id c)) invoices in
         mkSummary (c_id c) (c_name c)
           (List.length (nodup Nat.eq_dec (map inv_id joined)))
           (qsum (map paid_part joined))
           (qsum (map outstanding_part joined))
           (min_date (map inv_date joined))
           (max_date (map inv_date joined)))
      (filter (fun c => sql_eq (c_user_id c) auth_uid) clients).


(** ** Text functions and the number sequences
    ([generate_invoice_number], [generate_credit_note_number],
     [generate_student_number]) *)

Open Scope string_scope.

Definition is_digit (c : ascii) : bool :=
  (48 <=? nat_of_ascii c)%nat && (nat_of_ascii c <=? 57)%nat.

Definition digit_value (c : ascii) : Z := Z.of_nat (nat_of_ascii c - 48).

Definition digit_char (d : Z) : ascii := ascii_of_nat (48 + Z.to_nat d).

(** The longest prefix of digits, and what follows it. *)
Fixpoint span_digits (s : string) : string * string :=
  match s with
  | String c s' =>
      if is_digit c
      then let (ds, rest) := span_digits s' in (String c ds, rest)
      else (EmptyString, s)
  | EmptyString => (EmptyString, EmptyString)
  end.

Fixpoint digits_value (acc : Z) (s : string) : Z :=
  match s with
  | String c s' => digits_value (10 * acc + digit_value c) s'
  | EmptyString => acc
  end.

Definition int4_max : Z := 2147483647.

(** [CAST(s AS integer)] on a string of digits. *)
Definition cast_integer (s : string) : result Z :=
  let v := digits_value 0 s in
  if (v <=? int4_max)%Z then Ok v else Raise numeric_value_out_of_range.

(** [a + b] on [integer]. *)
Definition int4_add (a b : Z) : result Z :=
  if (a + b <=? int4_max)%Z then Ok (a + b)%Z
  else Raise numeric_value_out_of_range.

(** [n::text] for a non-negative [integer]: at most ten digits. *)
Fixpoint digits_of (fuel : nat) (n : Z) (acc : string) : string :=
  match fuel with
  | O => acc
  | S fuel' =>
      let acc' := String (digit_char (n mod 10)) acc in
      if (n <? 10)%Z then acc' else digits_of fuel' (n / 10) acc'
  end.

Definition integer_to_text (n : Z) : string := digits_of 10 n EmptyString.

Fixpoint replicate (n : nat) (c : ascii) : string :=
  match n with
  | O => EmptyString
  | S n' => String c (replicate n' c)
  end.

(** [LPAD(s, n, fill)]: pads on the left up to [n] characters; a string
    longer than [n] is cut to its first [n] characters. *)
Definition LPAD (s : string) (n : nat) (fill : ascii) : string :=
  if (n <=? String.length s)%nat then substring 0 n s
  else replicate (n - String.length s) fill ++ s.

(** [to_char(d, 'YYYY')]: the year in four digits or more. *)
Definition to_char_YYYY (d : date) : string :=
  let s := integer_to_text (d_year d) in
  replicate (4 - String.length s) "0" ++ s.

(** [s LIKE p || '%'] for a pattern [p] without wildcards. *)
Definition LIKE_prefix (p s : string) : bool := prefix p s.

Fixpoint strip_prefix (p s : string) : option string :=
  match p, s with
  | EmptyString, _ => Some s
  | String a p', String b s' =>
      if Ascii.eqb a b then strip_prefix p' s' else None
  | String _ _, EmptyString => None
  end.

(** [\d{4}] at the start of [s]. *)
Definition strip_four_digits (s : string) : option string :=
  match s with
  | String a (String b (String c (String d rest))) =>
      if is_digit a && is_digit b && is_digit c && is_digit d
      then Some rest else None
  | _ => None
  end.

(** The pattern [lit\d{4}-(\d+)] matched at the start of [s]: the
    captured digits, as many as there are. *)
Definition match_here (lit s : string) : option string :=
  match strip_prefix lit s with
  | Some r =>
      match strip_four_digits r with
      | Some (String "-" r') =>
          match fst (span_digits r') with
          | EmptyString => None
          | ds => Some ds
          end
      | _ => None
      end
  | None => None
  end.

(** [SUBSTRING(s FROM 'lit\d{4}-(\d+)')]: the capture of the leftmost
    match, NULL without a match. *)
Fixpoint regex_substring (lit s : string) : option string :=
  match match_here lit s with
  | Some ds => Some ds
  | None =>
      match s with
      | String _ s' => regex_substring lit s'
      | EmptyString => None
      end
  end.

(** [CAST(SUBSTRING(number FROM pattern) AS integer)]. *)
Definition extract_sequence (lit number : string) : result (option Z) :=
  match regex_substring lit number with
  | Some ds => v <- cast_integer ds ;; Ok (Some v)
  | None => Ok None
  end.

Definition sql_max (a b : option Z) : option Z :=
  match a, b with
  | Some x, Some y => Some (Z.max x y)
  | Some x, None => Some x
  | None, b => b
  end.

(** [MAX(CAST(SUBSTRING(...) AS integer))] over the selected rows. *)
Fixpoint max_sequence (lit : string) (numbers : list string)
  : result (option Z) :=
  match numbers with
  | [] => Ok None
  | s :: rest =>
      v <- extract_sequence lit s ;;
      m <- max_sequence lit rest ;;
      Ok (sql_max v m)
  end.

(** [SELECT COALESCE((SELECT MAX(...) FROM t
                      WHERE number LIKE lit || year || '-%'), 0) + 1
     INTO next_number]. *)
Definition next_number (lit year : string) (numbers : list string)
  : result Z :=
  m <- max_sequence lit
         (filter (LIKE_prefix (lit ++ year ++ "-")) numbers) ;;
  int4_add (COALESCE m 0%Z) 1.

(** [lit || year || '-' || LPAD(next_number::text, width, '0')]. *)
Definition format_number (lit year : string) (width : nat) (n : Z) : string :=
  lit ++ year ++ "-" ++ LPAD (integer_to_text n) width "0".

Definition generate_invoice_number (current_date : date)
    (invoices : list invoice) : result string :=
  let year := to_char_YYYY current_date in
  next_number <- next_number "INV-" year (map inv_number invoices) ;;
  Ok (format_number "INV-" year 3 next_number).

Definition generate_credit_note_number (current_date : date)
    (credit_notes : list credit_note) : result string :=
  let year := to_char_YYYY current_date in
  next_number <- next_number "CN-" year (map cn_number credit_notes) ;;
  Ok (format_number "CN-" year 3 next_number).

Record student : Type := mkStudent {
  st_id : uuid;
  st_user_id : option uuid;
  st_student_number : string;
  st_first_name : string;
  st_last_name : string;
  st_grade : Z
}.

(** [generate_student_number()] declares a variable [student_number],
    and its SELECT reads the column [student_number] of [students]
    without a qualifier.  PL/pgSQL (plpgsql.variable_conflict = error,
    the default) rejects the statement: the reference is ambiguous.  The
    assignment of [year] before it runs; the statements after it are not
    reached. *)
Definition generate_student_number (current_date : date)
    (students : list student) : result string :=
  let year := to_char_YYYY current_date in
  next_number <- (Raise ambiguous_column : result Z) ;;
  Ok (format_number "" year 4 next_number).

Close Scope string_scope.


(** ** Recurring invoices ([generate_recurring_invoices]) *)

Inductive frequency : Type := weekly | monthly | quarterly | yearly.

Inductive recurring_status : Type := active | paused | completed.

Definition recurring_status_eqb (a b : recurring_status) : bool :=
  match a, b with
  | active, active | paused, paused | completed, completed => true
  | _, _ => false
  end.

Record recurring_invoice : Type := mkRecurring {
  rc_id : uuid;
  rc_client_id : option uuid;
  rc_user_id : option uuid;
  rc_frequency : frequency;
  rc_start_date : date;
  rc_end_date : option date;
  rc_description : string;
  rc_amount : numeric;
  rc_tax_rate : numeric;
  rc_currency_code : string;
  rc_status : recurring_status;
  rc_last_generated : option timestamptz;
  rc_updated_at : timestamptz
}.

(** The table's CHECK constraints ([frequency] and [status] are checked by
    their types). *)
Definition recurring_check (r : recurring_invoice) : Prop :=
  0 < rc_amount r /\ 0 <= rc_tax_rate r /\
  match rc_end_date r with
  | Some e => date_ltb (rc_start_date r) e = true
  | None => True
  end.

(** The tables the function works on.  [db_next_id] stands for
    [gen_random_uuid()]: an identifier no row carries yet. *)
Record database : Type := mkDatabase {
  db_invoices : list invoice;
  db_invoice_items : list line_item;
  db_recurring_invoices : list recurring_invoice;
  db_next_id : uuid
}.

(** [interval '1 week'], ['1 month'], ['3 months'], ['1 year']. *)
Definition period (f : frequency) : interval :=
  match f with
  | weekly => mkInterval 0 7
  | monthly => mkInterval 1 0
  | quarterly => mkInterval 3 0
  | yearly => mkInterval 12 0
  end.

(** The WHERE clause of the loop's query, at the time [now] of the
    transaction: [CURRENT_DATE] is the date of [now], and comparing a
    timestamp with it compares with its midnight. *)
Definition is_due (now : timestamptz) (r : recurring_invoice) : bool :=
  let current_date := timestamp_to_date now in
  recurring_status_eqb (rc_status r) active
  && match rc_last_generated r with
     | None => true
     | Some ts =>
         timestamp_leb (timestamp_pl_interval ts (period (rc_frequency r)))
                       (date_to_timestamp current_date)
     end
  && match rc_end_date r with
     | None => true
     | Some e => date_leb current_date e
     end.

(** [next_date := COALESCE(rec.last_generated::date, rec.start_date)
                  + CASE rec.frequency ... END], stored in a [date]. *)
Definition next_invoice_date (r : recurring_invoice) : date :=
  timestamp_to_date
    (date_pl_interval
       (COALESCE (option_map timestamp_to_date (rc_last_generated r))
                 (rc_start_date r))
       (period (rc_frequency r))).

(** [INSERT INTO invoices]: the primary key is fresh, [number] is UNIQUE. *)
Definition insert_invoice (row : uuid -> invoice) (db : database)
  : result (uuid * database) :=
  let id := db_next_id db in
  if existsb (String.eqb (inv_number (row id)))
             (map inv_number (db_invoices db))
  then Raise unique_violation
  else Ok (id, mkDatabase (db_invoices db ++ [row id]) (db_invoice_items db)
                 (db_recurring_invoices db) (S id)).

(** [INSERT INTO invoice_items], with its trigger. *)
Definition insert_invoice_item (now : timestamptz) (row : uuid -> line_item)
    (db : database) : database :=
  let id := db_next_id db in
  let (invoices, items) :=
    exec_invoice_item_statement now (InsertItem (row id))
      (db_invoices db) (db_invoice_items db) in
  mkDatabase invoices items (db_recurring_invoices db) (S id).

Definition set_last_generated (now : timestamptz) (r : recurring_invoice)
  : recurring_invoice :=
  mkRecurring (rc_id r) (rc_client_id r) (rc_user_id r) (rc_frequency r)
    (rc_start_date r) (rc_end_date r) (rc_description r) (rc_amount r)
    (rc_tax_rate r) (rc_currency_code r) (rc_status r) (Some now) now.

(** [UPDATE recurring_invoices SET last_generated = CURRENT_TIMESTAMP,
     updated_at = CURRENT_TIMESTAMP WHERE id = rec.id]. *)
Definition touch (now : timestamptz) (id : uuid) (r : recurring_invoice)
  : recurring_invoice :=
  if Nat.eqb (rc_id r) id then set_last_generated now r else r.

Definition update_last_generated (now : timestamptz) (id : uuid)
    (db : database) : database :=
  mkDatabase (db_invoices db) (db_invoice_items db)
    (map (touch now id) (db_recurring_invoices db))
    (db_next_id db).

Definition not_null {A : Type} (v : option A) : result A :=
  match v with
  | Some x => Ok x
  | None => Raise not_null_violation
  end.

(** The body of the loop for one selected template. *)
Definition generate_for (now : timestamptz) (rec : recurring_invoice)
    (db : database) : result database :=
  let next_date := next_invoice_date rec in
  number <- generate_invoice_number (timestamp_to_date now) (db_invoices db) ;;
  client_id <- not_null (rc_client_id rec) ;;
  inserted <-
    insert_invoice
      (fun id =>
         mkInvoice id number client_id next_date
           (timestamp_to_date (date_pl_interval next_date (mkInterval 0 30)))
           0 (rc_tax_rate rec) 0 0 draft (rc_currency_code rec)
           (rc_user_id rec) now)
      db ;;
  let (invoice_id, db1) := inserted in
  let db2 :=
    insert_invoice_item now
      (fun id =>
         mkLineItem id (Some invoice_id) (rc_description rec) 1
           (rc_amount rec) (rc_amount rec))
      db1 in
  Ok (update_last_generated now (rc_id rec) db2).

(** [FOR rec IN SELECT * FROM recurring_invoices WHERE ... LOOP ... END
    LOOP]: the templates are selected first, then handled one by one;
    the first error aborts the function. *)
Definition round (now : timestamptz) (acc : result database)
    (rec : recurring_invoice) : result database :=
  db' <- acc ;; generate_for now rec db'.

Definition generate_recurring_invoices (now : timestamptz) (db : database)
  : result database :=
  fold_left (round now) (filter (is_due now) (db_recurring_invoices db))
            (Ok db).

(** ** Issuing a number and storing the document, as the client does

    The form asks for a number with one request
    ([rpc('generate_invoice_number')]) and stores the invoice with a second
    one ([from('invoices').insert(...)]).  Each request is served
    atomically; requests of several sessions may interleave.  A session
    is a signed-in user.

    [invoices] has row-level security: the policy "Users can view their
    own invoices" is [USING (auth.uid() = user_id)].
    [generate_invoice_number] is not SECURITY DEFINER, so a call through
    the API reads the caller's rows only; the UNIQUE constraint on
    [number] covers the whole table. *)

Definition visible_invoices (auth_uid : option uuid)
    (invoices : list invoice) : list invoice :=
  filter (fun i => sql_eq auth_uid (inv_user_id i)) invoices.

(** [supabase.rpc('generate_invoice_number')] for the signed-in user. *)
Definition rpc_generate_invoice_number (auth_uid : option uuid) (today : date)
    (invoices : list invoice) : result string :=
  generate_invoice_number today (visible_invoices auth_uid invoices).

Inductive request : Type :=
| RpcGenerateNumber (session : nat)
| InsertInvoice (session : nat).

Record server : Type := mkServer {
  sv_db : database;
  sv_issued : list (nat * string);   (* the number each session was given *)
  sv_rejected : list (nat * sql_error)  (* the requests that raised *)
}.

Fixpoint issued_to (session : nat) (issued : list (nat * string))
  : option string :=
  match issued with
  | [] => None
  | (s, number) :: rest =>
      if Nat.eqb s session then Some number else issued_to session rest
  end.

Definition form_invoice (session : nat) (number : string) (today : date)
    (id : uuid) : invoice :=
  mkInvoice id number session today today 0 0 0 0 draft "ZAR" (Some session)
    (date_to_timestamp today).

Definition serve (today : date) (sv : server) (rq : request) : server :=
  match rq with
  | RpcGenerateNumber s =>
      match rpc_generate_invoice_number (Some s) today
              (db_invoices (sv_db sv)) with
      | Ok number =>
          mkServer (sv_db sv) ((s, number) :: sv_issued sv) (sv_rejected sv)
      | Raise e =>
          mkServer (sv_db sv) (sv_issued sv) ((s, e) :: sv_rejected sv)
      end
  | InsertInvoice s =>
      match issued_to s (sv_issued sv) with
      | Some number =>
          match insert_invoice (form_invoice s number today) (sv_db sv) with
          | Ok (_, db') => mkServer db' (sv_issued sv) (sv_rejected sv)
          | Raise e =>
              mkServer (sv_db sv) (sv_issued sv) ((s, e) :: sv_rejected sv)
          end
      | None => sv
      end
  end.

Definition serve_all (today : date) (sv : server) (schedule : list request)
  : server :=
  fold_left (serve today) schedule sv.

(** One session after another: ask, store, ask, store, ... *)
Definition one_by_one (sessions : list nat) : list request :=
  flat_map (fun s => [RpcGenerateNumber s; InsertInvoice s]) sessions.


(** ** Notions used to state the properties *)

(** [t] has at most [r] decimal places: it is a whole number of units of
    the [r]-th decimal place. *)
Definition on_grid (r : nat) (t : Q) : Prop :=
  exists k : Z, t * inject_Z (10 ^ Z.of_nat r) == inject_Z k.

(** The stored value carries at most [n] decimal places. *)
Definition scale_at_most (n : nat) (x : numeric) : Prop :=
  match dscale x with
  | Some d => (d <= n)%nat
  | None => True
  end.

(** A rate stored with at most 14 decimal places and below 10000 in
    absolute value. *)
Definition plain_rate (tax_rate : numeric) : Prop :=
  (exists d, dscale tax_rate = Some d /\ (d <= 14)%nat)
  /\ Qabs tax_rate < 10000.

Definition ordered : list transaction -> Prop :=
  StronglySorted (fun a b => order_leb a b = true).

(** A year in four digits, and a padded sequence number that reads back
    as the number it prints. *)
Definition four_digits (s : string) : bool :=
  match s with
  | String a (String b (String c (String d EmptyString))) =>
      is_digit a && is_digit b && is_digit c && is_digit d
  | _ => false
  end.

Definition reads_back (width : nat) (n : Z) : bool :=
  let p := LPAD (integer_to_text n) width "0" in
  let (ds, rest) := span_digits p in
  String.eqb ds p && String.eqb rest "" && negb (String.eqb p "")
  && (digits_value 0 p =? n)%Z.

Fixpoint consecutive (k : Z) (n : nat) : list Z :=
  match n with
  | O => []
  | S n' => k :: consecutive (k + 1)%Z n'
  end.

Definition invoice_number_of (today : date) (k : Z) : string :=
  format_number "INV-" (to_char_YYYY today) 3 k.

(** No invoice of another user carries a number of the current year. *)
Definition year_numbers_owned (s : nat) (today : date)
    (invoices : list invoice) : Prop :=
  forall i, In i invoices -> inv_user_id i <> Some s ->
    LIKE_prefix ("INV-" ++ to_char_YYYY today ++ "-")%string (inv_number i)
    = false.

Definition touched (due : list recurring_invoice) (r : recurring_invoice)
  : bool :=
  existsb (fun d => Nat.eqb (rc_id r) (rc_id d)) due.

(** The selection, in words. *)
Definition due_condition (now : timestamptz) (r : recurring_invoice) : Prop :=
  rc_status r = active
  /\ (rc_last_generated r = None
      \/ exists ts, rc_last_generated r = Some ts
           /\ timestamp_leb
                (timestamp_pl_interval ts (period (rc_frequency r)))
                (date_to_timestamp (timestamp_to_date now)) = true)
  /\ (rc_end_date r = None
      \/ exists e, rc_end_date r = Some e
           /\ date_leb (timestamp_to_date now) e = true).

(** The step of the date, in words: a week is seven days; a month, a
    quarter and a year are 1, 3 and 12 calendar months. *)
Definition spec_step (f : frequency) (d : date) : date :=
  match f with
  | weekly => add_days 7 d
  | monthly => add_months 1 d
  | quarterly => add_months 3 d
  | yearly => add_months 12 d
  end.

(** Case analysis on the comparisons of dates and of statement rows. *)
Ltac date_cases :=
  unfold date_leb, date_ltb, date_eqb, date_compare in *;
  repeat match goal with
         | |- context [(?x ?= ?y)%Z] => destruct (Z.compare_spec x y)
         | H : context [(?x ?= ?y)%Z] |- _ => destruct (Z.compare_spec x y)
         end;
  try reflexivity; try discriminate; try lia.

Ltac order_cases :=
  unfold order_ltb, order_leb, type_rank in *;
  repeat match goal with
         | |- context [tx_type ?t] => destruct (tx_type t)
         | H : context [tx_type ?t] |- _ => destruct (tx_type t)
         end;
  cbn [Z.leb Z.compare andb orb negb] in *;
  rewrite ?andb_true_r, ?andb_false_r, ?orb_false_r in *;
  date_cases.


(** ** Sample rows *)

Definition midnight (y m d : Z) : timestamptz := mkTimestamp (mkDate y m d) 0.

Definition noon (y m d : Z) : timestamptz :=
  mkTimestamp (mkDate y m d) 43200000000.

Definition two_assessments : list assessment :=
  [ mkAssessment 1%nat (Some 7%nat) (Some 3%nat) 1%Z 2025%Z exam 50 80;
    mkAssessment 2%nat (Some 7%nat) (Some 3%nat) 1%Z 2025%Z test 50 60 ].

Definition thirds_assessments : list assessment :=
  [ mkAssessment 1%nat (Some 7%nat) (Some 3%nat) 1%Z 2025%Z exam 1 50;
    mkAssessment 2%nat (Some 7%nat) (Some 3%nat) 1%Z 2025%Z test 2 75 ].

(** One assessment whose score 0.00...01 has 1001 decimal places. *)
Definition tiny_score_assessments : list assessment :=
  [ mkAssessment 1%nat (Some 7%nat) (Some 3%nat) 1%Z 2025%Z exam 1
      (1 # Z.to_pos (10 ^ 1001)) ].

Definition zero_weight_assessments : list assessment :=
  [ mkAssessment 1%nat (Some 7%nat) (Some 3%nat) 1%Z 2025%Z exam 0 80;
    mkAssessment 2%nat (Some 7%nat) (Some 3%nat) 1%Z 2025%Z test 0 60 ].

Definition sample_invoice (tax_rate : numeric) : invoice :=
  mkInvoice 1%nat "INV-2025-001" 5%nat (mkDate 2025 3 1) (mkDate 2025 3 31)
    0 tax_rate 0 0 draft "ZAR" (Some 9%nat) (midnight 2025 3 1).

Definition sample_credit_note (tax_rate : numeric) : credit_note :=
  mkCreditNote 1%nat "CN-2025-001" None 5%nat (mkDate 2025 3 1) "returned"
    0 tax_rate 0 0 cn_draft "ZAR" (Some 9%nat) (midnight 2025 3 1).

Definition sample_item (amount : numeric) : line_item :=
  mkLineItem 10%nat (Some 1%nat) "tuition" 1 amount amount.

Definition ledger_invoice (id : nat) (number : string) (d : date)
    (total : numeric) (st : invoice_status) : invoice :=
  mkInvoice id number 5%nat d (add_days 30 d) total 0 0 total st "ZAR"
    (Some 9%nat) (date_to_timestamp d).

Definition empty_database : database := mkDatabase [] [] [] 1.

Definition numbered_invoice (number : string) : invoice :=
  ledger_invoice 1 number (mkDate 2025 3 1) 100 sent.

Definition numbered_credit_note (number : string) : credit_note :=
  mkCreditNote 1 number None 5 (mkDate 2025 3 1) "returned" 0 0 0 0 cn_draft
    "ZAR" (Some 9%nat) (midnight 2025 3 1).

Definition template (id : nat) (f : frequency) (start : date)
    (end_date : option date) (st : recurring_status)
    (last : option timestamptz) : recurring_invoice :=
  mkRecurring id (Some 5%nat) (Some 9%nat) f start end_date "Tuition" 1500 15
    "ZAR" st last (date_to_timestamp start).

Definition two_templates : list recurring_invoice :=
  [ template 1 monthly (mkDate 2025 1 31) None active None;
    template 2 weekly (mkDate 2025 1 6) None paused None ].


(** ** Notions for the weighted average *)

(** The same assessment with its weight multiplied by [c]. *)
Definition scale_weight (c : numeric) (a : assessment) : assessment :=
  mkAssessment (as_id a) (as_student_id a) (as_subject_id a) (as_term a)
    (as_year a) (as_type a) (c * as_weight a) (as_score a).

(** Two outcomes agree up to [eps]: the same error, or numbers that
    differ by at most [eps]. *)
Definition close_outcomes (eps : Q) (r1 r2 : result numeric) : Prop :=
  match r1, r2 with
  | Ok v1, Ok v2 => Qabs (v1 - v2) <= eps
  | Raise e1, Raise e2 => e1 = e2
  | _, _ => False
  end.

(** ** Creating an invoice through the API *)

(** The payload of the invoice form: the invoice and its items, with the
    amount of each item as the client computed it. *)
Record invoice_payload : Type := mkInvoicePayload {
  pl_client_id : uuid;
  pl_date : date;
  pl_due_date : date;
  pl_tax : numeric;
  pl_currency_code : string
}.

Record item_payload : Type := mkItemPayload {
  ip_description : string;
  ip_quantity : numeric;
  ip_rate : numeric;
  ip_amount : numeric
}.

(** The identifiers of the rows of one multi-row INSERT. *)
Fixpoint assign_ids (next : uuid) (rows : list (uuid -> line_item))
  : list line_item :=
  match rows with
  | [] => []
  | row :: rest => row next :: assign_ids (S next) rest
  end.

(** [from('invoice_items').insert([...])]: one INSERT of several rows; the
    AFTER ... FOR EACH ROW trigger runs once per row when the statement
    has inserted them all. *)
Definition insert_invoice_items (now : timestamptz)
    (rows : list (uuid -> line_item)) (db : database) : database :=
  let new_rows := assign_ids (db_next_id db) rows in
  let items' := (db_invoice_items db ++ new_rows)%list in
  mkDatabase
    (fold_left (fun invs row => update_invoice_totals now (Some row) invs items')
               new_rows (db_invoices db))
    items' (db_recurring_invoices db)
    (db_next_id db + List.length rows)%nat.

Definition item_row (invoice_id : uuid) (it : item_payload) (id : uuid)
  : line_item :=
  mkLineItem id (Some invoice_id) (ip_description it) (ip_quantity it)
    (ip_rate it) (ip_amount it).

(** [onSubmit] of the invoice form, as the database sees it: ask for a
    number, insert the invoice as a draft of the signed-in user, insert
    its items.  An error ends the sequence. *)
Definition submit_invoice (user : uuid) (now : timestamptz)
    (pl : invoice_payload) (items : list item_payload) (db : database)
  : result database :=
  number <- rpc_generate_invoice_number (Some user) (timestamp_to_date now)
              (db_invoices db) ;;
  inserted <-
    insert_invoice
      (fun id =>
         mkInvoice id number (pl_client_id pl) (pl_date pl) (pl_due_date pl)
           0 (pl_tax pl) 0 0 draft (pl_currency_code pl) (Some user) now)
      db ;;
  let (invoice_id, db1) := inserted in
  Ok (insert_invoice_items now (map (item_row invoice_id) items) db1).

(** [gen_random_uuid()] returns an identifier that no invoice carries and
    no item refers to. *)
Definition ids_below (db : database) : Prop :=
  Forall (fun i => (inv_id i < db_next_id db)%nat) (db_invoices db)
  /\ Forall (fun it => match li_document_id it with
                       | Some k => (k < db_next_id db)%nat
                       | None => True
                       end) (db_invoice_items db).

(** The fields of an invoice that the totals trigger does not write. *)
Definition invoice_header (i : invoice)
  : uuid * string * uuid * date * date * numeric * invoice_status * string
    * option uuid :=
  (inv_id i, inv_number i, inv_client_id i, inv_date i, inv_due_date i,
   inv_tax_rate i, inv_status i, inv_currency_code i, inv_user_id i).


(** ** What a generated invoice carries *)

(** The invoice generated for template [r]: the template's client, owner,
    tax rate and currency, a draft dated the next invoice date and due 30
    days later, with the template's amount as its subtotal and the tax
    on it at [tax_rate / 100] as the division returns it. *)
Definition carries_template (r : recurring_invoice) (i : invoice) : Prop :=
  Some (inv_client_id i) = rc_client_id r
  /\ inv_user_id i = rc_user_id r
  /\ inv_date i = next_invoice_date r
  /\ inv_due_date i = add_days 30 (next_invoice_date r)
  /\ inv_status i = draft
  /\ inv_tax_rate i = rc_tax_rate r
  /\ inv_currency_code i = rc_currency_code r
  /\ inv_subtotal i == rc_amount r
  /\ inv_tax_amount i == rc_amount r * tax_fraction (rc_tax_rate r)
  /\ inv_total i == rc_amount r + rc_amount r * tax_fraction (rc_tax_rate r).


(** ** Report comments ([generate_subject_comment]) *)

(** The four values the CHECK on [comments_library.performance_level]
    admits. *)
Inductive performance_level : Type :=
  excellent | good | average | needs_improvement.

Definition performance_level_eqb (a b : performance_level) : bool :=
  match a, b with
  | excellent, excellent | good, good | average, average
  | needs_improvement, needs_improvement => true
  | _, _ => false
  end.

(** A row of [comments_library]: [subject_id] and [performance_level] are
    nullable. *)
Record library_comment : Type := mkComment {
  lc_id : uuid;
  lc_category : string;
  lc_language : string;
  lc_comment_text : string;
  lc_subject_id : option uuid;
  lc_performance_level : option performance_level
}.

(** [CASE WHEN p_score >= 80 THEN 'excellent' WHEN p_score >= 70 THEN
    'good' WHEN p_score >= 50 THEN 'average' ELSE 'needs_improvement'
    END]: over a NULL score every comparison is NULL and the ELSE branch
    is taken. *)
Definition level_of_score (p_score : option numeric) : performance_level :=
  match p_score with
  | Some s =>
      if Qle_bool 80 s then excellent
      else if Qle_bool 70 s then good
      else if Qle_bool 50 s then average
      else needs_improvement
  | None => needs_improvement
  end.

(** [a = b] on text, either side nullable. *)
Definition sql_text_eq (a b : option string) : bool :=
  match a, b with
  | Some x, Some y => String.eqb x y
  | _, _ => false
  end.

(** [WHERE subject_id = p_subject_id AND language = p_language AND
    performance_level = v_performance_level]. *)
Definition matching_comments (library : list library_comment)
    (p_subject_id : option uuid) (p_language : option string)
    (level : performance_level) : list library_comment :=
  filter (fun r =>
            sql_eq (lc_subject_id r) p_subject_id
            && sql_text_eq (Some (lc_language r)) p_language
            && match lc_performance_level r with
               | Some l => performance_level_eqb l level
               | None => false
               end)
         library.

Definition no_comment_available : string := "No comment available.".

(** [ORDER BY random() LIMIT 1] takes one of the matching rows; [draw] is
    the outcome of the random order.  No row gives NULL, which COALESCE
    turns into the default text. *)
Definition generate_subject_comment (draw : nat)
    (library : list library_comment) (p_subject_id : option uuid)
    (p_score : option numeric) (p_language : option string) : string :=
  let rows :=
    matching_comments library p_subject_id p_language
                      (level_of_score p_score) in
  COALESCE
    (option_map lc_comment_text
       (nth_error rows (draw mod List.length rows)))
    no_comment_available.

(** The order of the levels, from the weakest. *)
Definition level_rank (l : performance_level) : nat :=
  match l with
  | needs_improvement => 0
  | average => 1
  | good => 2
  | excellent => 3
  end.

(** ** Reports ([get_monthly_revenue], [get_top_clients]) *)

(** An invoice with the column [created_at] (nullable, DEFAULT now()),
    which only the report functions read. *)
Record dated_invoice : Type := mkDated {
  di_invoice : invoice;
  di_created_at : option timestamptz
}.

(** [i.created_at >= start_date AND i.created_at <= end_date AND
    i.user_id = auth.uid() AND i.status = 'paid']; a NULL on either side
    of a comparison rejects the row. *)
Definition in_report_scope (auth_uid : option uuid)
    (start_date end_date : option timestamptz) (r : dated_invoice) : bool :=
  match di_created_at r, start_date, end_date with
  | Some t, Some a, Some b => timestamp_leb a t && timestamp_leb t b
  | _, _, _ => false
  end
  && sql_eq (inv_user_id (di_invoice r)) auth_uid
  && invoice_status_eqb (inv_status (di_invoice r)) paid.

(** [date_trunc('month', ts)]: midnight of the first day of the month. *)
Definition date_trunc_month (ts : timestamptz) : timestamptz :=
  mkTimestamp (mkDate (d_year (ts_date ts)) (d_month (ts_date ts)) 1) 0.

(** The rows the WHERE clause keeps, as (first day of the month, total). *)
Definition revenue_rows (auth_uid : option uuid)
    (start_date end_date : option timestamptz)
    (invoices : list dated_invoice) : list (date * numeric) :=
  flat_map
    (fun r =>
       match di_created_at r with
       | Some t =>
           if in_report_scope auth_uid start_date end_date r
           then [(ts_date (date_trunc_month t), inv_total (di_invoice r))]
           else []
       | None => []
       end)
    invoices.

(** The group keys in the order of the ORDER BY: ascending, each once. *)
Fixpoint insert_month (k : date) (l : list date) : list date :=
  match l with
  | [] => [k]
  | x :: l' =>
      if date_ltb k x then k :: l
      else if date_eqb k x then l
      else x :: insert_month k l'
  end.

Definition months (rows : list (date * numeric)) : list date :=
  fold_right insert_month [] (map fst rows).

(** [GROUP BY date_trunc('month', i.created_at) ORDER BY ...] with
    [COALESCE(SUM(i.total), 0)] per group. *)
Definition monthly_groups (auth_uid : option uuid)
    (start_date end_date : option timestamptz)
    (invoices : list dated_invoice) : list (date * numeric) :=
  let rows := revenue_rows auth_uid start_date end_date invoices in
  map (fun k =>
         (k, COALESCE
               (SUM (map snd (filter (fun p => date_eqb (fst p) k) rows)))
               0))
      (months rows).

Definition month_abbreviation (m : Z) : string :=
  match m with
  | 1%Z => "Jan" | 2%Z => "Feb" | 3%Z => "Mar" | 4%Z => "Apr"
  | 5%Z => "May" | 6%Z => "Jun" | 7%Z => "Jul" | 8%Z => "Aug"
  | 9%Z => "Sep" | 10%Z => "Oct" | 11%Z => "Nov" | _ => "Dec"
  end.

(** [to_char(d, 'Mon YYYY')]. *)
Definition to_char_Mon_YYYY (d : date) : string :=
  (month_abbreviation (d_month d) ++ " " ++ to_char_YYYY d)%string.

Definition get_monthly_revenue (auth_uid : option uuid)
    (start_date end_date : option timestamptz)
    (invoices : list dated_invoice) : list (string * numeric) :=
  map (fun g => (to_char_Mon_YYYY (fst g), snd g))
      (monthly_groups auth_uid start_date end_date invoices).

(** [LIMIT n] with a negative [n] raises
    invalid_row_count_in_limit_clause. *)
Inductive report_error : Type := invalid_row_count_in_limit_clause.

(** The group of one client ([c.id] is the primary key).  The WHERE
    clause tests columns of [i], so the all-NULL row that the LEFT JOIN
    adds for a client without invoices is rejected: such a client has no
    group. *)
Definition client_revenue (auth_uid : option uuid)
    (start_date end_date : option timestamptz)
    (invoices : list dated_invoice) (c : client) : list (string * numeric) :=
  let joined :=
    filter (fun r =>
              Nat.eqb (inv_client_id (di_invoice r)) (c_id c)
              && in_report_scope auth_uid start_date end_date r)
           invoices in
  match joined with
  | [] => []
  | _ =>
      [(c_name c,
        COALESCE (SUM (map (fun r => inv_total (di_invoice r)) joined)) 0)]
  end.

(** [ORDER BY total DESC] as a stable insertion sort; SQL leaves the
    order of equal totals open. *)
Fixpoint insert_row (p : string * numeric) (l : list (string * numeric))
  : list (string * numeric) :=
  match l with
  | [] => [p]
  | x :: l' =>
      if Qle_bool (snd x) (snd p) then p :: x :: l' else x :: insert_row p l'
  end.

Definition rank_rows (l : list (string * numeric))
  : list (string * numeric) :=
  fold_right insert_row [] l.

(** [limit_count] is nullable: [LIMIT NULL] keeps every row. *)
Definition get_top_clients (auth_uid : option uuid)
    (start_date end_date : option timestamptz) (limit_count : option Z)
    (clients : list client) (invoices : list dated_invoice)
  : report_error + list (string * numeric) :=
  let ranked :=
    rank_rows
      (flat_map (client_revenue auth_uid start_date end_date invoices)
                clients) in
  match limit_count with
  | None => inr ranked
  | Some n =>
      if (n <? 0)%Z then inl invalid_row_count_in_limit_clause
      else inr (firstn (Z.to_nat n) ranked)
  end.

(** Rows by falling total. *)
Definition by_falling_total : list (string * numeric) -> Prop :=
  StronglySorted (fun a b => snd b <= snd a).

(** ** Email events ([handle_email_event], [20250219094057_emerald_base.sql]) *)

Record email_log : Type := mkEmailLog {
  el_id : uuid;
  el_invoice_id : option uuid;
  el_status : string;
  el_updated_at : timestamptz
}.

(** The columns of [email_events] the trigger reads. *)
Record email_event : Type := mkEmailEvent {
  ee_email_log_id : option uuid;
  ee_event_type : string
}.

(** [s IN (...)]. *)
Definition text_in (s : string) (l : list string) : bool :=
  existsb (String.eqb s) l.

(** [email_logs_status_check] and [email_events_event_type_check]. *)
Definition email_logs_status_check (s : string) : bool :=
  text_in s ["queued"; "sent"; "delivered"; "failed"]%string.

Definition email_events_event_type_check (s : string) : bool :=
  text_in s ["queued"; "sent"; "delivered"; "opened"; "clicked"; "bounced";
             "complained"; "unsubscribed"]%string.

(** [CASE WHEN NEW.event_type IN ('bounced', 'complained') THEN 'failed'
    WHEN NEW.event_type IN ('delivered', 'opened', 'clicked') THEN
    'delivered' ELSE NEW.event_type END]. *)
Definition event_status (event_type : string) : string :=
  if text_in event_type ["bounced"; "complained"]%string then "failed"
  else if text_in event_type ["delivered"; "opened"; "clicked"]%string
       then "delivered"
       else event_type.

Inductive email_error : Type := check_violation.

Definition set_invoice_status (st : invoice_status) (now : timestamptz)
    (i : invoice) : invoice :=
  mkInvoice (inv_id i) (inv_number i) (inv_client_id i) (inv_date i)
    (inv_due_date i) (inv_subtotal i) (inv_tax_rate i) (inv_tax_amount i)
    (inv_total i) st (inv_currency_code i) (inv_user_id i) now.

(** Who runs the statement that fires the trigger.  [email_logs] and
    [invoices] have row-level security enabled and the trigger function
    is not SECURITY DEFINER: a role exempt from row-level security (the
    table owner, the service role) reaches every row, a signed-in user
    only the rows the policies grant. *)
Inductive session : Type :=
  | exempt_from_rls
  | authenticated (auth_uid : option uuid).

(** "Users can update their own invoices": [auth.uid() = user_id]. *)
Definition own_invoice (s : session) (i : invoice) : bool :=
  match s with
  | exempt_from_rls => true
  | authenticated u => sql_eq (inv_user_id i) u
  end.

(** "Users can view their own email logs v2": [EXISTS (SELECT 1 FROM
    invoices WHERE invoices.id = email_logs.invoice_id AND
    invoices.user_id = auth.uid())]. *)
Definition log_visible (s : session) (invoices : list invoice)
    (e : email_log) : bool :=
  match s with
  | exempt_from_rls => true
  | authenticated u =>
      existsb (fun j =>
                 sql_eq (Some (inv_id j)) (el_invoice_id e)
                 && sql_eq (inv_user_id j) u)
              invoices
  end.

(** [email_logs] has a policy for SELECT and one for INSERT and none for
    UPDATE: an UPDATE by a signed-in user reaches no row. *)
Definition log_updatable (s : session) : bool :=
  match s with
  | exempt_from_rls => true
  | authenticated _ => false
  end.

(** [WHERE id = NEW.email_log_id]. *)
Definition is_log (NEW : email_event) (e : email_log) : bool :=
  sql_eq (Some (el_id e)) (ee_email_log_id NEW).

(** [UPDATE email_logs SET status = CASE ... END, updated_at = now()
    WHERE id = NEW.email_log_id]. *)
Definition update_email_logs (s : session) (now : timestamptz)
    (NEW : email_event) (logs : list email_log) : list email_log :=
  map (fun e =>
         if is_log NEW e && log_updatable s
         then mkEmailLog (el_id e) (el_invoice_id e)
                (event_status (ee_event_type NEW)) now
         else e)
      logs.

(** [UPDATE invoices i SET status = 'sent', updated_at = now() FROM
    email_logs e WHERE e.id = NEW.email_log_id AND e.invoice_id = i.id
    AND i.status = 'draft'], run for the events 'sent', 'delivered',
    'opened' and 'clicked'. *)
Definition mark_invoices_sent (s : session) (now : timestamptz)
    (NEW : email_event) (logs : list email_log) (invoices : list invoice)
  : list invoice :=
  if text_in (ee_event_type NEW)
             ["sent"; "delivered"; "opened"; "clicked"]%string
  then
    map (fun i =>
           if existsb (fun e =>
                         is_log NEW e && log_visible s invoices e
                         && sql_eq (el_invoice_id e) (Some (inv_id i)))
                      logs
              && own_invoice s i
              && invoice_status_eqb (inv_status i) draft
           then set_invoice_status sent now i
           else i)
        invoices
  else invoices.

(** The row-level AFTER INSERT trigger on [email_events].  The first
    UPDATE fails when a row it writes breaks the CHECK on
    [email_logs.status]. *)
Definition handle_email_event (s : session) (now : timestamptz)
    (NEW : email_event) (logs : list email_log) (invoices : list invoice)
  : email_error + (list email_log * list invoice) :=
  if existsb (fun e => is_log NEW e && log_updatable s) logs
     && negb (email_logs_status_check (event_status (ee_event_type NEW)))
  then inl check_violation
  else
    let logs' := update_email_logs s now NEW logs in
    inr (logs', mark_invoices_sent s now NEW logs' invoices).

(** * Properties *)

(** ** Division of numerics *)

Lemma scale_of_denominator_sound fuel d s :
  (0 < d)%Z ->
  scale_of_denominator fuel d = Some s -> d = (10 ^ Z.of_nat s)%Z.
Proof.
  revert d s. induction fuel as [|fuel IH]; intros d s Hd H; [discriminate |].
  cbn [scale_of_denominator] in H.
  destruct (Z.eqb_spec d 1) as [-> | _].
  - injection H as <-. reflexivity.
  - destruct (Z.eqb_spec (d mod 10) 0) as [E | _]; [| discriminate].
    destruct (scale_of_denominator fuel (d / 10)) as [s'|] eqn:R;
      [| discriminate].
    injection H as <-.
    pose proof (Z.div_mod d 10 ltac:(lia)) as D. rewrite E in D.
    assert (Hq : (0 < d / 10)%Z) by lia.
    rewrite Nat2Z.inj_succ, Z.pow_succ_r by lia.
    rewrite <- (IH _ _ Hq R). lia.
Qed.

Lemma dscale_sound x s :
  dscale x = Some s -> Zpos (Qden x) = (10 ^ Z.of_nat s)%Z.
Proof.
  unfold dscale. apply scale_of_denominator_sound. reflexivity.
Qed.

Lemma pow10_pos (r : nat) : (0 < 10 ^ Z.of_nat r)%Z.
Proof. apply Z.pow_pos_nonneg; lia. Qed.

Lemma inject_pow10_pos (r : nat) : 0 < inject_Z (10 ^ Z.of_nat r).
Proof.
  change 0 with (inject_Z 0). rewrite <- Zlt_Qlt. apply pow10_pos.
Qed.

Lemma on_grid_mono a b t : (a <= b)%nat -> on_grid a t -> on_grid b t.
Proof.
  intros Hab [k Hk]. exists (k * 10 ^ Z.of_nat (b - a))%Z.
  replace (Z.of_nat b) with (Z.of_nat a + Z.of_nat (b - a))%Z by lia.
  rewrite Z.pow_add_r by lia. rewrite !inject_Z_mult, <- Hk. ring.
Qed.

Lemma on_grid_dscale x d : dscale x = Some d -> on_grid d x.
Proof.
  intros H. apply dscale_sound in H. destruct x as [n p]. cbn [Qden] in H.
  exists n. unfold Qeq. cbn [Qnum Qden Qmult inject_Z].
  rewrite Pos2Z.inj_mul, H. ring.
Qed.

Lemma on_grid_integer r (z : Z) : on_grid r (inject_Z z).
Proof.
  exists (z * 10 ^ Z.of_nat r)%Z. now rewrite inject_Z_mult.
Qed.

Lemma on_grid_hundredth d t : on_grid d t -> on_grid (d + 2) (t / 100).
Proof.
  intros [k Hk]. exists k.
  replace (Z.of_nat (d + 2)) with (Z.of_nat d + 2)%Z by lia.
  rewrite Z.pow_add_r by lia. rewrite inject_Z_mult, <- Hk.
  change (inject_Z (10 ^ 2)) with 100. field.
Qed.

Lemma floor_ge_integer (k : Z) (m : Q) :
  inject_Z k <= m -> (k <= Qfloor m)%Z.
Proof.
  intros H. rewrite <- (Qfloor_Z k). now apply Qfloor_resp_le.
Qed.

Lemma inject_Z_succ (k : Z) : inject_Z (k + 1) == inject_Z k + 1.
Proof. rewrite inject_Z_plus. reflexivity. Qed.

Lemma inject_Z_pred (k : Z) : inject_Z (k - 1) == inject_Z k - 1.
Proof. unfold Qeq. cbn. lia. Qed.

Lemma floor_le_integer (k : Z) (m : Q) :
  m < inject_Z k + 1 -> (Qfloor m <= k)%Z.
Proof.
  intros H. assert (L : (Qfloor m < k + 1)%Z).
  { rewrite Zlt_Qlt, inject_Z_succ.
    apply (Qle_lt_trans _ m); [apply Qfloor_le | exact H]. }
  lia.
Qed.

Lemma ceiling_le_integer (k : Z) (m : Q) :
  m <= inject_Z k -> (Qceiling m <= k)%Z.
Proof.
  intros H. rewrite <- (Qceiling_Z k). now apply Qceiling_resp_le.
Qed.

Lemma ceiling_ge_integer (k : Z) (m : Q) :
  inject_Z k - 1 < m -> (k <= Qceiling m)%Z.
Proof.
  intros H. assert (L : (k - 1 < Qceiling m)%Z).
  { rewrite Zlt_Qlt, inject_Z_pred.
    apply (Qlt_le_trans _ m); [exact H | apply Qle_ceiling]. }
  lia.
Qed.

Lemma round_to_scale_units r x :
  round_to_scale r x * inject_Z (10 ^ Z.of_nat r)
  == inject_Z (rounded_units r x).
Proof.
  unfold round_to_scale. unfold Qeq. cbn [Qnum Qden Qmult inject_Z].
  rewrite Pos2Z.inj_mul, Z2Pos.id by apply pow10_pos. ring.
Qed.

Lemma rounded_units_ge r (k : Z) x :
  inject_Z k <= x * inject_Z (10 ^ Z.of_nat r) ->
  (k <= rounded_units r x)%Z.
Proof.
  intros H. unfold rounded_units. cbv zeta.
  destruct (Qle_bool 0 (x * inject_Z (10 ^ Z.of_nat r))).
  - apply floor_ge_integer. lra.
  - apply ceiling_ge_integer. lra.
Qed.

Lemma rounded_units_le r (k : Z) x :
  x * inject_Z (10 ^ Z.of_nat r) <= inject_Z k ->
  (rounded_units r x <= k)%Z.
Proof.
  intros H. unfold rounded_units. cbv zeta.
  destruct (Qle_bool 0 (x * inject_Z (10 ^ Z.of_nat r))).
  - apply floor_le_integer. lra.
  - apply ceiling_le_integer. lra.
Qed.

(** Rounding never crosses a value that has no more decimal places than
    the result. *)
Lemma round_to_scale_ge r t x :
  on_grid r t -> t <= x -> t <= round_to_scale r x.
Proof.
  intros [k Hk] H.
  apply (Qmult_lt_0_le_reg_r _ _ _ (inject_pow10_pos r)).
  rewrite round_to_scale_units, Hk. rewrite <- Zle_Qle.
  apply rounded_units_ge. rewrite <- Hk.
  apply Qmult_le_compat_r; [exact H |]. apply Qlt_le_weak, inject_pow10_pos.
Qed.

Lemma round_to_scale_le r t x :
  on_grid r t -> x <= t -> round_to_scale r x <= t.
Proof.
  intros [k Hk] H.
  apply (Qmult_lt_0_le_reg_r _ _ _ (inject_pow10_pos r)).
  rewrite round_to_scale_units, Hk. rewrite <- Zle_Qle.
  apply rounded_units_le. rewrite <- Hk.
  apply Qmult_le_compat_r; [exact H |]. apply Qlt_le_weak, inject_pow10_pos.
Qed.

(** A value with no more decimal places than the result is returned as it
    is. *)
Lemma round_to_scale_exact r x : on_grid r x -> round_to_scale r x == x.
Proof.
  intros H. apply Qle_antisym.
  - apply round_to_scale_le; [exact H | apply Qle_refl].
  - apply round_to_scale_ge; [exact H | apply Qle_refl].
Qed.

(** The rounded value is within half a unit of the last place. *)
Lemma round_to_scale_error r x :
  Qabs (round_to_scale r x - x) * inject_Z (10 ^ Z.of_nat r) <= 1 # 2.
Proof.
  pose proof (inject_pow10_pos r) as P.
  rewrite <- (Qabs_pos (inject_Z (10 ^ Z.of_nat r)))
    by now apply Qlt_le_weak.
  rewrite <- Qabs_Qmult. apply Qabs_Qle_condition.
  assert (E : (round_to_scale r x - x) * inject_Z (10 ^ Z.of_nat r)
              == inject_Z (rounded_units r x)
                 - x * inject_Z (10 ^ Z.of_nat r)).
  { rewrite <- round_to_scale_units. ring. }
  rewrite E. unfold rounded_units. cbv zeta.
  set (m := x * inject_Z (10 ^ Z.of_nat r)).
  destruct (Qle_bool 0 m).
  - pose proof (Qfloor_le (m + (1 # 2))) as L.
    pose proof (Qlt_floor (m + (1 # 2))) as U.
    rewrite inject_Z_succ in U.
    split; lra.
  - pose proof (Qle_ceiling (m - (1 # 2))) as L.
    pose proof (Qceiling_lt (m - (1 # 2))) as U.
    rewrite inject_Z_pred in U.
    split; lra.
Qed.

Lemma select_div_scale_bounds x a y b :
  (Nat.min 1000 a <= select_div_scale x a y b)%nat
  /\ (Nat.min 1000 b <= select_div_scale x a y b)%nat
  /\ (select_div_scale x a y b <= 1000)%nat.
Proof.
  unfold select_div_scale. cbv zeta.
  generalize (numeric_weight x - numeric_weight y
              - (if first_digit x <=? first_digit y then 1 else 0))%Z.
  intros q. lia.
Qed.

Lemma select_div_scale_16 x a y b :
  (numeric_weight x <= numeric_weight y)%Z ->
  (16 <= select_div_scale x a y b)%nat.
Proof.
  unfold select_div_scale. cbv zeta. intros H.
  destruct (first_digit x <=? first_digit y)%Z; lia.
Qed.

(** The quotient stays between two bounds that have no more decimal
    places than the result scale. *)
Lemma div_var_bounds x sx y sy lo hi :
  (forall a b, sx = Some a -> sy = Some b ->
     on_grid (select_div_scale x a y b) lo
     /\ on_grid (select_div_scale x a y b) hi) ->
  lo <= x / y -> x / y <= hi ->
  lo <= div_var x sx y sy /\ div_var x sx y sy <= hi.
Proof.
  intros G L U. unfold div_var.
  destruct sx as [a|], sy as [b|]; try (split; assumption).
  destruct (G a b eq_refl eq_refl) as [Glo Ghi]. split.
  - now apply round_to_scale_ge.
  - now apply round_to_scale_le.
Qed.

Lemma weight_of_fraction_negative fuel x : (weight_of_fraction fuel x <= -1)%Z.
Proof.
  revert x. induction fuel as [|fuel IH]; intros x; cbn [weight_of_fraction].
  - lia.
  - destruct (Qle_bool 1 (x * 10000)); [lia |]. specialize (IH (x * 10000)).
    lia.
Qed.

Lemma numeric_weight_small x : Qabs x < 10000 -> (numeric_weight x <= 0)%Z.
Proof.
  intros H. unfold numeric_weight. cbv zeta.
  destruct (Qeq_bool (Qabs x) 0); [lia |].
  destruct (Qle_bool 1 (Qabs x)).
  - cbn [weight_of_integer].
    assert (L : (Qfloor (Qabs x) < 10000)%Z).
    { rewrite Zlt_Qlt. apply (Qle_lt_trans _ (Qabs x));
        [apply Qfloor_le | exact H]. }
    apply Z.ltb_lt in L. rewrite L. lia.
  - pose proof (weight_of_fraction_negative
                  (S (Z.to_nat (Z.log2 (Z.pos (Qden (Qabs x))))))
                  (Qabs x)). lia.
Qed.

(** For a rate stored with at most 14 decimal places and below 10000,
    [tax_rate / 100] is exact. *)
Lemma tax_fraction_exact r : plain_rate r -> tax_fraction r == r / 100.
Proof.
  intros [[d [Hd Hle]] Hr]. unfold tax_fraction, div_var. rewrite Hd.
  apply round_to_scale_exact.
  apply (on_grid_mono (d + 2)).
  - pose proof (select_div_scale_16 r d 100 0) as S16.
    assert (W : numeric_weight 100 = 0%Z) by reflexivity.
    rewrite W in S16. specialize (S16 (numeric_weight_small r Hr)). lia.
  - apply on_grid_hundredth, on_grid_dscale, Hd.
Qed.

(** *** The weight of a value and the scale of a quotient *)

Lemma weight_of_integer_spec fuel n :
  (1 <= n)%Z -> (Z.log2 n < Z.of_nat fuel)%Z ->
  (0 <= weight_of_integer fuel n)%Z
  /\ (10000 ^ weight_of_integer fuel n <= n)%Z
  /\ (n < 10000 ^ (weight_of_integer fuel n + 1))%Z.
Proof.
  revert n. induction fuel as [|fuel IH]; intros n Hn Hf.
  - pose proof (Z.log2_nonneg n). lia.
  - cbn [weight_of_integer]. destruct (Z.ltb_spec n 10000) as [L | L].
    + cbn. lia.
    + pose proof (Z.div_mod n 10000 ltac:(lia)) as D.
      pose proof (Z.mod_pos_bound n 10000 ltac:(lia)) as M.
      set (n' := (n / 10000)%Z) in *.
      assert (Hn' : (1 <= n')%Z) by lia.
      assert (Hl : (Z.log2 n' + 13 <= Z.log2 n)%Z).
      { rewrite Z.add_comm, <- (Z.log2_mul_pow2 n' 13) by lia.
        apply Z.log2_le_mono. change (2 ^ 13)%Z with 8192%Z. lia. }
      destruct (IH n' Hn' ltac:(lia)) as [W0 [W1 W2]].
      set (w := weight_of_integer fuel n') in *.
      split; [lia |].
      replace (w + 1 + 1)%Z with (Z.succ (w + 1)) by lia.
      replace (w + 1)%Z with (Z.succ w) in * by lia.
      rewrite !Z.pow_succ_r in * by lia. lia.
Qed.

Lemma power_step (w : Z) : 10000 ^ (w + 1) == 10000 ^ w * 10000.
Proof. rewrite Qpower_plus by discriminate. reflexivity. Qed.

Lemma power_back (w : Z) : 10000 ^ (w - 1) == 10000 ^ w * (1 # 10000).
Proof.
  unfold Z.sub. rewrite Qpower_plus by discriminate. reflexivity.
Qed.

Lemma power_inject (w : Z) :
  (0 <= w)%Z -> 10000 ^ w == inject_Z (10000 ^ w).
Proof. intros H. symmetry. exact (Zpower_Qpower 10000 w H). Qed.

Lemma power_positive (w : Z) : 0 < 10000 ^ w.
Proof. apply Qpower_0_lt. reflexivity. Qed.

Lemma weight_of_fraction_spec fuel x :
  0 < x -> x < 1 -> 1 <= x * 10000 ^ Z.of_nat fuel ->
  10000 ^ weight_of_fraction fuel x <= x
  /\ x < 10000 ^ (weight_of_fraction fuel x + 1).
Proof.
  revert x. induction fuel as [|fuel IH]; intros x H0 H1 Hf.
  - cbn in Hf. lra.
  - cbn [weight_of_fraction].
    destruct (Qle_bool 1 (x * 10000)) eqn:E.
    + apply Qle_bool_iff in E. split.
      * change (10000 ^ (-1)) with (1 # 10000). lra.
      * change (10000 ^ (-1 + 1)) with 1. exact H1.
    + assert (L : x * 10000 < 1).
      { apply Qnot_le_lt. intros C. apply Qle_bool_iff in C. congruence. }
      rewrite Nat2Z.inj_succ in Hf. unfold Z.succ in Hf.
      rewrite power_step in Hf.
      destruct (IH (x * 10000) ltac:(lra) L ltac:(lra)) as [W1 W2].
      set (w := weight_of_fraction fuel (x * 10000)) in *.
      rewrite power_step in W2.
      replace (w - 1 + 1)%Z with w by lia.
      rewrite power_back.
      pose proof (power_positive w) as P.
      split; lra.
Qed.

Lemma numeric_weight_spec x :
  ~ x == 0 ->
  10000 ^ numeric_weight x <= Qabs x
  /\ Qabs x < 10000 ^ (numeric_weight x + 1).
Proof.
  intros Hx. unfold numeric_weight. cbv zeta.
  pose proof (Qabs_nonneg x) as A0.
  destruct (Qeq_bool (Qabs x) 0) eqn:E0.
  { apply Qeq_bool_iff in E0. exfalso. apply Hx.
    destruct (Qabs_Qle_condition x 0) as [C _].
    destruct (C ltac:(lra)) as [C1 C2]. lra. }
  apply Qeq_bool_neq in E0.
  set (a := Qabs x) in *.
  destruct (Qle_bool 1 a) eqn:E1.
  - apply Qle_bool_iff in E1.
    assert (Hn : (1 <= Qfloor a)%Z) by now apply (floor_ge_integer 1).
    destruct (weight_of_integer_spec
                (S (Z.to_nat (Z.log2 (Qfloor a)))) (Qfloor a) Hn)
      as [W0 [W1 W2]].
    { pose proof (Z.log2_nonneg (Qfloor a)). lia. }
    set (w := weight_of_integer _ _) in *.
    rewrite !power_inject by lia.
    split.
    + apply (Qle_trans _ (inject_Z (Qfloor a))); [| apply Qfloor_le].
      now rewrite <- Zle_Qle.
    + apply (Qlt_le_trans _ (inject_Z (Qfloor a + 1))); [apply Qlt_floor |].
      rewrite <- Zle_Qle. lia.
  - assert (L : a < 1).
    { apply Qnot_le_lt. intros C. apply Qle_bool_iff in C. congruence. }
    apply weight_of_fraction_spec; [lra | exact L |].
    set (F := S (Z.to_nat (Z.log2 (Z.pos (Qden a))))).
    rewrite power_inject by lia.
    assert (Hd : (Z.pos (Qden a) < 10000 ^ Z.of_nat F)%Z).
    { destruct (Z.log2_spec (Z.pos (Qden a)) ltac:(lia)) as [_ U].
      apply (Z.lt_le_trans _ _ _ U).
      pose proof (Z.log2_nonneg (Z.pos (Qden a))).
      replace (Z.of_nat F) with (Z.succ (Z.log2 (Z.pos (Qden a))))
        by (unfold F; lia).
      apply Z.pow_le_mono_l. lia. }
    assert (Hnum : (1 <= Qnum a)%Z).
    { assert (P : 0 < a) by lra. unfold Qlt in P. cbn in P. lia. }
    unfold Qle. cbn [Qnum Qden Qmult inject_Z].
    rewrite Pos2Z.inj_mul. nia.
Qed.

(** The estimated weight of a quotient that is at most 100 is not
    positive, so the quotient gets at least 16 decimal places. *)
Lemma quotient_weight X Y :
  0 < X -> 0 < Y -> X <= 100 * Y ->
  (numeric_weight X - numeric_weight Y
   - (if first_digit X <=? first_digit Y then 1 else 0) <= 0)%Z.
Proof.
  intros HX HY H.
  destruct (numeric_weight_spec X ltac:(lra)) as [X1 X2].
  destruct (numeric_weight_spec Y ltac:(lra)) as [Y1 Y2].
  rewrite (Qabs_pos X) in X1, X2 by lra.
  rewrite (Qabs_pos Y) in Y1, Y2 by lra.
  unfold first_digit.
  set (wX := numeric_weight X) in *. set (wY := numeric_weight Y) in *.
  pose proof (power_positive wY) as PY.
  pose proof (power_positive (wY + 1)) as PY1.
  assert (S1 : (wX <= wY + 1)%Z).
  { destruct (Z_le_gt_dec wX (wY + 1)) as [L | G]; [exact L | exfalso].
    assert (M : 10000 ^ (wY + 1 + 1) <= 10000 ^ wX).
    { apply Qpower_le_compat_l; [lia | discriminate]. }
    rewrite power_step in M. lra. }
  destruct (Z.eq_dec wX (wY + 1)) as [E | N].
  - assert (F : (Qfloor (Qabs X / 10000 ^ wX)
                 <= Qfloor (Qabs Y / 10000 ^ wY))%Z).
    { apply Qfloor_resp_le.
      rewrite (Qabs_pos X), (Qabs_pos Y) by lra.
      rewrite E, power_step.
      apply Qle_shift_div_l; [exact PY |].
      assert (Q : X / (10000 ^ wY * 10000) * 10000 ^ wY
                  == X * (1 # 10000)).
      { field; repeat split; try lra; discriminate. }
      rewrite Q. lra. }
    apply Z.leb_le in F. rewrite F. lia.
  - destruct (Qfloor (Qabs X / 10000 ^ wX) <=? Qfloor (Qabs Y / 10000 ^ wY))%Z;
      lia.
Qed.

Lemma select_div_scale_marks X a Y b :
  0 < X -> 0 < Y -> X <= 100 * Y ->
  (16 <= select_div_scale X a Y b)%nat.
Proof.
  intros HX HY H. pose proof (quotient_weight X Y HX HY H) as Q.
  unfold select_div_scale. cbv zeta. lia.
Qed.

(** A quotient between 0 and 100 is returned to within half a unit of the
    16th decimal place. *)
Lemma div_var_accurate X sx Y sy :
  0 <= X -> 0 < Y -> X <= 100 * Y ->
  Qabs (div_var X sx Y sy - X / Y) <= 1 # 20000000000000000.
Proof.
  intros HX HY H. unfold div_var.
  assert (Z0 : forall q : Q, Qabs (q - q) <= 1 # 20000000000000000).
  { intros q. assert (E : q - q == 0) by ring. rewrite E. discriminate. }
  destruct sx as [a|]; [| apply Z0]. destruct sy as [b|]; [| apply Z0].
  destruct (Qlt_le_dec 0 X) as [P | N].
  - pose proof (select_div_scale_marks X a Y b P HY H) as R.
    set (r := select_div_scale X a Y b) in *.
    pose proof (round_to_scale_error r (X / Y)) as E.
    pose proof (Qabs_nonneg (round_to_scale r (X / Y) - X / Y)) as D.
    set (d := Qabs (round_to_scale r (X / Y) - X / Y)) in *.
    assert (M : inject_Z (10 ^ 16) <= inject_Z (10 ^ Z.of_nat r)).
    { rewrite <- Zle_Qle. apply Z.pow_le_mono_r; lia. }
    change (inject_Z (10 ^ 16)) with 10000000000000000 in M.
    assert (L : d * 10000000000000000 <= 1 # 2).
    { apply (Qle_trans _ (d * inject_Z (10 ^ Z.of_nat r))); [| exact E].
      rewrite !(Qmult_comm d). now apply Qmult_le_compat_r. }
    lra.
  - assert (E : X / Y == 0).
    { assert (X0 : X == 0) by lra. rewrite X0. field; lra. }
    assert (G : on_grid (select_div_scale X a Y b) (X / Y)).
    { exists 0%Z. rewrite E. reflexivity. }
    rewrite (round_to_scale_exact _ _ G). apply Z0.
Qed.


(** ** Weighted average *)

Lemma qsum_nonneg (xs : list numeric) :
  Forall (fun x => 0 <= x) xs -> 0 <= qsum xs.
Proof.
  induction 1 as [|x xs Hx _ IH]; simpl.
  - apply Qle_refl.
  - replace 0 with (0 + 0) by reflexivity. now apply Qplus_le_compat.
Qed.

Lemma qsum_all_zero (xs : list numeric) :
  Forall (fun x => x == 0) xs -> qsum xs == 0.
Proof.
  induction 1 as [|x xs Hx _ IH]; simpl.
  - reflexivity.
  - rewrite Hx, IH. reflexivity.
Qed.

Lemma SUM_nonempty (xs : list numeric) :
  xs <> [] -> SUM xs = Some (qsum xs).
Proof. destruct xs; [congruence | reflexivity]. Qed.

Lemma weights_nonneg (rows : list assessment) :
  Forall assessment_check rows -> Forall (fun x => 0 <= x) (weights rows).
Proof.
  unfold weights. induction 1 as [|a rows Ha _ IH]; simpl; constructor.
  - apply Ha.
  - exact IH.
Qed.

Lemma matching_assessments_check assessments s subj t y :
  Forall assessment_check assessments ->
  Forall assessment_check (matching_assessments assessments s subj t y).
Proof.
  intros H. unfold matching_assessments.
  apply Forall_forall. intros a Ha. apply filter_In in Ha.
  rewrite Forall_forall in H. now apply H.
Qed.

(** The function applied to an already selected, non-empty set of rows. *)
Lemma calculate_subject_average_rows assessments s subj t y :
  let rows := matching_assessments assessments s subj t y in
  rows <> [] ->
  calculate_subject_average assessments s subj t y =
  if Qeq_bool (qsum (weights rows)) 0 then Raise division_by_zero
  else Ok (div_var (qsum (weighted_scores rows)) (weighted_scores_scale rows)
                   (qsum (weights rows)) (weights_scale rows)).
Proof.
  intros rows Hne. unfold calculate_subject_average. fold rows.
  rewrite !SUM_nonempty.
  - simpl. destruct (Qeq_bool (qsum (weights rows)) 0); reflexivity.
  - unfold weights. destruct rows; [congruence | discriminate].
  - unfold weighted_scores. destruct rows; [congruence | discriminate].
Qed.

Lemma qsum_weighted_bounds (rows : list assessment) (lo hi : numeric) :
  Forall (fun a => 0 <= as_weight a) rows ->
  Forall (fun a => lo <= as_score a /\ as_score a <= hi) rows ->
  lo * qsum (weights rows) <= qsum (weighted_scores rows)
  /\ qsum (weighted_scores rows) <= hi * qsum (weights rows).
Proof.
  intros Hw Hs. induction rows as [|a rows IH]; simpl.
  - split; rewrite Qmult_0_r; apply Qle_refl.
  - inversion Hw as [|? ? Hwa Hw']; subst.
    inversion Hs as [|? ? [Hlo Hhi] Hs']; subst.
    destruct (IH Hw' Hs') as [IH1 IH2].
    unfold weights, weighted_scores in *. unfold qsum in *.
    split; nra.
Qed.

(** Under the CHECK constraints the quotient of the two sums is between 0
    and 100 and is returned to within half a unit of the 16th decimal
    place. *)
Lemma average_accurate (rows : list assessment) sx sy :
  Forall (fun a => 0 <= as_weight a) rows ->
  Forall (fun a => 0 <= as_score a /\ as_score a <= 100) rows ->
  ~ qsum (weights rows) == 0 ->
  Qabs (div_var (qsum (weighted_scores rows)) sx (qsum (weights rows)) sy
        - qsum (weighted_scores rows) / qsum (weights rows))
  <= 1 # 20000000000000000.
Proof.
  intros Hw Hs Hn.
  destruct (qsum_weighted_bounds rows 0 100 Hw Hs) as [B1 B2].
  assert (Hnn : 0 <= qsum (weights rows)).
  { apply qsum_nonneg. unfold weights. now rewrite Forall_map. }
  apply div_var_accurate; lra.
Qed.


(** C4, as stated, at a set of assessments whose weights are all 0: the
    function raises, so it returns no number at all. *)
Lemma calculate_subject_average_not_total :
  Forall assessment_check zero_weight_assessments /\
  matching_assessments zero_weight_assessments 7%nat 3%nat 1%Z 2025%Z <> [] /\
  ~ exists v : numeric,
      calculate_subject_average zero_weight_assessments 7%nat 3%nat 1%Z 2025%Z = Ok v.
Proof.
  split; [|split].
  - repeat constructor; simpl; try lia; discriminate.
  - discriminate.
  - intros [v Hv]. vm_compute in Hv. discriminate.
Qed.

(** C4 (amended): whenever the matching assessments are empty or their
    weights do not sum to 0, [calculate_subject_average] returns 0 for
    the empty set and otherwise sum(score * weight) / sum(weight) over the
    matching rows as the numeric division returns it: rounded, halves
    away from zero, to the result scale [r] of the division, hence within
    half a unit of the [r]-th decimal place of the exact quotient and
    equal to it when the quotient has at most [r] decimal places; under
    the CHECK constraints of the table [r] is at least 16, and the value
    is within half a unit of the 16th decimal place of the quotient.  The
    assessments (80, 50) and (60, 50) average to 70; the assessments
    (50, 1) and (75, 2) give 66.6666666666666667, not 200/3. *)
Theorem calculate_subject_average_spec assessments s subj t y :
  let rows := matching_assessments assessments s subj t y in
  rows = [] \/ ~ qsum (weights rows) == 0 ->
  (exists v,
     calculate_subject_average assessments s subj t y = Ok v
     /\ match rows with
        | [] => v = 0
        | _ =>
            let q := qsum (weighted_scores rows) / qsum (weights rows) in
            (Forall assessment_check assessments ->
             Qabs (v - q) <= 1 # 20000000000000000)
            /\
            match weighted_scores_scale rows, weights_scale rows with
            | Some a, Some b =>
                let r := select_div_scale (qsum (weighted_scores rows)) a
                                          (qsum (weights rows)) b in
                v = round_to_scale r q
                /\ Qabs (v - q) * inject_Z (10 ^ Z.of_nat r) <= 1 # 2
                /\ (on_grid r q -> v == q)
            | _, _ => v = q
            end
        end)
  /\ (exists v,
        calculate_subject_average two_assessments 7%nat 3%nat 1%Z 2025%Z
        = Ok v
        /\ v == 70)
  /\ (exists v,
        calculate_subject_average thirds_assessments 7%nat 3%nat 1%Z 2025%Z
        = Ok v
        /\ v == 666666666666666667 # 10000000000000000
        /\ ~ v == 200 # 3).
Proof.
  intros rows H. split; [| split].
  - destruct rows as [|a rows'] eqn:E.
    + exists 0. split; [| reflexivity].
      unfold calculate_subject_average. fold rows. rewrite E. reflexivity.
    + destruct H as [H | H]; [discriminate |].
      pose proof (calculate_subject_average_rows assessments s subj t y) as R.
      cbv zeta in R. fold rows in R. rewrite E in R.
      rewrite R by discriminate.
      destruct (Qeq_bool (qsum (weights (a :: rows'))) 0) eqn:B.
      { apply Qeq_bool_eq in B. contradiction. }
      eexists. split; [reflexivity |].
      cbv zeta. split.
      { intros Hchk.
        pose proof (matching_assessments_check assessments s subj t y Hchk)
          as C.
        fold rows in C. rewrite E in C.
        apply average_accurate; [| | exact H].
        - revert C. apply Forall_impl. intros x Hx. apply Hx.
        - revert C. apply Forall_impl.
          intros x [_ [_ [_ [H0 H100]]]]. now split. }
      unfold div_var.
      destruct (weighted_scores_scale (a :: rows')) as [sa|];
        [| reflexivity].
      destruct (weights_scale (a :: rows')) as [sb|]; [| reflexivity].
      split; [reflexivity |]. split.
      * apply round_to_scale_error.
      * apply round_to_scale_exact.
  - eexists. split; [vm_compute; reflexivity | reflexivity].
  - eexists. split; [vm_compute; reflexivity |].
    split; [reflexivity |]. intros C. vm_compute in C. discriminate C.
Qed.

Lemma calculate_subject_average_spec_witness :
  exists v,
    calculate_subject_average two_assessments 7%nat 3%nat 1%Z 2025%Z = Ok v
    /\ v == 70.
Proof.
  refine (proj1 (proj2 (calculate_subject_average_spec
                          two_assessments 7%nat 3%nat 1%Z 2025%Z _))).
  right. vm_compute. discriminate.
Defined.

(** C10: with every matching weight 0 (allowed by the CHECK on [weight])
    the division raises [division_by_zero]; the function returns a number
    exactly when the matching set is empty or its weights sum to more
    than 0. *)
Theorem calculate_subject_average_total_iff assessments s subj t y :
  Forall assessment_check assessments ->
  let rows := matching_assessments assessments s subj t y in
  (rows <> [] -> Forall (fun a => as_weight a == 0) rows ->
   calculate_subject_average assessments s subj t y = Raise division_by_zero)
  /\ ((exists v, calculate_subject_average assessments s subj t y = Ok v)
      <-> rows = [] \/ 0 < qsum (weights rows)).
Proof.
  intros Hchk rows.
  pose proof (calculate_subject_average_rows assessments s subj t y) as R.
  cbv zeta in R. fold rows in R.
  assert (Hnn : 0 <= qsum (weights rows)).
  { apply qsum_nonneg, weights_nonneg, matching_assessments_check, Hchk. }
  split.
  - intros Hne Hz. rewrite R by exact Hne.
    assert (Z0 : qsum (weights rows) == 0).
    { apply qsum_all_zero. unfold weights. rewrite Forall_map. exact Hz. }
    apply Qeq_eq_bool in Z0. rewrite Z0. reflexivity.
  - split.
    + intros [v Hv]. destruct rows as [|a rows'] eqn:E; [now left | right].
      rewrite R in Hv by discriminate.
      destruct (Qeq_bool (qsum (weights (a :: rows'))) 0) eqn:B;
        [discriminate |].
      apply Qle_lteq in Hnn. destruct Hnn as [Hlt | Heq]; [exact Hlt |].
      symmetry in Heq. apply Qeq_eq_bool in Heq. congruence.
    + intros [Hemp | Hpos].
      * exists 0. unfold calculate_subject_average. fold rows.
        rewrite Hemp. reflexivity.
      * destruct rows as [|a rows'] eqn:E.
        { exists 0. unfold calculate_subject_average. fold rows.
          rewrite E. reflexivity. }
        rewrite R by discriminate.
        destruct (Qeq_bool (qsum (weights (a :: rows'))) 0) eqn:B.
        -- apply Qeq_bool_eq in B. rewrite B in Hpos.
           exfalso. revert Hpos. apply Qlt_irrefl.
        -- eexists. reflexivity.
Qed.

Lemma calculate_subject_average_total_iff_witness :
  calculate_subject_average zero_weight_assessments 7%nat 3%nat 1%Z 2025%Z
  = Raise division_by_zero.
Proof.
  refine (proj1 (calculate_subject_average_total_iff
                   zero_weight_assessments 7%nat 3%nat 1%Z 2025%Z _) _ _).
  - repeat constructor; simpl; try lia; discriminate.
  - discriminate.
  - repeat constructor; reflexivity.
Defined.


(** ** Document totals *)

Lemma sql_eq_null_r (a : option uuid) : sql_eq a None = false.
Proof. destruct a; reflexivity. Qed.

Lemma sql_eq_true (a b : option uuid) :
  sql_eq a b = true <-> exists x, a = Some x /\ b = Some x.
Proof.
  destruct a as [x|], b as [y|]; simpl; split;
    try discriminate; try (intros [z [H1 H2]]; discriminate).
  - intros H. apply Nat.eqb_eq in H. subst. now exists y.
  - intros [z [H1 H2]]. injection H1 as ->. injection H2 as ->.
    apply Nat.eqb_refl.
Qed.

Lemma COALESCE_SUM (xs : list numeric) : COALESCE (SUM xs) 0 = qsum xs.
Proof. destruct xs; reflexivity. Qed.

(** On DELETE the trigger's two UPDATEs select no row. *)
Lemma update_invoice_totals_null now invoices items :
  update_invoice_totals now None invoices items = invoices.
Proof.
  unfold update_invoice_totals. simpl.
  rewrite map_map. rewrite <- (map_id invoices) at 2.
  apply map_ext. intros i. reflexivity.
Qed.

Lemma update_credit_note_totals_null now credit_notes items :
  update_credit_note_totals now None credit_notes items = credit_notes.
Proof.
  unfold update_credit_note_totals. simpl.
  rewrite map_map. rewrite <- (map_id credit_notes) at 2.
  apply map_ext. intros c. reflexivity.
Qed.

(** With a [NEW] row the trigger restores the invariant of the document
    that [NEW] refers to. *)
Lemma update_invoice_totals_ok now row invoices items i :
  In i (update_invoice_totals now (Some row) invoices items) ->
  li_document_id row = Some (inv_id i) ->
  invoice_totals_stored items i.
Proof.
  unfold update_invoice_totals. simpl NEW_document_id.
  rewrite map_map. intros Hin Hk. apply in_map_iff in Hin.
  destruct Hin as [i0 [Hi _]]. rewrite Hk in Hi.
  remember (inv_id i) as k eqn:Ek.
  cbn [sql_eq] in Hi.
  destruct (Nat.eqb (inv_id i0) k) eqn:E.
  - cbn [set_invoice_subtotal inv_id] in Hi. rewrite E in Hi.
    apply Nat.eqb_eq in E. subst i.
    unfold invoice_totals_stored, sum_amounts.
    cbn [inv_subtotal inv_tax_amount inv_total inv_tax_rate inv_id
         set_invoice_tax_total set_invoice_subtotal].
    rewrite E. rewrite COALESCE_SUM. repeat split; reflexivity.
  - rewrite E in Hi. subst i0. rewrite Ek, Nat.eqb_refl in E. discriminate.
Qed.

Lemma update_credit_note_totals_ok now row credit_notes items c :
  In c (update_credit_note_totals now (Some row) credit_notes items) ->
  li_document_id row = Some (cn_id c) ->
  credit_note_totals_stored items c.
Proof.
  unfold update_credit_note_totals. simpl NEW_document_id.
  rewrite map_map. intros Hin Hk. apply in_map_iff in Hin.
  destruct Hin as [c0 [Hc _]]. rewrite Hk in Hc.
  remember (cn_id c) as k eqn:Ek.
  cbn [sql_eq] in Hc.
  destruct (Nat.eqb (cn_id c0) k) eqn:E.
  - cbn [set_credit_note_subtotal cn_id] in Hc. rewrite E in Hc.
    apply Nat.eqb_eq in E. subst c.
    unfold credit_note_totals_stored, sum_amounts.
    cbn [cn_subtotal cn_tax_amount cn_total cn_tax_rate cn_id
         set_credit_note_tax_total set_credit_note_subtotal].
    rewrite E. rewrite COALESCE_SUM. repeat split; reflexivity.
  - rewrite E in Hc. subst c0. rewrite Ek, Nat.eqb_refl in E. discriminate.
Qed.

(** A DELETE on the item table leaves every stored document as it was. *)
Lemma delete_item_keeps_invoices now id invoices items :
  fst (exec_invoice_item_statement now (DeleteItem id) invoices items)
  = invoices.
Proof.
  unfold exec_invoice_item_statement. simpl.
  induction (filter (fun it => Nat.eqb (li_id it) id) items) as [|x l IH];
    simpl; [reflexivity |].
  now rewrite update_invoice_totals_null.
Qed.

Lemma delete_item_keeps_credit_notes now id credit_notes items :
  fst (exec_credit_note_item_statement now (DeleteItem id) credit_notes items)
  = credit_notes.
Proof.
  unfold exec_credit_note_item_statement. simpl.
  induction (filter (fun it => Nat.eqb (li_id it) id) items) as [|x l IH];
    simpl; [reflexivity |].
  now rewrite update_credit_note_totals_null.
Qed.

(** An INSERT restores the invariant of the document of the new row. *)
Lemma insert_item_invoice_ok now row invoices items i :
  In i (fst (exec_invoice_item_statement now (InsertItem row) invoices items)) ->
  li_document_id row = Some (inv_id i) ->
  invoice_totals_stored
    (snd (exec_invoice_item_statement now (InsertItem row) invoices items)) i.
Proof. simpl. apply update_invoice_totals_ok. Qed.

(** An UPDATE that hits a row restores the invariant of the document the
    changed row now refers to. *)
Lemma update_item_invoice_ok now id row invoices items i :
  (exists it, In it items /\ li_id it = id) ->
  In i (fst (exec_invoice_item_statement now (UpdateItem id row) invoices items)) ->
  li_document_id row = Some (inv_id i) ->
  invoice_totals_stored
    (snd (exec_invoice_item_statement now (UpdateItem id row) invoices items)) i.
Proof.
  intros [it [Hit Hid]]. unfold exec_invoice_item_statement.
  cbn [fst snd fired_NEW].
  assert (Hne : filter (fun it => Nat.eqb (li_id it) id) items <> []).
  { intros E. assert (Hin : In it (filter (fun it => Nat.eqb (li_id it) id) items)).
    { apply filter_In. split; [exact Hit | now apply Nat.eqb_eq]. }
    rewrite E in Hin. destruct Hin. }
  destruct (exists_last Hne) as [l [x E]]. rewrite E.
  rewrite map_app, fold_left_app. cbn [map fold_left].
  apply update_invoice_totals_ok.
Qed.

(** C1 at a deletion: an invoice at 15% tax gets one item of 100 and the
    totals become 100, 15, 115; the item is then deleted; no item is
    left, the stored totals are still 100, 15, 115, and the invariant
    fails.  Credit notes behave alike. *)
Theorem delete_item_leaves_totals_stale :
  let now := midnight 2025 3 2 in
  let s1 := exec_invoice_item_statement now (InsertItem (sample_item 100))
              [sample_invoice 15] [] in
  let s2 := exec_invoice_item_statement now (DeleteItem 10%nat)
              (fst s1) (snd s1) in
  let c1 := exec_credit_note_item_statement now (InsertItem (sample_item 100))
              [sample_credit_note 15] [] in
  let c2 := exec_credit_note_item_statement now (DeleteItem 10%nat)
              (fst c1) (snd c1) in
  Forall (invoice_totals_ok (snd s1)) (fst s1)
  /\ snd s2 = []
  /\ (exists i, fst s2 = [i]
        /\ inv_subtotal i == 100 /\ inv_tax_amount i == 15
        /\ inv_total i == 115
        /\ ~ invoice_totals_ok (snd s2) i)
  /\ (exists c, fst c2 = [c]
        /\ cn_subtotal c == 100 /\ cn_total c == 115
        /\ ~ credit_note_totals_ok (snd c2) c).
Proof.
  cbv zeta. split; [|split; [|split]].
  - constructor; [|constructor]. repeat split; vm_compute; reflexivity.
  - reflexivity.
  - eexists. split; [reflexivity |].
    repeat split; try (vm_compute; reflexivity).
    intros [H _]. vm_compute in H. discriminate.
  - eexists. split; [reflexivity |].
    repeat split; try (vm_compute; reflexivity).
    intros [H _]. vm_compute in H. discriminate.
Qed.

(** C3, as stated, at one item of 10.01 on an invoice taxed at 15%: the
    stored tax is 1.5015, not 1.50. *)
Lemma tax_amount_not_rounded :
  exists i,
    fst (exec_invoice_item_statement (midnight 2025 3 2)
           (InsertItem (sample_item (1001 # 100))) [sample_invoice 15] [])
    = [i]
    /\ inv_tax_amount i == 15015 # 10000
    /\ spec_round2 (inv_subtotal i * (inv_tax_rate i / 100)) == 150 # 100
    /\ ~ inv_tax_amount i
         == spec_round2 (inv_subtotal i * (inv_tax_rate i / 100)).
Proof.
  eexists. split; [reflexivity |].
  split; [vm_compute; reflexivity |].
  split; [vm_compute; reflexivity |].
  intros H. vm_compute in H. discriminate.
Qed.

(** C3 (amended): after the trigger ran for a new or changed line item,
    the document the item belongs to has subtotal = sum of amount,
    tax_amount = subtotal * f and total = subtotal + tax_amount, where f
    is tax_rate / 100 as the numeric division returns it; the sums and
    products are exact and nothing is rounded to 2 decimal places.  For a
    rate stored with at most 14 decimal places and below 10000 the
    quotient is exact, so tax_amount = subtotal * tax_rate / 100; a rate
    with more decimal places loses the digits beyond the scale of the
    quotient: 0.1234567890123456789012345 on a subtotal of 100 stores
    0.12345678901234567890123.  For invoices and for credit notes. *)
Theorem totals_not_rounded_to_cents now row items :
  (forall invoices i,
      In i (update_invoice_totals now (Some row) invoices items) ->
      li_document_id row = Some (inv_id i) ->
      inv_subtotal i
        == qsum (map li_amount (items_of items (Some (inv_id i))))
      /\ inv_tax_amount i == inv_subtotal i * tax_fraction (inv_tax_rate i)
      /\ inv_total i == inv_subtotal i + inv_tax_amount i
      /\ (plain_rate (inv_tax_rate i) ->
          inv_tax_amount i == inv_subtotal i * (inv_tax_rate i / 100)))
  /\ (forall credit_notes c,
      In c (update_credit_note_totals now (Some row) credit_notes items) ->
      li_document_id row = Some (cn_id c) ->
      cn_subtotal c
        == qsum (map li_amount (items_of items (Some (cn_id c))))
      /\ cn_tax_amount c == cn_subtotal c * tax_fraction (cn_tax_rate c)
      /\ cn_total c == cn_subtotal c + cn_tax_amount c
      /\ (plain_rate (cn_tax_rate c) ->
          cn_tax_amount c == cn_subtotal c * (cn_tax_rate c / 100)))
  /\ (exists i,
        fst (exec_invoice_item_statement (midnight 2025 3 2)
               (InsertItem (sample_item 100))
               [sample_invoice
                  (1234567890123456789012345 # 10000000000000000000000000)]
               [])
        = [i]
        /\ inv_tax_amount i
           == 12345678901234567890123 # 100000000000000000000000
        /\ ~ inv_tax_amount i == inv_subtotal i * (inv_tax_rate i / 100)).
Proof.
  split; [| split].
  - intros invoices i Hin Hk.
    destruct (update_invoice_totals_ok now row invoices items i Hin Hk)
      as [Hs [Ht Htot]].
    repeat split; try assumption.
    intros Hp. rewrite Ht, (tax_fraction_exact _ Hp). reflexivity.
  - intros credit_notes c Hin Hk.
    destruct (update_credit_note_totals_ok now row credit_notes items c
                Hin Hk) as [Hs [Ht Htot]].
    repeat split; try assumption.
    intros Hp. rewrite Ht, (tax_fraction_exact _ Hp). reflexivity.
  - eexists. split; [reflexivity |].
    split; [vm_compute; reflexivity |].
    intros C. vm_compute in C. discriminate C.
Qed.


(** ** Order on dates and on statement rows *)

Lemma date_eqb_eq (a b : date) : date_eqb a b = true <-> a = b.
Proof.
  destruct a as [ya ma da], b as [yb mb db]. split.
  - intros H. cbn in H. date_cases. cbn in *. congruence.
  - intros E. injection E as -> -> ->. unfold date_eqb, date_compare.
    cbn [d_year d_month d_day]. now rewrite !Z.compare_refl.
Qed.

Lemma date_leb_refl (a : date) : date_leb a a = true.
Proof. unfold date_leb, date_compare. now rewrite !Z.compare_refl. Qed.

Lemma date_leb_trans (a b c : date) :
  date_leb a b = true -> date_leb b c = true -> date_leb a c = true.
Proof. intros H1 H2. date_cases. Qed.

Lemma date_leb_total (a b : date) :
  date_leb a b = true \/ date_leb b a = true.
Proof. date_cases; auto. Qed.

Lemma date_leb_antisym (a b : date) :
  date_leb a b = true -> date_leb b a = true -> a = b.
Proof.
  intros H1 H2. apply date_eqb_eq.
  destruct a as [ya ma da], b as [yb mb db]. cbn in *. date_cases.
Qed.

Lemma date_ltb_leb (a b : date) : date_ltb a b = negb (date_leb b a).
Proof. date_cases. Qed.

Lemma order_leb_refl (a : transaction) : order_leb a a = true.
Proof.
  unfold order_leb.
  assert (E : date_eqb (tx_date a) (tx_date a) = true) by now apply date_eqb_eq.
  rewrite E, Z.leb_refl. apply orb_true_r.
Qed.

Lemma order_leb_total (a b : transaction) :
  order_leb a b = true \/ order_leb b a = true.
Proof. order_cases; auto. Qed.

Lemma order_leb_trans (a b c : transaction) :
  order_leb a b = true -> order_leb b c = true -> order_leb a c = true.
Proof. intros H1 H2. order_cases. Qed.

Lemma order_ltb_leb (a b : transaction) :
  order_ltb a b = true -> order_leb a b = true.
Proof.
  unfold order_ltb. intros H. apply negb_true_iff in H.
  destruct (order_leb_total a b) as [T | T]; [exact T | congruence].
Qed.

(** ** Calendar steps stay among the dates *)

Lemma days_in_month_bounds y m : (28 <= days_in_month y m <= 31)%Z.
Proof.
  unfold days_in_month.
  destruct (m =? 2)%Z; [destruct (is_leap_year y); lia |].
  destruct ((m =? 4)%Z || (m =? 6)%Z || (m =? 9)%Z || (m =? 11)%Z); lia.
Qed.

Lemma next_day_valid d : valid_date d -> valid_date (next_day d).
Proof.
  unfold valid_date, next_day. intros [Hm Hd].
  destruct (Z.ltb_spec (d_day d) (days_in_month (d_year d) (d_month d))).
  - cbn [d_year d_month d_day]. lia.
  - destruct (Z.ltb_spec (d_month d) 12); cbn [d_year d_month d_day].
    + pose proof (days_in_month_bounds (d_year d) (d_month d + 1)). lia.
    + pose proof (days_in_month_bounds (d_year d + 1) 1). lia.
Qed.

Lemma add_days_valid n d : valid_date d -> valid_date (add_days n d).
Proof.
  intros H. unfold add_days. induction n as [|n IH]; [exact H |].
  cbn [Nat.iter]. now apply next_day_valid.
Qed.

Lemma add_months_valid k d : valid_date d -> valid_date (add_months k d).
Proof.
  unfold valid_date, add_months. intros [Hm Hd]. cbn [d_year d_month d_day].
  set (t := (d_year d * 12 + (d_month d - 1) + k)%Z).
  pose proof (Z.mod_pos_bound t 12 ltac:(lia)).
  pose proof (days_in_month_bounds (t / 12) (t mod 12 + 1)).
  lia.
Qed.

Lemma next_invoice_date_valid r :
  valid_date (rc_start_date r) ->
  (forall ts, rc_last_generated r = Some ts -> valid_date (ts_date ts)) ->
  valid_date (next_invoice_date r).
Proof.
  intros Hs Hl.
  unfold next_invoice_date, date_pl_interval, timestamp_pl_interval,
    timestamp_to_date, date_to_timestamp. cbn [ts_date].
  apply add_days_valid.
  assert (Hb : valid_date
                 (COALESCE (option_map ts_date (rc_last_generated r))
                           (rc_start_date r))).
  { destruct (rc_last_generated r) as [ts|]; cbn; [now apply Hl | exact Hs]. }
  destruct (iv_months (period (rc_frequency r)) =? 0)%Z;
    [exact Hb | now apply add_months_valid].
Qed.


(** ** The ORDER BY *)

Lemma insert_transaction_perm t l :
  Permutation (insert_transaction t l) (t :: l).
Proof.
  induction l as [|x l IH]; simpl; [reflexivity |].
  destruct (order_ltb x t).
  - rewrite IH. apply perm_swap.
  - reflexivity.
Qed.

Lemma sort_transactions_perm l : Permutation (sort_transactions l) l.
Proof.
  induction l as [|x l IH]; simpl; [reflexivity |].
  rewrite insert_transaction_perm. now constructor.
Qed.

Lemma insert_transaction_ordered t l :
  ordered l -> ordered (insert_transaction t l).
Proof.
  unfold ordered. induction 1 as [|x l Hs IH Hx]; simpl.
  - constructor; constructor.
  - destruct (order_ltb x t) eqn:E.
    + constructor; [exact IH |].
      apply (Permutation_Forall (x := t :: l)).
      * symmetry. apply insert_transaction_perm.
      * constructor; [now apply order_ltb_leb | exact Hx].
    + assert (Htx : order_leb t x = true).
      { unfold order_ltb in E. now apply negb_false_iff in E. }
      constructor; [now constructor |].
      constructor; [exact Htx |].
      revert Hx. apply Forall_impl. intros y Hy.
      now apply (order_leb_trans t x y).
Qed.

Lemma sort_transactions_ordered l : ordered (sort_transactions l).
Proof.
  induction l as [|x l IH]; simpl.
  - constructor.
  - now apply insert_transaction_ordered.
Qed.

Lemma last_cons {A : Type} (l : list A) (x y : A) :
  last (y :: l) x = last l y.
Proof.
  revert x y. induction l as [|w l IH]; intros x y; [reflexivity |].
  change (last (w :: l) x = last (w :: l) y). now rewrite !IH.
Qed.

Lemma last_In {A : Type} (l : list A) (x : A) : In (last l x) (x :: l).
Proof.
  revert x. induction l as [|y l IH]; intros x; [now left |].
  rewrite last_cons. right. apply IH.
Qed.

Lemma ordered_last_max l z :
  ordered l -> last_entry l = Some z ->
  Forall (fun x => order_leb x z = true) l.
Proof.
  unfold ordered. induction 1 as [|x l Hs IH Hx]; intros Hl.
  - constructor.
  - simpl in Hl. injection Hl as Hl. destruct l as [|y l'].
    + simpl in Hl. subst z. constructor; [apply order_leb_refl | constructor].
    + rewrite last_cons in Hl.
      assert (Hz : last_entry (y :: l') = Some z) by (simpl; now f_equal).
      constructor; [| exact (IH Hz)].
      rewrite Forall_forall in Hx. apply Hx.
      rewrite <- Hl. apply last_In.
Qed.

Lemma filter_all {A : Type} (f : A -> bool) (l : list A) :
  Forall (fun x => f x = true) l -> filter f l = l.
Proof.
  induction 1 as [|x l Hx _ IH]; simpl; [reflexivity |].
  now rewrite Hx, IH.
Qed.

Lemma qsum_app (xs ys : list numeric) : qsum (xs ++ ys) == qsum xs + qsum ys.
Proof.
  induction xs as [|x xs IH]; simpl.
  - now rewrite Qplus_0_l.
  - rewrite IH. apply Qplus_assoc.
Qed.

Lemma qsum_perm {A : Type} (f : A -> numeric) (l l' : list A) :
  Permutation l l' -> qsum (map f l) == qsum (map f l').
Proof.
  induction 1 as [| x l l' _ IH | x y l | l l' l'' _ IH1 _ IH2]; simpl.
  - reflexivity.
  - now rewrite IH.
  - rewrite !Qplus_assoc. now rewrite (Qplus_comm (f y) (f x)).
  - now rewrite IH1.
Qed.

(** The balance on the last row is the sum over the whole statement. *)
Lemma window_sum_last l z :
  last_entry (sort_transactions l) = Some z ->
  window_sum (sort_transactions l) z == qsum (map delta l).
Proof.
  intros Hz. unfold window_sum.
  rewrite filter_all.
  - apply qsum_perm, sort_transactions_perm.
  - apply ordered_last_max; [apply sort_transactions_ordered | exact Hz].
Qed.

Lemma last_entry_map {A B : Type} (f : A -> B) (l : list A) :
  last_entry (map f l) = option_map f (last_entry l).
Proof.
  destruct l as [|x l]; simpl; [reflexivity |]. f_equal.
  revert x. induction l as [|y l IH]; intros x; [reflexivity |].
  change (last (f y :: map f l) (f x) = f (last (y :: l) x)).
  rewrite !last_cons. apply IH.
Qed.

(** The rows come out in (date, invoice-before-payment) order and are the
    rows of the two branches. *)
Lemma get_client_statement_ordered auth invoices c d1 d2 :
  ordered (map se_tx (get_client_statement auth invoices c d1 d2))
  /\ Permutation (map se_tx (get_client_statement auth invoices c d1 d2))
                 (transactions auth invoices c d1 d2).
Proof.
  unfold get_client_statement. rewrite map_map. cbn [se_tx].
  rewrite map_id. split.
  - apply sort_transactions_ordered.
  - apply sort_transactions_perm.
Qed.

(** Where no two rows share a date and a type, the balance on each row is
    the cumulative sum up to that row. *)
Lemma window_sum_cumulative pre suf :
  Forall (fun p => Forall (fun s => order_ltb p s = true) suf) pre ->
  StronglySorted (fun a b => order_ltb a b = true) suf ->
  Forall2 Qeq (map (window_sum (pre ++ suf)) suf)
              (spec_running_balances (qsum (map delta pre)) suf).
Proof.
  intros Hpre Hsuf. revert pre Hpre.
  induction Hsuf as [|x suf Hs IH Hx]; intros pre Hpre; simpl.
  - constructor.
  - assert (Hfil : filter (fun r => order_leb r x) (pre ++ x :: suf)
                   = pre ++ [x]).
    { rewrite filter_app. simpl. rewrite order_leb_refl. f_equal.
      - apply filter_all. revert Hpre. apply Forall_impl.
        intros p Hp. apply order_ltb_leb. now inversion Hp.
      - f_equal. clear - Hx. induction Hx as [|y l Hy _ IH]; simpl.
        + reflexivity.
        + unfold order_ltb in Hy. apply negb_true_iff in Hy.
          now rewrite Hy. }
    assert (Hsum : window_sum (pre ++ x :: suf) x
                   == qsum (map delta pre) + delta x).
    { unfold window_sum. rewrite Hfil, map_app, qsum_app. simpl.
      now rewrite Qplus_0_r. }
    constructor; [exact Hsum |].
    specialize (IH (pre ++ [x])).
    rewrite <- app_assoc in IH. simpl in IH.
    assert (E : qsum (map delta (pre ++ [x])) == qsum (map delta pre) + delta x).
    { rewrite map_app, qsum_app. simpl. now rewrite Qplus_0_r. }
    assert (G : forall a b l, a == b ->
                Forall2 Qeq (spec_running_balances a l)
                            (spec_running_balances b l)).
    { clear. intros a b l. revert a b.
      induction l as [|t l IHl]; intros a b Hab; simpl; constructor.
      - now rewrite Hab.
      - apply IHl. now rewrite Hab. }
    assert (T : forall l1 l2 l3 : list Q,
                Forall2 Qeq l1 l2 -> Forall2 Qeq l2 l3 -> Forall2 Qeq l1 l3).
    { clear. intros l1 l2 l3 H. revert l3.
      induction H as [|a b l1 l2 Hab _ IHf]; intros l3 H3;
        inversion H3; subst; constructor.
      - now rewrite Hab.
      - now apply IHf. }
    apply (T _ (spec_running_balances (qsum (map delta (pre ++ [x]))) suf)).
    + apply IH. apply Forall_app. split.
      * revert Hpre. apply Forall_impl. intros p Hp. now inversion Hp.
      * constructor; [exact Hx | constructor].
    + now apply G.
Qed.

Theorem running_balance_cumulative_when_keys_distinct auth invoices c d1 d2 :
  let entries := get_client_statement auth invoices c d1 d2 in
  StronglySorted (fun a b => order_ltb a b = true) (map se_tx entries) ->
  Forall2 Qeq (map se_running_balance entries)
              (spec_running_balances 0 (map se_tx entries)).
Proof.
  intros entries. unfold entries, get_client_statement.
  rewrite !map_map. cbn [se_tx se_running_balance]. rewrite map_id.
  intros Hs.
  exact (window_sum_cumulative [] _ (Forall_nil _) Hs).
Qed.

(** The specification's example: an invoice of 100 paid on its date and a
    later invoice of 50 give the balances 100, 0, 50. *)
Lemma statement_example_balances :
  let entries :=
    get_client_statement (Some 9%nat)
      [ ledger_invoice 1 "INV-2025-001" (mkDate 2025 3 1) 100 paid;
        ledger_invoice 2 "INV-2025-002" (mkDate 2025 3 9) 50 sent ]
      5%nat (mkDate 2025 1 1) (mkDate 2025 12 31) in
  map (fun e => tx_type (se_tx e)) entries
    = [entry_invoice; entry_payment; entry_invoice]
  /\ Forall2 Qeq (map se_running_balance entries) [100; 0; 50].
Proof.
  cbv zeta. split; [reflexivity |].
  repeat constructor; vm_compute; reflexivity.
Qed.

(** C2 at two invoices issued on the same day, 100 and 50, none paid: the
    cumulative balances entry by entry are 100 and 150; the function
    reports 150 on both rows. *)
Theorem same_day_invoices_share_balance :
  let entries :=
    get_client_statement (Some 9%nat)
      [ ledger_invoice 1 "INV-2025-001" (mkDate 2025 3 1) 100 sent;
        ledger_invoice 2 "INV-2025-002" (mkDate 2025 3 1) 50 sent ]
      5%nat (mkDate 2025 1 1) (mkDate 2025 12 31) in
  Forall2 Qeq (map (fun e => tx_debit (se_tx e)) entries) [100; 50]
  /\ Forall2 Qeq (map se_running_balance entries) [150; 150]
  /\ Forall2 Qeq (spec_running_balances 0 (map se_tx entries)) [100; 150].
Proof.
  cbv zeta. repeat split; repeat constructor; vm_compute; reflexivity.
Qed.


(** ** The summary against the ledger *)

Lemma qsum_map_app {A : Type} (f : A -> numeric) (l l' : list A) :
  qsum (map f (l ++ l')) == qsum (map f l) + qsum (map f l').
Proof. rewrite map_app. apply qsum_app. Qed.

Lemma delta_invoice_transaction i :
  delta (invoice_transaction i) == inv_total i.
Proof. unfold delta. simpl. ring. Qed.

Lemma delta_payment_transaction i :
  delta (payment_transaction i) == - inv_total i.
Proof. unfold delta. simpl. ring. Qed.

(** Debits less credits: what is left is the invoices not marked paid. *)
Lemma transactions_balance (f : invoice -> bool) (l : list invoice) :
  qsum (map delta
          (map invoice_transaction (filter f l)
           ++ map payment_transaction
                (filter (fun i => f i && invoice_status_eqb (inv_status i) paid)
                        l)))
  == qsum (map outstanding_part (filter f l))
     + qsum (map draft_part (filter f l)).
Proof.
  rewrite qsum_map_app.
  induction l as [|i l IH].
  - reflexivity.
  - cbn [filter]. destruct (f i); cbn [andb]; [| exact IH].
    destruct (inv_status i) eqn:St;
      cbn [invoice_status_eqb map qsum fold_right];
      unfold outstanding_part at 1, draft_part at 1; rewrite St;
      rewrite ?delta_invoice_transaction, ?delta_payment_transaction;
      unfold qsum in *; cbn [fold_right]; lra.
Qed.

Lemma filter_ext_in_bool {A : Type} (f g : A -> bool) (l : list A) :
  (forall x, In x l -> f x = g x) -> filter f l = filter g l.
Proof.
  induction l as [|x l IH]; intros H; simpl; [reflexivity |].
  rewrite (H x) by now left.
  rewrite IH; [reflexivity |]. intros y Hy. apply H. now right.
Qed.

(** C9, as stated, at a client whose only invoice is a draft of 100: the
    statement closes at 100, the summary reports 0 outstanding. *)
Lemma draft_invoice_breaks_agreement :
  let invoices := [ ledger_invoice 1 "INV-2025-001" (mkDate 2025 3 1) 100 draft ] in
  let clients := [ mkClient 5%nat "Acme" (Some 9%nat) ] in
  exists e s,
    last_entry (get_client_statement (Some 9%nat) invoices 5%nat
                  (mkDate 2025 1 1) (mkDate 2025 12 31)) = Some e
    /\ client_statement_summary (Some 9%nat) clients invoices = [s]
    /\ se_running_balance e == 100
    /\ ss_total_outstanding s == 0
    /\ ~ se_running_balance e == ss_total_outstanding s.
Proof.
  cbv zeta. eexists. eexists.
  split; [reflexivity |]. split; [reflexivity |].
  split; [vm_compute; reflexivity |]. split; [vm_compute; reflexivity |].
  intros H. vm_compute in H. discriminate.
Qed.

(** C9 (amended): for a client all of whose invoices belong to the caller
    and fall in the date range, the final running balance of the statement
    equals the summary's total_outstanding plus the totals of the client's
    draft invoices; the two agree when the client has no draft invoice. *)
Theorem closing_balance_is_outstanding_plus_drafts
    uid clients invoices cid d1 d2 s e :
  (forall i, In i invoices -> inv_client_id i = cid ->
     inv_user_id i = Some uid
     /\ date_leb d1 (inv_date i) = true /\ date_leb (inv_date i) d2 = true) ->
  In s (client_statement_summary (Some uid) clients invoices) ->
  ss_client_id s = cid ->
  last_entry (get_client_statement (Some uid) invoices cid d1 d2) = Some e ->
  se_running_balance e
    == ss_total_outstanding s
       + qsum (map draft_part
                 (filter (fun i => Nat.eqb (inv_client_id i) cid) invoices))
  /\ ((forall i, In i invoices -> inv_client_id i = cid ->
         inv_status i <> draft) ->
      se_running_balance e == ss_total_outstanding s).
Proof.
  intros Hcov Hs Hcid He.
  assert (Hscope :
    filter (in_statement_scope (Some uid) cid d1 d2) invoices
    = filter (fun i => Nat.eqb (inv_client_id i) cid) invoices).
  { apply filter_ext_in_bool. intros i Hi. unfold in_statement_scope.
    destruct (Nat.eqb (inv_client_id i) cid) eqn:E; [| reflexivity].
    apply Nat.eqb_eq in E. destruct (Hcov i Hi E) as [Hu [H1 H2]].
    rewrite H1, H2, Hu. simpl. now rewrite Nat.eqb_refl. }
  unfold client_statement_summary in Hs. apply in_map_iff in Hs.
  destruct Hs as [c [Hc _]]. subst s. cbn [ss_client_id] in Hcid.
  cbn [ss_total_outstanding]. rewrite Hcid.
  unfold get_client_statement in He. rewrite last_entry_map in He.
  destruct (last_entry
              (sort_transactions (transactions (Some uid) invoices cid d1 d2)))
    as [z|] eqn:Hz; [| discriminate].
  simpl in He. injection He as He. subst e. cbn [se_running_balance].
  assert (Main :
    window_sum (sort_transactions (transactions (Some uid) invoices cid d1 d2)) z
    == qsum (map outstanding_part
               (filter (fun i => Nat.eqb (inv_client_id i) cid) invoices))
       + qsum (map draft_part
                 (filter (fun i => Nat.eqb (inv_client_id i) cid) invoices))).
  { rewrite (window_sum_last _ z Hz). unfold transactions.
    rewrite transactions_balance. now rewrite Hscope. }
  split; [exact Main |].
  intros Hnd. rewrite Main.
  assert (Z0 : qsum (map draft_part
                 (filter (fun i => Nat.eqb (inv_client_id i) cid) invoices))
               == 0).
  { apply qsum_all_zero. rewrite Forall_map. apply Forall_forall.
    intros i Hi. apply filter_In in Hi. destruct Hi as [Hi E].
    apply Nat.eqb_eq in E. specialize (Hnd i Hi E).
    unfold draft_part. destruct (inv_status i); try reflexivity. congruence. }
  rewrite Z0. ring.
Qed.

Lemma closing_balance_is_outstanding_plus_drafts_witness :
  exists e s,
    last_entry (get_client_statement (Some 9%nat)
                  [ ledger_invoice 1 "INV-2025-001" (mkDate 2025 3 1) 100 draft;
                    ledger_invoice 2 "INV-2025-002" (mkDate 2025 3 9) 50 sent ]
                  5%nat (mkDate 2025 1 1) (mkDate 2025 12 31)) = Some e
    /\ client_statement_summary (Some 9%nat)
         [ mkClient 5%nat "Acme" (Some 9%nat) ]
         [ ledger_invoice 1 "INV-2025-001" (mkDate 2025 3 1) 100 draft;
           ledger_invoice 2 "INV-2025-002" (mkDate 2025 3 9) 50 sent ] = [s]
    /\ se_running_balance e
       == ss_total_outstanding s
          + qsum (map draft_part
                    (filter (fun i => Nat.eqb (inv_client_id i) 5%nat)
                       [ ledger_invoice 1 "INV-2025-001" (mkDate 2025 3 1) 100 draft;
                         ledger_invoice 2 "INV-2025-002" (mkDate 2025 3 9) 50 sent ])).
Proof.
  eexists. eexists. split; [reflexivity |]. split; [reflexivity |].
  refine (proj1 (closing_balance_is_outstanding_plus_drafts 9%nat
                   [ mkClient 5%nat "Acme" (Some 9%nat) ] _ 5%nat
                   (mkDate 2025 1 1) (mkDate 2025 12 31) _ _ _ _ _ _)).
  - intros i [<- | [<- | []]] _; repeat split; reflexivity.
  - left. reflexivity.
  - reflexivity.
  - reflexivity.
Defined.


(** ** Number sequences *)

Section Sequences.
Local Open Scope string_scope.
Local Open Scope Z_scope.

Lemma string_app_assoc (a b c : string) : (a ++ b) ++ c = a ++ (b ++ c).
Proof. induction a as [|x a IH]; simpl; [reflexivity | now rewrite IH]. Qed.

Lemma prefix_app (p r : string) : prefix p (p ++ r) = true.
Proof.
  induction p as [|a p IH]; simpl; [now destruct r |].
  destruct (ascii_dec a a); [exact IH | congruence].
Qed.

Lemma strip_prefix_app (p r : string) : strip_prefix p (p ++ r) = Some r.
Proof.
  induction p as [|a p IH]; simpl; [reflexivity |].
  now rewrite Ascii.eqb_refl.
Qed.

Lemma year_four_digits (d : date) :
  1000 <= d_year d <= 9999 -> four_digits (to_char_YYYY d) = true.
Proof.
  intros H.
  assert (A : forallb (fun k => four_digits
                         (to_char_YYYY (mkDate (1000 + Z.of_nat k) 1 1)))
                      (seq 0 (Z.to_nat 9000)) = true) by (vm_compute; reflexivity).
  rewrite forallb_forall in A.
  specialize (A (Z.to_nat (d_year d - 1000))).
  replace (1000 + Z.of_nat (Z.to_nat (d_year d - 1000))) with (d_year d)
    in A by lia.
  apply A. apply in_seq. lia.
Qed.

Lemma reads_back_3 (n : Z) : 0 <= n <= 999 -> reads_back 3 n = true.
Proof.
  intros H.
  assert (A : forallb (fun k => reads_back 3 (Z.of_nat k)) (seq 0 (Z.to_nat 1000)) = true)
    by (vm_compute; reflexivity).
  rewrite forallb_forall in A. specialize (A (Z.to_nat n)).
  rewrite Z2Nat.id in A by lia. apply A. apply in_seq. lia.
Qed.

Lemma reads_back_spec width n :
  reads_back width n = true ->
  let p := LPAD (integer_to_text n) width "0" in
  span_digits p = (p, EmptyString) /\ p <> EmptyString
  /\ digits_value 0 p = n.
Proof.
  unfold reads_back. cbv zeta.
  destruct (span_digits (LPAD (integer_to_text n) width "0")) as [ds rest].
  intros H. apply andb_prop in H. destruct H as [H H4].
  apply andb_prop in H. destruct H as [H H3].
  apply andb_prop in H. destruct H as [H1 H2].
  apply String.eqb_eq in H1, H2. subst.
  split; [reflexivity |]. split; [| now apply Z.eqb_eq].
  intros E. rewrite E in H3. discriminate.
Qed.

Variable lit : string.
Variable year : string.
Variable width : nat.
Variable n : Z.
Hypothesis Hyear : four_digits year = true.
Hypothesis Hreads : reads_back width n = true.
Hypothesis Hrange : 0 <= n <= 9999.

Lemma match_here_formatted :
  match_here lit (format_number lit year width n)
  = Some (LPAD (integer_to_text n) width "0").
Proof.
  unfold match_here, format_number.
  rewrite strip_prefix_app.
  destruct (reads_back_spec width n Hreads) as [Hspan [Hne _]].
  destruct year as [|a [|b [|c [|d [|e y]]]]]; try discriminate Hyear.
  simpl in Hyear. cbn [append strip_four_digits]. rewrite Hyear.
  rewrite Hspan. cbn [fst].
  destruct (LPAD (integer_to_text n) width "0"); [congruence | reflexivity].
Qed.

Lemma regex_substring_formatted :
  regex_substring lit (format_number lit year width n)
  = Some (LPAD (integer_to_text n) width "0").
Proof.
  destruct (format_number lit year width n) eqn:E;
    simpl; rewrite <- E, match_here_formatted; reflexivity.
Qed.

Lemma extract_sequence_formatted :
  extract_sequence lit (format_number lit year width n) = Ok (Some n).
Proof.
  unfold extract_sequence. rewrite regex_substring_formatted.
  destruct (reads_back_spec width n Hreads) as [_ [_ Hval]].
  unfold cast_integer. rewrite Hval.
  assert (L : (n <=? int4_max) = true) by (apply Z.leb_le; unfold int4_max; lia).
  rewrite L. reflexivity.
Qed.

Lemma LIKE_prefix_formatted :
  LIKE_prefix (lit ++ year ++ "-") (format_number lit year width n) = true.
Proof.
  unfold LIKE_prefix, format_number.
  replace (lit ++ year ++ "-" ++ LPAD (integer_to_text n) width "0")
    with ((lit ++ year ++ "-") ++ LPAD (integer_to_text n) width "0").
  - apply prefix_app.
  - now rewrite !string_app_assoc.
Qed.

End Sequences.

Section MaxSequence.
Local Open Scope Z_scope.

Lemma sql_max_assoc a b c : sql_max a (sql_max b c) = sql_max (sql_max a b) c.
Proof.
  destruct a, b, c; simpl; try reflexivity. now rewrite Z.max_assoc.
Qed.

Lemma max_sequence_bound lit l m s v :
  max_sequence lit l = Ok m -> In s l ->
  extract_sequence lit s = Ok (Some v) ->
  exists x, m = Some x /\ v <= x.
Proof.
  revert m. induction l as [|a l IH]; intros m Hm Hin Hv; [destruct Hin |].
  simpl in Hm.
  destruct (extract_sequence lit a) as [va|] eqn:Ea; [| discriminate].
  destruct (max_sequence lit l) as [ml|] eqn:El; [| discriminate].
  simpl in Hm. injection Hm as <-.
  destruct Hin as [-> | Hin].
  - rewrite Hv in Ea. injection Ea as <-.
    destruct ml as [y|]; simpl; eexists; split; try reflexivity; lia.
  - destruct (IH ml eq_refl Hin Hv) as [x [-> Hx]].
    destruct va as [y|]; simpl; eexists; split; try reflexivity; lia.
Qed.

Lemma max_sequence_snoc lit l m s v :
  max_sequence lit l = Ok m ->
  extract_sequence lit s = Ok v ->
  max_sequence lit (l ++ [s]) = Ok (sql_max m v).
Proof.
  revert m. induction l as [|a l IH]; intros m Hm Hv; simpl in *.
  - injection Hm as <-. rewrite Hv. simpl. now destruct v.
  - destruct (extract_sequence lit a) as [va|]; [| discriminate].
    destruct (max_sequence lit l) as [ml|]; [| discriminate].
    simpl in Hm. injection Hm as <-.
    rewrite (IH ml eq_refl Hv). simpl. now rewrite sql_max_assoc.
Qed.

(** The next number of a table is one more than every sequence number
    that is read from it, and at least 1. *)
Lemma next_number_above lit year numbers k :
  next_number lit year numbers = Ok k ->
  1 <= k /\
  forall s v, In s numbers ->
    LIKE_prefix (lit ++ year ++ "-") s = true ->
    extract_sequence lit s = Ok (Some v) -> v < k.
Proof.
  unfold next_number.
  destruct (max_sequence lit
              (filter (LIKE_prefix (lit ++ year ++ "-")) numbers))
    as [m|] eqn:Em; [| discriminate].
  simpl. unfold int4_add.
  destruct (COALESCE m 0 + 1 <=? int4_max); [| discriminate].
  intros H. injection H as <-. split.
  - destruct m as [x|]; simpl; [| lia].
    (* every extracted value is a value of digits, hence not negative *)
    assert (G : forall l mm, max_sequence lit l = Ok (Some mm) -> 0 <= mm).
    { clear. induction l as [|a l IH]; intros mm H; [discriminate |].
      simpl in H.
      destruct (extract_sequence lit a) as [va|] eqn:Ea; [| discriminate].
      destruct (max_sequence lit l) as [ml|] eqn:El; [| discriminate].
      simpl in H. injection H as H.
      assert (Hva : forall y, va = Some y -> 0 <= y).
      { intros y ->. unfold extract_sequence in Ea.
        destruct (regex_substring lit a) as [ds|]; [| discriminate].
        unfold cast_integer in Ea.
        destruct (digits_value 0 ds <=? int4_max); [| discriminate].
        simpl in Ea. injection Ea as <-.
        assert (D : forall s acc, 0 <= acc -> 0 <= digits_value acc s).
        { clear. induction s as [|c s IHs]; intros acc Hacc;
            cbn [digits_value]; [exact Hacc |].
          apply IHs. unfold digit_value. lia. }
        apply D. lia. }
      destruct va as [y|], ml as [z|]; simpl in H; try discriminate;
        injection H as <-.
      - specialize (Hva y eq_refl). lia.
      - now apply Hva.
      - now apply IH. }
    specialize (G _ _ Em). lia.
  - intros s v Hin Hlike Hv.
    assert (Hin' : In s (filter (LIKE_prefix (lit ++ year ++ "-")) numbers))
      by (apply filter_In; now split).
    destruct (max_sequence_bound _ _ _ _ _ Em Hin' Hv) as [x [-> Hx]].
    simpl. lia.
Qed.

End MaxSequence.


(** ** Issuing numbers one after another *)

Section NextNumber.
Local Open Scope string_scope.
Local Open Scope Z_scope.

Variable lit : string.
Variable year : string.
Variable width : nat.
Variable bound : Z.
Hypothesis Hyear : four_digits year = true.
Hypothesis Hbound : bound <= 9999.
Hypothesis Hreads : forall n, 0 <= n <= bound -> reads_back width n = true.

(** The number built from the next sequence number is not in the table,
    and once it is stored the next sequence number is one more. *)
Lemma next_number_issue numbers k :
  next_number lit year numbers = Ok k -> k <= bound ->
  ~ In (format_number lit year width k) numbers
  /\ next_number lit year (numbers ++ [format_number lit year width k])
     = Ok (k + 1).
Proof.
  intros Hk Hle.
  destruct (next_number_above _ _ _ _ Hk) as [Hpos Habove].
  assert (Hr : reads_back width k = true) by (apply Hreads; lia).
  assert (Hex := extract_sequence_formatted lit year width k Hyear Hr
                   ltac:(lia)).
  assert (Hlike := LIKE_prefix_formatted lit year width k).
  split.
  - intros Hin. specialize (Habove _ _ Hin Hlike Hex). lia.
  - unfold next_number in *. rewrite filter_app. cbn [filter].
    rewrite Hlike.
    destruct (max_sequence lit
                (filter (LIKE_prefix (lit ++ year ++ "-")) numbers))
      as [m|] eqn:Em; [| discriminate].
    rewrite (max_sequence_snoc _ _ _ _ _ Em Hex).
    cbn [bind] in *. unfold int4_add in *.
    destruct (COALESCE m 0 + 1 <=? int4_max); [| discriminate].
    injection Hk as Hk.
    assert (E : COALESCE (sql_max m (Some k)) 0 = k).
    { destruct m as [x|]; simpl in *; lia. }
    rewrite E.
    assert (L : (k + 1 <=? int4_max) = true)
      by (apply Z.leb_le; unfold int4_max; lia).
    now rewrite L.
Qed.

Lemma format_number_injective j k :
  0 <= j <= bound -> 0 <= k <= bound ->
  format_number lit year width j = format_number lit year width k -> j = k.
Proof.
  intros Hj Hk E.
  assert (Ej := extract_sequence_formatted lit year width j Hyear
                  (Hreads j Hj) ltac:(lia)).
  assert (Ek := extract_sequence_formatted lit year width k Hyear
                  (Hreads k Hk) ltac:(lia)).
  rewrite E in Ej. congruence.
Qed.

End NextNumber.

Lemma consecutive_range k n x :
  In x (consecutive k n) <-> (k <= x < k + Z.of_nat n)%Z.
Proof.
  revert k. induction n as [|n IH]; intros k; simpl.
  - split; [tauto | lia].
  - rewrite IH. lia.
Qed.

Lemma consecutive_NoDup k n : NoDup (consecutive k n).
Proof.
  revert k. induction n as [|n IH]; intros k; simpl; constructor.
  - rewrite consecutive_range. lia.
  - apply IH.
Qed.

Lemma NoDup_map_in {A B : Type} (f : A -> B) (l : list A) :
  (forall x y, In x l -> In y l -> f x = f y -> x = y) ->
  NoDup l -> NoDup (map f l).
Proof.
  intros Hinj H. induction H as [|x l Hx _ IH]; simpl; constructor.
  - intros Hin. apply in_map_iff in Hin. destruct Hin as [y [Hy Hin]].
    assert (y = x) by (apply Hinj; [now right | now left | exact Hy]).
    now subst.
  - apply IH. intros a b Ha Hb. apply Hinj; now right.
Qed.

Lemma existsb_eqb_In (s : string) (l : list string) :
  existsb (String.eqb s) l = true <-> In s l.
Proof.
  rewrite existsb_exists. split.
  - intros [x [Hx E]]. apply String.eqb_eq in E. now subst.
  - intros H. exists s. split; [exact H | apply String.eqb_refl].
Qed.

Lemma existsb_eqb_fresh (s : string) (l : list string) :
  ~ In s l -> existsb (String.eqb s) l = false.
Proof.
  intros H. destruct (existsb (String.eqb s) l) eqn:E; [| reflexivity].
  apply existsb_eqb_In in E. contradiction.
Qed.

(** The UNIQUE constraint: an insert keeps the stored numbers distinct. *)
Lemma insert_invoice_NoDup row db id db' :
  NoDup (map inv_number (db_invoices db)) ->
  insert_invoice row db = Ok (id, db') ->
  NoDup (map inv_number (db_invoices db')).
Proof.
  unfold insert_invoice. intros Hnd H.
  destruct (existsb (String.eqb (inv_number (row (db_next_id db))))
                    (map inv_number (db_invoices db))) eqn:E; [discriminate |].
  injection H as _ <-. cbn [db_invoices].
  rewrite map_app. cbn [map].
  apply NoDup_app; [exact Hnd | repeat constructor; intros [] |].
  intros a Ha [<- | []].
  apply existsb_eqb_In in Ha. congruence.
Qed.

Lemma serve_NoDup today sv rq :
  NoDup (map inv_number (db_invoices (sv_db sv))) ->
  NoDup (map inv_number (db_invoices (sv_db (serve today sv rq)))).
Proof.
  intros H. destruct rq as [s | s]; simpl.
  - destruct (rpc_generate_invoice_number (Some s) today
                (db_invoices (sv_db sv))); exact H.
  - destruct (issued_to s (sv_issued sv)) as [number|]; [| exact H].
    destruct (insert_invoice (form_invoice s number today) (sv_db sv))
      as [[id db']|] eqn:E; [| exact H].
    cbn [sv_db]. eapply insert_invoice_NoDup; eauto.
Qed.

Lemma serve_all_NoDup today schedule sv :
  NoDup (map inv_number (db_invoices (sv_db sv))) ->
  NoDup (map inv_number (db_invoices (sv_db (serve_all today sv schedule)))).
Proof.
  revert sv. induction schedule as [|rq schedule IH]; intros sv H.
  - exact H.
  - simpl. apply IH. now apply serve_NoDup.
Qed.

Lemma generate_invoice_number_next today invoices k :
  (1000 <= d_year today <= 9999)%Z ->
  next_number "INV-" (to_char_YYYY today) (map inv_number invoices) = Ok k ->
  (k <= 999)%Z ->
  generate_invoice_number today invoices = Ok (invoice_number_of today k)
  /\ ~ In (invoice_number_of today k) (map inv_number invoices)
  /\ next_number "INV-" (to_char_YYYY today)
       (map inv_number invoices ++ [invoice_number_of today k])
     = Ok (k + 1)%Z.
Proof.
  intros Hy Hk Hle. unfold generate_invoice_number. rewrite Hk. cbn [bind].
  split; [reflexivity |].
  apply (next_number_issue "INV-" (to_char_YYYY today) 3 999
           (year_four_digits today Hy) ltac:(lia) reads_back_3 _ _ Hk Hle).
Qed.

Lemma generate_credit_note_number_next today credit_notes k :
  (1000 <= d_year today <= 9999)%Z ->
  next_number "CN-" (to_char_YYYY today) (map cn_number credit_notes) = Ok k ->
  (k <= 999)%Z ->
  generate_credit_note_number today credit_notes
    = Ok (format_number "CN-" (to_char_YYYY today) 3 k)
  /\ ~ In (format_number "CN-" (to_char_YYYY today) 3 k)
          (map cn_number credit_notes).
Proof.
  intros Hy Hk Hle. unfold generate_credit_note_number. rewrite Hk. cbn [bind].
  split; [reflexivity |].
  apply (next_number_issue "CN-" (to_char_YYYY today) 3 999
           (year_four_digits today Hy) ltac:(lia) reads_back_3 _ _ Hk Hle).
Qed.

(** Invoices of other users that carry no number of the year do not
    count: the caller's rows give the same next number as the table. *)
Lemma next_number_visible s today invoices :
  year_numbers_owned s today invoices ->
  next_number "INV-" (to_char_YYYY today)
    (map inv_number (visible_invoices (Some s) invoices))
  = next_number "INV-" (to_char_YYYY today) (map inv_number invoices).
Proof.
  intros H. unfold next_number. f_equal. f_equal.
  unfold visible_invoices.
  induction invoices as [|i l IH]; [reflexivity |].
  assert (Hl : year_numbers_owned s today l).
  { intros j Hj. apply H. now right. }
  cbn [filter map]. destruct (sql_eq (Some s) (inv_user_id i)) eqn:E.
  - cbn [map filter]. rewrite (IH Hl). reflexivity.
  - rewrite (IH Hl).
    assert (Hn : inv_user_id i <> Some s).
    { intros C. rewrite C in E. cbn in E. rewrite Nat.eqb_refl in E.
      discriminate. }
    now rewrite (H i (or_introl eq_refl) Hn).
Qed.

(** One user asks and stores while nobody else does. *)
Lemma serve_ask_and_store today sv s k :
  (1000 <= d_year today <= 9999)%Z ->
  year_numbers_owned s today (db_invoices (sv_db sv)) ->
  next_number "INV-" (to_char_YYYY today)
    (map inv_number (db_invoices (sv_db sv))) = Ok k ->
  (k <= 999)%Z ->
  let sv' := serve today (serve today sv (RpcGenerateNumber s))
                   (InsertInvoice s) in
  sv_issued sv' = (s, invoice_number_of today k) :: sv_issued sv
  /\ sv_rejected sv' = sv_rejected sv
  /\ year_numbers_owned s today (db_invoices (sv_db sv'))
  /\ next_number "INV-" (to_char_YYYY today)
       (map inv_number (db_invoices (sv_db sv'))) = Ok (k + 1)%Z.
Proof.
  intros Hy Hown Hk Hle.
  destruct (generate_invoice_number_next today _ k Hy Hk Hle)
    as [_ [Hfresh Hnext]].
  assert (Hgen : rpc_generate_invoice_number (Some s) today
                   (db_invoices (sv_db sv))
                 = Ok (invoice_number_of today k)).
  { unfold rpc_generate_invoice_number, generate_invoice_number.
    rewrite (next_number_visible s today _ Hown), Hk. reflexivity. }
  cbv zeta. cbn [serve]. rewrite Hgen. cbn [serve sv_issued sv_db issued_to].
  rewrite Nat.eqb_refl. unfold insert_invoice. cbn [form_invoice inv_number].
  rewrite (existsb_eqb_fresh _ _ Hfresh).
  cbn [sv_issued sv_rejected sv_db db_invoices].
  split; [reflexivity |]. split; [reflexivity |]. split.
  - intros i Hi Hu. apply in_app_or in Hi. destruct Hi as [Hi | [<- | []]].
    + now apply Hown.
    + unfold form_invoice in Hu. cbn [inv_user_id] in Hu. congruence.
  - rewrite map_app. cbn [map inv_number]. exact Hnext.
Qed.

Lemma one_by_one_issue today s n sv k :
  (1000 <= d_year today <= 9999)%Z ->
  year_numbers_owned s today (db_invoices (sv_db sv)) ->
  next_number "INV-" (to_char_YYYY today)
    (map inv_number (db_invoices (sv_db sv))) = Ok k ->
  (k + Z.of_nat n <= 1000)%Z ->
  let sv' := serve_all today sv (one_by_one (repeat s n)) in
  map snd (sv_issued sv')
  = rev (map (invoice_number_of today) (consecutive k n))
    ++ map snd (sv_issued sv)
  /\ sv_rejected sv' = sv_rejected sv.
Proof.
  intros Hy. revert sv k.
  induction n as [|n IH]; intros sv k Hown Hk Hle.
  - split; reflexivity.
  - destruct (serve_ask_and_store today sv s k Hy Hown Hk ltac:(lia))
      as [Hi [Hr [Ho Hn]]].
    cbv zeta in Hi, Hr, Ho, Hn.
    specialize (IH _ (k + 1)%Z Ho Hn ltac:(lia)).
    cbv zeta in IH. destruct IH as [IH1 IH2].
    cbv zeta. cbn [repeat one_by_one flat_map app serve_all fold_left].
    unfold serve_all, one_by_one in IH1, IH2.
    rewrite IH1, IH2, Hi, Hr. split; [| reflexivity].
    cbn [consecutive map rev snd].
    now rewrite <- app_assoc.
Qed.


(** Below the limit the generators behave as described: the first number
    of a year is 001, and numbers of other years do not count. *)
Lemma generate_invoice_number_examples :
  generate_invoice_number (mkDate 2025 6 1) [] = Ok "INV-2025-001"%string
  /\ generate_invoice_number (mkDate 2025 6 1)
       [ numbered_invoice "INV-2025-007"; numbered_invoice "INV-2024-150" ]
     = Ok "INV-2025-008"%string
  /\ generate_credit_note_number (mkDate 2025 6 1)
       [ numbered_credit_note "CN-2025-041" ] = Ok "CN-2025-042"%string.
Proof. repeat split; vm_compute; reflexivity. Qed.

(** C5 at the end of the padded range: with INV-2025-999 issued the next
    sequence number is 1000, and the generator returns INV-2025-100, the
    first three characters of "1000"; likewise CN-2025-100 after
    CN-2025-999.  The generator of student numbers returns no number at
    all: every call fails on the ambiguous name [student_number]. *)
Theorem sequence_number_cut_to_width :
  next_number "INV-" "2025" [ "INV-2025-999"%string ] = Ok 1000%Z
  /\ generate_invoice_number (mkDate 2025 6 1)
       [ numbered_invoice "INV-2025-999" ] = Ok "INV-2025-100"%string
  /\ generate_credit_note_number (mkDate 2025 6 1)
       [ numbered_credit_note "CN-2025-999" ] = Ok "CN-2025-100"%string
  /\ (forall today students,
        generate_student_number today students = Raise ambiguous_column).
Proof.
  split; [vm_compute; reflexivity |].
  split; [vm_compute; reflexivity |].
  split; [vm_compute; reflexivity |].
  intros today students. reflexivity.
Qed.

(** C8, as stated, at two sessions that both ask before either stores:
    both are given INV-2025-001, and the second insert is rejected. *)
Lemma interleaved_requests_get_same_number :
  let sv :=
    serve_all (mkDate 2025 6 1) (mkServer empty_database [] [])
      [ RpcGenerateNumber 1; RpcGenerateNumber 2;
        InsertInvoice 1; InsertInvoice 2 ] in
  sv_issued sv = [ (2%nat, "INV-2025-001"%string);
                   (1%nat, "INV-2025-001"%string) ]
  /\ sv_rejected sv = [ (2%nat, unique_violation) ]
  /\ map inv_number (db_invoices (sv_db sv)) = [ "INV-2025-001"%string ]
  /\ ~ NoDup (map snd (sv_issued sv)).
Proof.
  cbv zeta. repeat split; try (vm_compute; reflexivity).
  intros H. vm_compute in H. inversion H as [| x l Hin _]; subst.
  apply Hin. now left.
Qed.

(** C8 (amended): under every interleaving of requests the stored invoice
    numbers stay pairwise distinct (the UNIQUE constraint rejects a
    repeated number).  One user who issues n numbers one after another,
    storing each invoice before asking again, while no invoice of another
    user carries a number of the year, is given the consecutive numbers
    k, k+1, ... without repeats and without gaps, and none is rejected,
    as long as the numbers stay within three digits of a four-digit
    year.  The function reads the caller's rows only: three users served
    one after another, none of whom has a number of the year, are all
    given INV-2025-001, and two of the three inserts are rejected. *)
Theorem numbers_unique_in_store_consecutive_in_turn
    today db schedule s n k :
  NoDup (map inv_number (db_invoices db)) ->
  (1000 <= d_year today <= 9999)%Z ->
  year_numbers_owned s today (db_invoices db) ->
  next_number "INV-" (to_char_YYYY today) (map inv_number (db_invoices db))
    = Ok k ->
  (k + Z.of_nat n <= 1000)%Z ->
  NoDup (map inv_number
           (db_invoices (sv_db (serve_all today (mkServer db [] []) schedule))))
  /\ (let sv :=
        serve_all today (mkServer db [] []) (one_by_one (repeat s n)) in
      rev (map snd (sv_issued sv))
        = map (invoice_number_of today) (consecutive k n)
      /\ NoDup (map snd (sv_issued sv))
      /\ sv_rejected sv = [])
  /\ (let sv :=
        serve_all (mkDate 2025 6 1)
          (mkServer (mkDatabase [ numbered_invoice "INV-2025-007" ] [] [] 2)
                    [] [])
          (one_by_one [ 1%nat; 2%nat; 3%nat ]) in
      map snd (sv_issued sv)
        = [ "INV-2025-001"%string; "INV-2025-001"%string;
            "INV-2025-001"%string ]
      /\ sv_rejected sv
         = [ (3%nat, unique_violation); (2%nat, unique_violation) ]).
Proof.
  intros Hnd Hy Hown Hk Hle. split; [| split].
  - now apply serve_all_NoDup.
  - destruct (next_number_above _ _ _ _ Hk) as [Hpos _].
    destruct (one_by_one_issue today s n (mkServer db [] []) k Hy Hown Hk Hle)
      as [Hi Hr].
    cbv zeta in *. cbn [sv_issued sv_rejected map] in Hi, Hr.
    rewrite app_nil_r in Hi. rewrite Hi, Hr, rev_involutive.
    split; [reflexivity |]. split; [| reflexivity].
    apply NoDup_rev. apply NoDup_map_in; [| apply consecutive_NoDup].
    intros x y Hx Hyy. apply consecutive_range in Hx, Hyy.
    apply (format_number_injective "INV-" (to_char_YYYY today) 3 999
             (year_four_digits today Hy) ltac:(lia) reads_back_3); lia.
  - cbv zeta. split; vm_compute; reflexivity.
Qed.

Lemma numbers_unique_in_store_consecutive_in_turn_witness :
  rev (map snd (sv_issued
         (serve_all (mkDate 2025 6 1)
            (mkServer (mkDatabase [ numbered_invoice "INV-2025-007" ] [] [] 2)
                      [] [])
            (one_by_one (repeat 9%nat 3)))))
  = map (invoice_number_of (mkDate 2025 6 1)) (consecutive 8 3).
Proof.
  refine (proj1 (proj1 (proj2 (numbers_unique_in_store_consecutive_in_turn
            (mkDate 2025 6 1)
            (mkDatabase [ numbered_invoice "INV-2025-007" ] [] [] 2)
            [] 9%nat 3%nat 8%Z _ _ _ _ _)))).
  - repeat constructor; simpl; tauto.
  - simpl. lia.
  - intros i [<- | []] Hu. exfalso. apply Hu. reflexivity.
  - vm_compute. reflexivity.
  - simpl. lia.
Defined.


(** ** Recurring invoices *)

Lemma Ok_inj {A : Type} (a b : A) : Ok a = Ok b -> a = b.
Proof. intros H. now injection H. Qed.

Lemma update_invoice_totals_map {B : Type} (f : invoice -> B) now NEW
    invoices items :
  (forall s n i, f (set_invoice_subtotal s n i) = f i) ->
  (forall a b i, f (set_invoice_tax_total a b i) = f i) ->
  map f (update_invoice_totals now NEW invoices items) = map f invoices.
Proof.
  intros H1 H2. unfold update_invoice_totals. rewrite !map_map.
  apply map_ext. intros i.
  destruct (sql_eq (Some (inv_id i)) (NEW_document_id NEW)) eqn:E.
  - cbn [set_invoice_subtotal inv_id]. rewrite E. now rewrite H2, H1.
  - rewrite E. reflexivity.
Qed.

(** What one round of the loop does when it succeeds. *)
Lemma generate_for_effect now rec db db' :
  generate_for now rec db = Ok db' ->
  db_recurring_invoices db'
    = map (touch now (rc_id rec)) (db_recurring_invoices db)
  /\ exists number,
       generate_invoice_number (timestamp_to_date now) (db_invoices db)
         = Ok number
       /\ map inv_number (db_invoices db')
          = map inv_number (db_invoices db) ++ [number]
       /\ map inv_date (db_invoices db')
          = map inv_date (db_invoices db) ++ [next_invoice_date rec].
Proof.
  unfold generate_for.
  destruct (generate_invoice_number (timestamp_to_date now) (db_invoices db))
    as [number|] eqn:G; [| discriminate].
  cbn [bind]. destruct (rc_client_id rec) as [client|]; [| discriminate].
  cbn [not_null bind]. unfold insert_invoice.
  destruct (existsb _ _); [discriminate |].
  cbn [bind]. unfold insert_invoice_item, exec_invoice_item_statement.
  cbn [apply_item_statement fired_NEW fold_left db_invoices db_invoice_items
       db_recurring_invoices db_next_id update_last_generated].
  intros H. apply Ok_inj in H. subst db'. unfold update_last_generated.
  cbn [db_recurring_invoices db_invoices].
  split; [reflexivity |]. exists number. split; [reflexivity |].
  split.
  - rewrite update_invoice_totals_map by reflexivity.
    rewrite map_app. reflexivity.
  - rewrite update_invoice_totals_map by reflexivity.
    rewrite map_app. reflexivity.
Qed.

(** One round succeeds when the next number fits three digits and the
    template names a client. *)
Lemma generate_for_succeeds now rec db k :
  (1000 <= d_year (timestamp_to_date now) <= 9999)%Z ->
  next_number "INV-" (to_char_YYYY (timestamp_to_date now))
    (map inv_number (db_invoices db)) = Ok k ->
  (k <= 999)%Z ->
  rc_client_id rec <> None ->
  exists db',
    generate_for now rec db = Ok db'
    /\ next_number "INV-" (to_char_YYYY (timestamp_to_date now))
         (map inv_number (db_invoices db')) = Ok (k + 1)%Z.
Proof.
  intros Hy Hk Hle Hc.
  destruct (generate_invoice_number_next _ _ k Hy Hk Hle)
    as [Hgen [Hfresh Hnext]].
  assert (S : exists db', generate_for now rec db = Ok db').
  { unfold generate_for. rewrite Hgen. cbn [bind].
    destruct (rc_client_id rec) as [client|]; [| congruence].
    cbn [not_null bind]. unfold insert_invoice. cbn [inv_number].
    rewrite (existsb_eqb_fresh _ _ Hfresh). cbn [bind].
    eexists. reflexivity. }
  destruct S as [db' Hdb']. exists db'. split; [exact Hdb' |].
  destruct (generate_for_effect _ _ _ _ Hdb') as [_ [number [G [Hn _]]]].
  rewrite Hgen in G. injection G as <-. rewrite Hn. exact Hnext.
Qed.

Lemma fold_round_Raise now due e :
  fold_left (round now) due (Raise e) = Raise e.
Proof. induction due as [|r due IH]; simpl; [reflexivity | exact IH]. Qed.

Lemma touched_touch now d due r :
  (if touched due (touch now (rc_id d) r)
   then set_last_generated now (touch now (rc_id d) r)
   else touch now (rc_id d) r)
  = if touched (d :: due) r then set_last_generated now r else r.
Proof.
  unfold touch, touched. cbn [existsb].
  destruct (Nat.eqb (rc_id r) (rc_id d)) eqn:E; cbn [orb].
  - cbn [set_last_generated rc_id].
    destruct (existsb _ due); reflexivity.
  - reflexivity.
Qed.

(** The loop over any list of selected templates, when it returns. *)
Lemma fold_round_effect now due db db' :
  fold_left (round now) due (Ok db) = Ok db' ->
  db_recurring_invoices db'
    = map (fun r => if touched due r then set_last_generated now r else r)
          (db_recurring_invoices db)
  /\ map inv_date (db_invoices db')
     = map inv_date (db_invoices db) ++ map next_invoice_date due.
Proof.
  revert db. induction due as [|d due IH]; intros db H.
  - simpl in H. injection H as <-. split.
    + cbn [touched existsb]. now rewrite map_id.
    + cbn [map]. now rewrite app_nil_r.
  - cbn [fold_left] in H. unfold round at 2 in H. cbn [bind] in H.
    destruct (generate_for now d db) as [db1|e] eqn:G.
    + destruct (generate_for_effect _ _ _ _ G) as [Hr [_ [_ [_ Hd]]]].
      destruct (IH db1 H) as [IH1 IH2]. split.
      * rewrite IH1, Hr, map_map. apply map_ext. intros r.
        apply touched_touch.
      * rewrite IH2, Hd, <- app_assoc. reflexivity.
    + rewrite fold_round_Raise in H. discriminate.
Qed.

(** The loop returns when the numbers it needs fit three digits. *)
Lemma fold_round_succeeds now due db k :
  (1000 <= d_year (timestamp_to_date now) <= 9999)%Z ->
  Forall (fun r => rc_client_id r <> None) due ->
  next_number "INV-" (to_char_YYYY (timestamp_to_date now))
    (map inv_number (db_invoices db)) = Ok k ->
  (k + Z.of_nat (List.length due) <= 1000)%Z ->
  exists db', fold_left (round now) due (Ok db) = Ok db'.
Proof.
  intros Hy Hc. revert db k.
  induction Hc as [|d due Hd _ IH]; intros db k Hk Hle.
  - exists db. reflexivity.
  - cbn [List.length] in Hle.
    destruct (generate_for_succeeds now d db k Hy Hk ltac:(lia) Hd)
      as [db1 [G Hn]].
    destruct (IH db1 (k + 1)%Z Hn ltac:(lia)) as [db' Hdb'].
    exists db'. cbn [fold_left]. unfold round at 2. cbn [bind].
    rewrite G. exact Hdb'.
Qed.

Lemma touched_due now recs r :
  NoDup (map rc_id recs) -> In r recs ->
  touched (filter (is_due now) recs) r = is_due now r.
Proof.
  intros Hnd Hin. unfold touched.
  destruct (is_due now r) eqn:E.
  - apply existsb_exists. exists r. split.
    + apply filter_In. now split.
    + apply Nat.eqb_refl.
  - destruct (existsb _ _) eqn:X; [| reflexivity].
    apply existsb_exists in X. destruct X as [d [Hd Heq]].
    apply filter_In in Hd. destruct Hd as [Hd Hdue].
    apply Nat.eqb_eq in Heq.
    assert (d = r); [| subst; congruence].
    clear - Hnd Hin Hd Heq.
    induction recs as [|x recs IH]; [destruct Hin |].
    simpl in Hnd. inversion Hnd as [| ? ? Hx Hnd']; subst.
    destruct Hin as [-> | Hin], Hd as [-> | Hd]; try reflexivity.
    + exfalso. apply Hx. rewrite Heq. now apply in_map.
    + exfalso. apply Hx. rewrite <- Heq. now apply in_map.
    + now apply IH.
Qed.

Lemma is_due_iff now r : is_due now r = true <-> due_condition now r.
Proof.
  unfold is_due, due_condition. rewrite !andb_true_iff. split.
  - intros [[Hs Hl] He]. split; [| split].
    + destruct (rc_status r); try discriminate; reflexivity.
    + destruct (rc_last_generated r) as [ts|]; [right | now left].
      exists ts. now split.
    + destruct (rc_end_date r) as [e|]; [right | now left].
      exists e. now split.
  - intros [Hs [Hl He]]. split; [split |].
    + now rewrite Hs.
    + destruct Hl as [-> | [ts [-> H]]]; [reflexivity | exact H].
    + destruct He as [-> | [e [-> H]]]; [reflexivity | exact H].
Qed.

Lemma next_invoice_date_step r :
  next_invoice_date r
  = spec_step (rc_frequency r)
      (match rc_last_generated r with
       | Some ts => ts_date ts
       | None => rc_start_date r
       end).
Proof.
  unfold next_invoice_date, date_pl_interval, timestamp_pl_interval,
    timestamp_to_date, date_to_timestamp.
  destruct (rc_last_generated r) as [ts|]; destruct (rc_frequency r);
    cbn [option_map COALESCE period iv_months iv_days Z.eqb ts_date
         spec_step];
    reflexivity.
Qed.

(** Calendar months: the day is kept where the target month has it and
    clamped to the end of the month otherwise. *)
Lemma add_months_examples :
  add_months 1 (mkDate 2024 1 31) = mkDate 2024 2 29
  /\ add_months 1 (mkDate 2025 1 31) = mkDate 2025 2 28
  /\ add_months 3 (mkDate 2025 11 30) = mkDate 2026 2 28
  /\ add_months 12 (mkDate 2024 2 29) = mkDate 2025 2 28
  /\ add_months 1 (mkDate 2025 3 15) = mkDate 2025 4 15
  /\ add_days 7 (mkDate 2025 12 28) = mkDate 2026 1 4.
Proof. repeat split; reflexivity. Qed.

(** C6, as stated, at an active template that was never generated and
    whose end date has passed: nothing is generated for it. *)
Lemma ended_template_generates_nothing :
  let r := template 1 monthly (mkDate 2025 1 1) (Some (mkDate 2025 2 1))
             active None in
  rc_status r = active /\ rc_last_generated r = None
  /\ recurring_check r
  /\ generate_recurring_invoices (midnight 2025 3 1)
       (mkDatabase [] [] [r] 1)
     = Ok (mkDatabase [] [] [r] 1).
Proof.
  cbv zeta. split; [reflexivity |]. split; [reflexivity |]. split.
  - unfold recurring_check. cbn. repeat split. discriminate.
  - vm_compute. reflexivity.
Qed.

(** C6 (amended): a run at [now] that needs no invoice number beyond 999
    returns; an invoice is generated for a template exactly when it is
    active, its last_generated is null or last_generated + period is not
    after the midnight that starts today, and its end_date is null or not
    before today; the generated invoices are dated
    (date of last_generated, else start_date) + period, where a week is 7
    days and a month, quarter and year are 1, 3 and 12 calendar months;
    the templates served get last_generated = [now], the others are left
    as they were. *)
Theorem recurring_generation now db k :
  (1000 <= d_year (timestamp_to_date now) <= 9999)%Z ->
  NoDup (map rc_id (db_recurring_invoices db)) ->
  (forall r, In r (db_recurring_invoices db) -> is_due now r = true ->
             rc_client_id r <> None) ->
  next_number "INV-" (to_char_YYYY (timestamp_to_date now))
    (map inv_number (db_invoices db)) = Ok k ->
  (k + Z.of_nat (List.length
                   (filter (is_due now) (db_recurring_invoices db)))
   <= 1000)%Z ->
  exists db',
    generate_recurring_invoices now db = Ok db'
    /\ (forall r, is_due now r = true <-> due_condition now r)
    /\ map inv_date (db_invoices db')
       = map inv_date (db_invoices db)
         ++ map (fun r => spec_step (rc_frequency r)
                            (match rc_last_generated r with
                             | Some ts => ts_date ts
                             | None => rc_start_date r
                             end))
                (filter (is_due now) (db_recurring_invoices db))
    /\ db_recurring_invoices db'
       = map (fun r => if is_due now r then set_last_generated now r else r)
             (db_recurring_invoices db)
    /\ (forall r, rc_last_generated (set_last_generated now r) = Some now).
Proof.
  intros Hy Hnd Hc Hk Hle.
  assert (Hc' : Forall (fun r => rc_client_id r <> None)
                  (filter (is_due now) (db_recurring_invoices db))).
  { apply Forall_forall. intros r Hr. apply filter_In in Hr.
    destruct Hr as [Hr Hd]. now apply Hc. }
  destruct (fold_round_succeeds now _ db k Hy Hc' Hk Hle) as [db' Hdb'].
  exists db'. split; [exact Hdb' |].
  destruct (fold_round_effect _ _ _ _ Hdb') as [Hr Hd].
  split; [intros r; apply is_due_iff |]. split; [| split].
  - rewrite Hd. f_equal. apply map_ext. intros r.
    apply next_invoice_date_step.
  - rewrite Hr. apply map_ext_in. intros r Hin.
    now rewrite (touched_due now _ r Hnd Hin).
  - reflexivity.
Qed.

Lemma recurring_generation_witness :
  exists db',
    generate_recurring_invoices (noon 2025 2 1)
      (mkDatabase [] [] two_templates 10) = Ok db'
    /\ map inv_date (db_invoices db') = [ mkDate 2025 2 28 ]
    /\ map rc_last_generated (db_recurring_invoices db')
       = [ Some (noon 2025 2 1); None ].
Proof.
  destruct (recurring_generation (noon 2025 2 1)
              (mkDatabase [] [] two_templates 10) 1%Z)
    as [db' [H [_ [Hd [Hr _]]]]].
  - simpl. lia.
  - repeat constructor; simpl; intuition discriminate.
  - intros r [<- | [<- | []]] _; discriminate.
  - vm_compute. reflexivity.
  - vm_compute. discriminate.
  - exists db'. split; [exact H |]. split.
    + rewrite Hd. reflexivity.
    + rewrite Hr. reflexivity.
Defined.

(** C7, as stated, at an active template whose end date has passed: after
    the run its status is still active, not completed. *)
Lemma ended_template_stays_active :
  let r := template 1 monthly (mkDate 2025 1 1) (Some (mkDate 2025 2 1))
             active (Some (noon 2025 1 15)) in
  exists db',
    generate_recurring_invoices (midnight 2025 6 1) (mkDatabase [] [] [r] 1)
      = Ok db'
    /\ map rc_status (db_recurring_invoices db') = [ active ]
    /\ map rc_status (db_recurring_invoices db') <> [ completed ].
Proof.
  cbv zeta. eexists. split; [vm_compute; reflexivity |].
  split; [reflexivity | discriminate].
Qed.

(** C7 (amended): a template is considered only while its status is
    active; [generate_recurring_invoices] never changes the status of any
    template: one whose end date has passed, and one that is paused or
    completed, is skipped, and every template keeps the status it has. *)
Theorem template_status_never_changes now db db' :
  generate_recurring_invoices now db = Ok db' ->
  map rc_id (db_recurring_invoices db') = map rc_id (db_recurring_invoices db)
  /\ map rc_status (db_recurring_invoices db')
     = map rc_status (db_recurring_invoices db)
  /\ (forall r e, rc_end_date r = Some e ->
        date_ltb e (timestamp_to_date now) = true -> is_due now r = false)
  /\ (forall r, rc_status r <> active -> is_due now r = false).
Proof.
  intros H. unfold generate_recurring_invoices in H.
  destruct (fold_round_effect _ _ _ _ H) as [Hr _].
  split; [| split; [| split]].
  - rewrite Hr, map_map. apply map_ext. intros r.
    now destruct (touched _ r).
  - rewrite Hr, map_map. apply map_ext. intros r.
    now destruct (touched _ r).
  - intros r e He Hlt. unfold is_due. rewrite He.
    rewrite date_ltb_leb in Hlt. apply negb_true_iff in Hlt.
    rewrite Hlt. apply andb_false_r.
  - intros r Hs. unfold is_due.
    destruct (rc_status r); try reflexivity. congruence.
Qed.

Lemma template_status_never_changes_witness :
  exists db',
    generate_recurring_invoices (noon 2025 2 1)
      (mkDatabase [] [] two_templates 10) = Ok db'
    /\ map rc_status (db_recurring_invoices db') = [ active; paused ].
Proof.
  destruct (generate_recurring_invoices (noon 2025 2 1)
              (mkDatabase [] [] two_templates 10)) as [db'|e] eqn:H.
  - exists db'. split; [reflexivity |].
    rewrite (proj1 (proj2 (template_status_never_changes _ _ _ H))).
    reflexivity.
  - vm_compute in H. discriminate.
Defined.


(** ** More on the weighted average *)

Lemma weighted_zero (rows : list assessment) :
  Forall (fun a => 0 <= as_weight a) rows ->
  qsum (weights rows) == 0 -> qsum (weighted_scores rows) == 0.
Proof.
  intros Hw. induction rows as [|a rows IH]; intros Hz; [reflexivity |].
  inversion Hw as [|? ? Hwa Hw']; subst.
  assert (Hnn : 0 <= qsum (weights rows)).
  { apply qsum_nonneg. unfold weights. now rewrite Forall_map. }
  unfold weights, weighted_scores, qsum in *. cbn [map fold_right] in *.
  assert (Ea : as_weight a == 0) by lra.
  assert (Er : fold_right Qplus 0 (map as_weight rows) == 0) by lra.
  rewrite (IH Hw' Er), Ea. ring.
Qed.

(** Some matching score is not above the weighted mean and some is not
    below it. *)
Lemma extreme_rows (rows : list assessment) :
  Forall (fun a => 0 <= as_weight a) rows ->
  0 < qsum (weights rows) ->
  exists a b,
    In a rows /\ In b rows
    /\ as_score a * qsum (weights rows) <= qsum (weighted_scores rows)
    /\ qsum (weighted_scores rows) <= as_score b * qsum (weights rows).
Proof.
  intros Hw. induction rows as [|x rows IH]; intros Hpos.
  - cbn in Hpos. lra.
  - inversion Hw as [|? ? Hwx Hw']; subst.
    assert (Hnn : 0 <= qsum (weights rows)).
    { apply qsum_nonneg. unfold weights. now rewrite Forall_map. }
    destruct (Qlt_le_dec 0 (qsum (weights rows))) as [Hl | Hl].
    + destruct (IH Hw' Hl) as [a [b [Ha [Hb [La Ub]]]]].
      unfold weights, weighted_scores, qsum in *.
      cbn [map fold_right] in *.
      set (W := fold_right Qplus 0 (map as_weight rows)) in *.
      set (S := fold_right Qplus 0
                  (map (fun a0 => as_score a0 * as_weight a0) rows)) in *.
      destruct (Qlt_le_dec (as_score a) (as_score x)) as [C1 | C1];
        destruct (Qlt_le_dec (as_score x) (as_score b)) as [C2 | C2].
      * exists a, b. repeat split; [now right | now right | nra | nra].
      * exists a, x. repeat split; [now right | now left | nra | nra].
      * exists x, b. repeat split; [now left | now right | nra | nra].
      * exists x, x. repeat split; [now left | now left | nra | nra].
    + assert (Ez : qsum (weights rows) == 0) by lra.
      pose proof (weighted_zero rows Hw' Ez) as Es.
      exists x, x. unfold weights, weighted_scores, qsum in *.
      cbn [map fold_right] in *. repeat split; try now left.
      * rewrite Ez, Es. lra.
      * rewrite Ez, Es. lra.
Qed.

Lemma max_scale_In scales m (s : option nat) :
  max_scale scales = Some m -> In s scales ->
  exists d, s = Some d /\ (d <= m)%nat.
Proof.
  revert m. induction scales as [|x l IH]; intros m H Hin; [destruct Hin |].
  cbn [max_scale] in H. destruct x as [a|]; [| discriminate].
  destruct (max_scale l) as [b|]; [| discriminate].
  injection H as <-. destruct Hin as [<- | Hin].
  - exists a. split; [reflexivity | lia].
  - destruct (IH b eq_refl Hin) as [d [-> Hd]]. exists d. split; [easy | lia].
Qed.

(** The scale of the division covers the decimal places of every
    matching score that has at most 1000 of them. *)
Lemma score_on_result_grid rows a sa sb x y :
  In a rows ->
  scale_at_most 1000 (as_score a) ->
  weighted_scores_scale rows = Some sa ->
  on_grid (select_div_scale x sa y sb) (as_score a).
Proof.
  intros Hin Hs Hsa. unfold weighted_scores_scale in Hsa.
  destruct (max_scale_In _ _
              (product_scale (dscale (as_score a)) (dscale (as_weight a)))
              Hsa) as [d [Hd Hle]].
  { apply in_map_iff. exists a. split; [reflexivity | exact Hin]. }
  unfold scale_at_most in Hs.
  destruct (dscale (as_score a)) as [ds|] eqn:Es; [| discriminate].
  destruct (dscale (as_weight a)) as [dw|]; [| discriminate].
  injection Hd as <-.
  apply (on_grid_mono ds); [| now apply on_grid_dscale].
  pose proof (select_div_scale_bounds x sa y sb) as [B _]. lia.
Qed.

Lemma average_rows_positive assessments s subj t y v :
  Forall assessment_check assessments ->
  matching_assessments assessments s subj t y <> [] ->
  calculate_subject_average assessments s subj t y = Ok v ->
  let rows := matching_assessments assessments s subj t y in
  Forall (fun a => 0 <= as_weight a) rows
  /\ 0 < qsum (weights rows)
  /\ v = div_var (qsum (weighted_scores rows)) (weighted_scores_scale rows)
                 (qsum (weights rows)) (weights_scale rows).
Proof.
  intros Hchk Hne Hv rows.
  pose proof (calculate_subject_average_rows assessments s subj t y) as R.
  cbv zeta in R. rewrite R in Hv by exact Hne. fold rows in Hv.
  destruct (Qeq_bool (qsum (weights rows)) 0) eqn:B; [discriminate |].
  apply Ok_inj in Hv. subst v.
  assert (Hw : Forall (fun a => 0 <= as_weight a) rows).
  { pose proof (matching_assessments_check assessments s subj t y Hchk) as C.
    fold rows in C. revert C. apply Forall_impl. intros a Ha. apply Ha. }
  split; [exact Hw |]. split; [| reflexivity].
  assert (Hnn : 0 <= qsum (weights rows)).
  { apply qsum_nonneg. unfold weights. rewrite Forall_map. exact Hw. }
  apply Qle_lteq in Hnn. destruct Hnn as [Hlt | Heq]; [exact Hlt |].
  symmetry in Heq. apply Qeq_eq_bool in Heq. congruence.
Qed.

(** X1: Whenever some assessment matches and the function returns, the
    average lies between the lowest and the highest matching score,
    rounding included, provided no matching score is stored with more
    than 1000 decimal places (the largest result scale of a division). *)
Theorem average_between_scores assessments s subj t y lo hi v :
  Forall assessment_check assessments ->
  (forall a, In a (matching_assessments assessments s subj t y) ->
     lo <= as_score a /\ as_score a <= hi) ->
  (forall a, In a (matching_assessments assessments s subj t y) ->
     scale_at_most 1000 (as_score a)) ->
  matching_assessments assessments s subj t y <> [] ->
  calculate_subject_average assessments s subj t y = Ok v ->
  lo <= v /\ v <= hi.
Proof.
  intros Hchk Hs Hd Hne Hv.
  destruct (average_rows_positive _ _ _ _ _ _ Hchk Hne Hv)
    as [Hw [Hpos ->]].
  set (rows := matching_assessments assessments s subj t y) in *.
  destruct (extreme_rows rows Hw Hpos) as [a [b [Ha [Hb [La Ub]]]]].
  destruct (div_var_bounds (qsum (weighted_scores rows))
              (weighted_scores_scale rows) (qsum (weights rows))
              (weights_scale rows) (as_score a) (as_score b))
    as [L U].
  - intros sa sb Hsa Hsb. split.
    + exact (score_on_result_grid rows a sa sb _ _ Ha (Hd a Ha) Hsa).
    + exact (score_on_result_grid rows b sa sb _ _ Hb (Hd b Hb) Hsa).
  - apply Qle_shift_div_l; [exact Hpos | exact La].
  - apply Qle_shift_div_r; [exact Hpos | exact Ub].
  - destruct (Hs a Ha) as [Hlo _]. destruct (Hs b Hb) as [_ Hhi].
    split; [exact (Qle_trans _ _ _ Hlo L) | exact (Qle_trans _ _ _ U Hhi)].
Qed.

Lemma average_between_scores_witness :
  exists v,
    calculate_subject_average two_assessments 7%nat 3%nat 1%Z 2025%Z = Ok v
    /\ 60 <= v /\ v <= 80.
Proof.
  destruct (calculate_subject_average two_assessments 7%nat 3%nat 1%Z 2025%Z)
    as [v|e] eqn:H.
  - exists v. split; [reflexivity |].
    refine (average_between_scores two_assessments 7%nat 3%nat 1%Z 2025%Z
              60 80 v _ _ _ _ H).
    + repeat constructor; simpl; try lia; discriminate.
    + intros a [<- | [<- | []]]; split; discriminate.
    + intros a [<- | [<- | []]]; vm_compute; lia.
    + discriminate.
  - vm_compute in H. discriminate.
Defined.

(** The limit of 1000 decimal places is needed: a single assessment with
    the score 0.00...01 of 1001 decimal places averages to 0, below its
    only score, because no quotient keeps more than 1000 places. *)
Lemma average_below_a_score_of_1001_places :
  Forall assessment_check tiny_score_assessments
  /\ exists v,
       calculate_subject_average tiny_score_assessments 7%nat 3%nat 1%Z 2025%Z
       = Ok v
       /\ v == 0
       /\ Forall (fun a => v < as_score a) tiny_score_assessments.
Proof.
  split.
  - repeat constructor; try discriminate; try (cbn; lia).
  - eexists. split; [vm_compute; reflexivity |].
    split; [reflexivity |]. repeat constructor.
Qed.

(** X2: With the table's CHECK constraints in force, every value the function
    returns is a mark between 0 and 100, so it fits the columns
    [term_mark] and [year_to_date] of [report_card_subjects]. *)
Theorem average_is_a_mark assessments s subj t y v :
  Forall assessment_check assessments ->
  calculate_subject_average assessments s subj t y = Ok v ->
  0 <= v /\ v <= 100.
Proof.
  intros Hchk Hv.
  destruct (matching_assessments assessments s subj t y) as [|a0 rows0] eqn:E.
  - unfold calculate_subject_average in Hv. rewrite E in Hv.
    simpl in Hv. apply Ok_inj in Hv. subst v. split; discriminate.
  - assert (Hne : matching_assessments assessments s subj t y <> [])
      by (rewrite E; discriminate).
    destruct (average_rows_positive _ _ _ _ _ _ Hchk Hne Hv)
      as [Hw [Hpos ->]].
    set (rows := matching_assessments assessments s subj t y) in *.
    assert (Hs : Forall (fun a => 0 <= as_score a /\ as_score a <= 100) rows).
    { pose proof (matching_assessments_check assessments s subj t y Hchk) as C.
      fold rows in C. revert C. apply Forall_impl.
      intros a [_ [_ [_ [H0 H100]]]]. now split. }
    destruct (qsum_weighted_bounds rows 0 100 Hw Hs) as [B1 B2].
    apply div_var_bounds.
    + intros sa sb _ _. split.
      * apply (on_grid_integer _ 0).
      * apply (on_grid_integer _ 100).
    + apply Qle_shift_div_l; [exact Hpos | exact B1].
    + apply Qle_shift_div_r; [exact Hpos | exact B2].
Qed.

Lemma average_is_a_mark_witness :
  exists v,
    calculate_subject_average two_assessments 7%nat 3%nat 1%Z 2025%Z = Ok v
    /\ 0 <= v /\ v <= 100.
Proof.
  destruct (calculate_subject_average two_assessments 7%nat 3%nat 1%Z 2025%Z)
    as [v|e] eqn:H.
  - exists v. split; [reflexivity |].
    refine (average_is_a_mark two_assessments 7%nat 3%nat 1%Z 2025%Z v _ H).
    repeat constructor; simpl; try lia; discriminate.
  - vm_compute in H. discriminate.
Defined.

Lemma filter_map_commute {A B : Type} (f : B -> bool) (g : A -> B)
    (l : list A) :
  filter f (map g l) = map g (filter (fun x => f (g x)) l).
Proof.
  induction l as [|x l IH]; simpl; [reflexivity |].
  destruct (f (g x)); simpl; now rewrite IH.
Qed.

Lemma matching_scale_weight c assessments s subj t y :
  matching_assessments (map (scale_weight c) assessments) s subj t y
  = map (scale_weight c) (matching_assessments assessments s subj t y).
Proof.
  unfold matching_assessments. rewrite filter_map_commute.
  f_equal.
Qed.

Lemma qsum_scaled c (rows : list assessment) :
  qsum (weights (map (scale_weight c) rows)) == c * qsum (weights rows)
  /\ qsum (weighted_scores (map (scale_weight c) rows))
     == c * qsum (weighted_scores rows).
Proof.
  unfold weights, weighted_scores, qsum.
  induction rows as [|a rows [IH1 IH2]]; simpl.
  - split; ring.
  - rewrite IH1, IH2. split; ring.
Qed.

(** X3: Only the proportions of the weights matter, up to the rounding of
    the division: multiplying every weight by the same positive factor
    leaves the error as it is and moves the average by at most one unit
    of the 16th decimal place. *)
Theorem average_scale_invariant c assessments s subj t y :
  0 < c ->
  Forall assessment_check assessments ->
  close_outcomes (1 # 10000000000000000)
    (calculate_subject_average (map (scale_weight c) assessments) s subj t y)
    (calculate_subject_average assessments s subj t y).
Proof.
  intros Hc Hchk.
  destruct (matching_assessments assessments s subj t y) as [|a rows] eqn:E.
  - unfold calculate_subject_average.
    rewrite matching_scale_weight, E. cbn. discriminate.
  - pose proof (calculate_subject_average_rows assessments s subj t y) as R.
    pose proof (calculate_subject_average_rows
                  (map (scale_weight c) assessments) s subj t y) as R'.
    cbv zeta in R, R'. rewrite matching_scale_weight in R'.
    pose proof (matching_assessments_check assessments s subj t y Hchk) as C.
    rewrite E in R, R', C. rewrite R by discriminate.
    rewrite R' by discriminate.
    set (rows0 := a :: rows) in *.
    destruct (qsum_scaled c rows0) as [S1 S2].
    assert (Hw : Forall (fun a => 0 <= as_weight a) rows0).
    { revert C. apply Forall_impl. intros x Hx. apply Hx. }
    assert (Hs : Forall (fun a => 0 <= as_score a /\ as_score a <= 100) rows0).
    { revert C. apply Forall_impl. intros x [_ [_ [_ [H0 H100]]]]. now split. }
    destruct (qsum_weighted_bounds rows0 0 100 Hw Hs) as [B1 B2].
    assert (Hnn : 0 <= qsum (weights rows0)).
    { apply qsum_nonneg. unfold weights. now rewrite Forall_map. }
    destruct (Qeq_bool (qsum (weights rows0)) 0) eqn:B.
    + apply Qeq_bool_eq in B.
      assert (Z0 : qsum (weights (map (scale_weight c) rows0)) == 0)
        by (rewrite S1, B; ring).
      apply Qeq_eq_bool in Z0. rewrite Z0. reflexivity.
    + assert (Hpos : 0 < qsum (weights rows0)).
      { apply Qle_lteq in Hnn. destruct Hnn as [Hlt | Heq]; [exact Hlt |].
        symmetry in Heq. apply Qeq_eq_bool in Heq. congruence. }
      assert (Hpos' : 0 < qsum (weights (map (scale_weight c) rows0))).
      { rewrite S1. apply Qmult_lt_0_compat; assumption. }
      destruct (Qeq_bool (qsum (weights (map (scale_weight c) rows0))) 0)
        eqn:B'.
      { apply Qeq_bool_eq in B'. rewrite B' in Hpos'.
        exfalso. revert Hpos'. apply Qlt_irrefl. }
      cbn [close_outcomes].
      set (X := qsum (weighted_scores rows0)) in *.
      set (Y := qsum (weights rows0)) in *.
      set (X' := qsum (weighted_scores (map (scale_weight c) rows0))) in *.
      set (Y' := qsum (weights (map (scale_weight c) rows0))) in *.
      assert (Eq : X' / Y' == X / Y).
      { rewrite S1, S2. field. split; lra. }
      pose proof (div_var_accurate X (weighted_scores_scale rows0) Y
                    (weights_scale rows0) ltac:(lra) Hpos ltac:(lra)) as A.
      pose proof (div_var_accurate X'
                    (weighted_scores_scale (map (scale_weight c) rows0)) Y'
                    (weights_scale (map (scale_weight c) rows0))) as A'.
      assert (HX' : 0 <= X') by (rewrite S2; nra).
      assert (HXY' : X' <= 100 * Y') by (rewrite S1, S2; nra).
      specialize (A' HX' Hpos' HXY').
      apply Qabs_Qle_condition in A. apply Qabs_Qle_condition in A'.
      apply Qabs_Qle_condition.
      rewrite Eq in A'.
      change (- (1 # 20000000000000000)) with (-1 # 20000000000000000) in *.
      change (- (1 # 10000000000000000)) with (-1 # 10000000000000000).
      split; lra.
Qed.

Lemma average_scale_invariant_witness :
  close_outcomes (1 # 10000000000000000)
    (calculate_subject_average (map (scale_weight (1 # 1000)) thirds_assessments)
       7%nat 3%nat 1%Z 2025%Z)
    (calculate_subject_average thirds_assessments 7%nat 3%nat 1%Z 2025%Z).
Proof.
  apply (average_scale_invariant (1 # 1000) thirds_assessments
           7%nat 3%nat 1%Z 2025%Z).
  - reflexivity.
  - repeat constructor; simpl; try lia; discriminate.
Defined.


(** ** More on the number sequences *)

(** X4: While the next sequence number fits three digits (and the year four),
    [generate_invoice_number] returns INV-YYYY-NNN for it, a number no
    stored invoice carries, and once an invoice with that number is stored
    the next call returns the number after it. *)
Theorem invoice_numbers_advance today invoices k row :
  (1000 <= d_year today <= 9999)%Z ->
  next_number "INV-" (to_char_YYYY today) (map inv_number invoices) = Ok k ->
  (k <= 999)%Z ->
  inv_number row = invoice_number_of today k ->
  generate_invoice_number today invoices = Ok (invoice_number_of today k)
  /\ ~ In (invoice_number_of today k) (map inv_number invoices)
  /\ ((k + 1 <= 999)%Z ->
      generate_invoice_number today (invoices ++ [row])
      = Ok (invoice_number_of today (k + 1))).
Proof.
  intros Hy Hk Hle Hrow.
  destruct (generate_invoice_number_next today invoices k Hy Hk Hle)
    as [Hgen [Hfresh Hnext]].
  split; [exact Hgen |]. split; [exact Hfresh |].
  intros Hle'.
  assert (Hk' : next_number "INV-" (to_char_YYYY today)
                  (map inv_number (invoices ++ [row])) = Ok (k + 1)%Z).
  { rewrite map_app. cbn [map]. rewrite Hrow. exact Hnext. }
  exact (proj1 (generate_invoice_number_next today _ _ Hy Hk' Hle')).
Qed.

Lemma invoice_numbers_advance_witness :
  generate_invoice_number (mkDate 2025 6 1)
    ([ numbered_invoice "INV-2025-007" ] ++ [ numbered_invoice "INV-2025-008" ])
  = Ok (invoice_number_of (mkDate 2025 6 1) (8 + 1)).
Proof.
  refine (proj2 (proj2 (invoice_numbers_advance (mkDate 2025 6 1)
            [ numbered_invoice "INV-2025-007" ] 8%Z
            (numbered_invoice "INV-2025-008") _ _ _ _)) _).
  - simpl. lia.
  - vm_compute. reflexivity.
  - lia.
  - vm_compute. reflexivity.
  - lia.
Defined.

(** X5: The same for credit notes: CN-YYYY-NNN, not yet stored, then its
    successor. *)
Theorem credit_note_numbers_advance today credit_notes k row :
  (1000 <= d_year today <= 9999)%Z ->
  next_number "CN-" (to_char_YYYY today) (map cn_number credit_notes) = Ok k ->
  (k <= 999)%Z ->
  cn_number row = format_number "CN-" (to_char_YYYY today) 3 k ->
  generate_credit_note_number today credit_notes
    = Ok (format_number "CN-" (to_char_YYYY today) 3 k)
  /\ ~ In (format_number "CN-" (to_char_YYYY today) 3 k)
          (map cn_number credit_notes)
  /\ ((k + 1 <= 999)%Z ->
      generate_credit_note_number today (credit_notes ++ [row])
      = Ok (format_number "CN-" (to_char_YYYY today) 3 (k + 1))).
Proof.
  intros Hy Hk Hle Hrow.
  destruct (generate_credit_note_number_next today credit_notes k Hy Hk Hle)
    as [Hgen Hfresh].
  split; [exact Hgen |]. split; [exact Hfresh |].
  intros Hle'.
  assert (Hk' : next_number "CN-" (to_char_YYYY today)
                  (map cn_number (credit_notes ++ [row])) = Ok (k + 1)%Z).
  { rewrite map_app. cbn [map]. rewrite Hrow.
    apply (next_number_issue "CN-" (to_char_YYYY today) 3 999
             (year_four_digits today Hy) ltac:(lia) reads_back_3 _ _ Hk Hle). }
  exact (proj1 (generate_credit_note_number_next today _ _ Hy Hk' Hle')).
Qed.

Lemma credit_note_numbers_advance_witness :
  generate_credit_note_number (mkDate 2025 6 1)
    ([ numbered_credit_note "CN-2025-041" ]
     ++ [ numbered_credit_note "CN-2025-042" ])
  = Ok (format_number "CN-" (to_char_YYYY (mkDate 2025 6 1)) 3 (42 + 1)).
Proof.
  refine (proj2 (proj2 (credit_note_numbers_advance (mkDate 2025 6 1)
            [ numbered_credit_note "CN-2025-041" ] 42%Z
            (numbered_credit_note "CN-2025-042") _ _ _ _)) _).
  - simpl. lia.
  - vm_compute. reflexivity.
  - lia.
  - vm_compute. reflexivity.
  - lia.
Defined.

Lemma filter_none {A : Type} (f : A -> bool) (l : list A) :
  (forall x, In x l -> f x = false) -> filter f l = [].
Proof.
  induction l as [|x l IH]; intros H; simpl; [reflexivity |].
  rewrite (H x) by now left. apply IH. intros y Hy. apply H. now right.
Qed.

Lemma first_invoice_number_of_year today invoices :
  (forall i, In i invoices ->
     LIKE_prefix ("INV-" ++ to_char_YYYY today ++ "-") (inv_number i) = false) ->
  generate_invoice_number today invoices
  = Ok ("INV-" ++ to_char_YYYY today ++ "-001")%string.
Proof.
  intros H. unfold generate_invoice_number, next_number.
  rewrite filter_none; [reflexivity |].
  intros s Hs. apply in_map_iff in Hs. destruct Hs as [i [<- Hi]].
  now apply H.
Qed.

(** X6: The sequence restarts every year: when no stored number begins with
    the prefix and the current year, the generators return number 001,
    whatever the numbers of other years are. *)
Theorem numbering_restarts_each_year today invoices credit_notes :
  ((forall i, In i invoices ->
      LIKE_prefix ("INV-" ++ to_char_YYYY today ++ "-") (inv_number i) = false) ->
   generate_invoice_number today invoices
   = Ok ("INV-" ++ to_char_YYYY today ++ "-001")%string)
  /\ ((forall c, In c credit_notes ->
         LIKE_prefix ("CN-" ++ to_char_YYYY today ++ "-") (cn_number c) = false) ->
      generate_credit_note_number today credit_notes
      = Ok ("CN-" ++ to_char_YYYY today ++ "-001")%string).
Proof.
  split; intros H.
  - now apply first_invoice_number_of_year.
  - unfold generate_credit_note_number, next_number.
    rewrite filter_none; [reflexivity |].
    intros s Hs. apply in_map_iff in Hs. destruct Hs as [c [<- Hc]].
    now apply H.
Qed.

(** X7: A number built by the generators is read back by their own pattern:
    it passes the LIKE filter of its year and the captured digits cast to
    the sequence number it was built from. *)
Theorem generated_number_reads_back lit today n :
  (1000 <= d_year today <= 9999)%Z ->
  (0 <= n <= 999)%Z ->
  LIKE_prefix (lit ++ to_char_YYYY today ++ "-")
              (format_number lit (to_char_YYYY today) 3 n) = true
  /\ extract_sequence lit (format_number lit (to_char_YYYY today) 3 n)
     = Ok (Some n).
Proof.
  intros Hy Hn. split.
  - apply LIKE_prefix_formatted.
  - apply extract_sequence_formatted.
    + now apply year_four_digits.
    + now apply reads_back_3.
    + lia.
Qed.

Lemma generated_number_reads_back_witness :
  extract_sequence "INV-"
    (format_number "INV-" (to_char_YYYY (mkDate 2025 6 1)) 3 42)
  = Ok (Some 42%Z).
Proof.
  refine (proj2 (generated_number_reads_back "INV-" (mkDate 2025 6 1) 42 _ _));
    simpl; lia.
Defined.

Lemma max_sequence_raises lit l s e :
  In s l -> extract_sequence lit s = Raise e ->
  exists e', max_sequence lit l = Raise e'.
Proof.
  induction l as [|a l IH]; intros Hin He; [destruct Hin |].
  simpl. destruct Hin as [-> | Hin].
  - rewrite He. simpl. now exists e.
  - destruct (extract_sequence lit a) as [va|ea]; simpl; [| now exists ea].
    destruct (IH Hin He) as [e' ->]. simpl. now exists e'.
Qed.

Lemma max_sequence_error lit l e :
  max_sequence lit l = Raise e -> e = numeric_value_out_of_range.
Proof.
  induction l as [|a l IH]; simpl; [discriminate |].
  destruct (extract_sequence lit a) as [va|ea] eqn:Ea; simpl.
  - destruct (max_sequence lit l) as [m|em]; simpl; [discriminate |].
    intros H. injection H as <-. now apply IH.
  - intros H. injection H as <-.
    unfold extract_sequence in Ea.
    destruct (regex_substring lit a) as [ds|]; [| discriminate].
    unfold cast_integer in Ea.
    destruct (digits_value 0 ds <=? int4_max)%Z; simpl in Ea;
      [discriminate | now injection Ea as <-].
Qed.

(** X8: One stored number of the current year whose digits do not fit an
    [integer] stops the generator: every call raises
    numeric_value_out_of_range. *)
Theorem oversized_number_blocks_generation today invoices i ds :
  In i invoices ->
  LIKE_prefix ("INV-" ++ to_char_YYYY today ++ "-") (inv_number i) = true ->
  regex_substring "INV-" (inv_number i) = Some ds ->
  (int4_max < digits_value 0 ds)%Z ->
  generate_invoice_number today invoices = Raise numeric_value_out_of_range.
Proof.
  intros Hin Hlike Hre Hbig.
  assert (He : extract_sequence "INV-" (inv_number i)
               = Raise numeric_value_out_of_range).
  { unfold extract_sequence. rewrite Hre. unfold cast_integer.
    assert (L : (digits_value 0 ds <=? int4_max)%Z = false)
      by (apply Z.leb_gt; exact Hbig).
    now rewrite L. }
  assert (Hin' : In (inv_number i)
                    (filter (LIKE_prefix ("INV-" ++ to_char_YYYY today ++ "-"))
                            (map inv_number invoices))).
  { apply filter_In. split; [now apply in_map | exact Hlike]. }
  destruct (max_sequence_raises _ _ _ _ Hin' He) as [e' He'].
  pose proof (max_sequence_error _ _ _ He') as ->.
  unfold generate_invoice_number, next_number. rewrite He'. reflexivity.
Qed.

Lemma oversized_number_blocks_generation_witness :
  generate_invoice_number (mkDate 2025 6 1)
    [ numbered_invoice "INV-2025-001";
      numbered_invoice "INV-2025-99999999999" ]
  = Raise numeric_value_out_of_range.
Proof.
  refine (oversized_number_blocks_generation (mkDate 2025 6 1) _
            (numbered_invoice "INV-2025-99999999999") "99999999999" _ _ _ _).
  - right. left. reflexivity.
  - vm_compute. reflexivity.
  - vm_compute. reflexivity.
  - vm_compute. reflexivity.
Defined.


(** ** The totals trigger touches one document only *)

Lemma update_invoice_totals_pointwise now NEW invoices items :
  Forall2 (fun old new =>
             invoice_header new = invoice_header old
             /\ (sql_eq (Some (inv_id old)) (NEW_document_id NEW) = false ->
                 new = old))
          invoices (update_invoice_totals now NEW invoices items).
Proof.
  unfold update_invoice_totals. rewrite map_map.
  induction invoices as [|i l IH]; cbn [map]; constructor; [| exact IH].
  destruct (sql_eq (Some (inv_id i)) (NEW_document_id NEW)) eqn:E.
  - cbn [set_invoice_subtotal inv_id]. rewrite E.
    split; [reflexivity | discriminate].
  - rewrite E. split; reflexivity.
Qed.

Lemma update_credit_note_totals_pointwise now NEW credit_notes items :
  Forall2 (fun old new =>
             (cn_id new = cn_id old /\ cn_number new = cn_number old
              /\ cn_tax_rate new = cn_tax_rate old
              /\ cn_status new = cn_status old)
             /\ (sql_eq (Some (cn_id old)) (NEW_document_id NEW) = false ->
                 new = old))
          credit_notes
          (update_credit_note_totals now NEW credit_notes items).
Proof.
  unfold update_credit_note_totals. rewrite map_map.
  induction credit_notes as [|c l IH]; cbn [map]; constructor; [| exact IH].
  destruct (sql_eq (Some (cn_id c)) (NEW_document_id NEW)) eqn:E.
  - cbn [set_credit_note_subtotal cn_id]. rewrite E.
    split; [repeat split | discriminate].
  - rewrite E. split; [repeat split | reflexivity].
Qed.

(** X9: The trigger writes subtotal, tax_amount, total and updated_at of the
    document that [NEW] refers to and nothing else: every other document
    stays as it is, row by row, and no document changes its id, number,
    tax rate or status. *)
Theorem totals_trigger_frame now NEW items invoices credit_notes :
  Forall2 (fun old new =>
             invoice_header new = invoice_header old
             /\ (sql_eq (Some (inv_id old)) (NEW_document_id NEW) = false ->
                 new = old))
          invoices (update_invoice_totals now NEW invoices items)
  /\ Forall2 (fun old new =>
                (cn_id new = cn_id old /\ cn_number new = cn_number old
                 /\ cn_tax_rate new = cn_tax_rate old
                 /\ cn_status new = cn_status old)
                /\ (sql_eq (Some (cn_id old)) (NEW_document_id NEW) = false ->
                    new = old))
             credit_notes
             (update_credit_note_totals now NEW credit_notes items).
Proof.
  split.
  - apply update_invoice_totals_pointwise.
  - apply update_credit_note_totals_pointwise.
Qed.

(** ** The invoice form *)

Lemma Forall2_trans_frame (k : uuid) (l1 l2 l3 : list invoice) :
  Forall2 (fun old new => invoice_header new = invoice_header old
                          /\ (inv_id old <> k -> new = old)) l1 l2 ->
  Forall2 (fun old new => invoice_header new = invoice_header old
                          /\ (inv_id old <> k -> new = old)) l2 l3 ->
  Forall2 (fun old new => invoice_header new = invoice_header old
                          /\ (inv_id old <> k -> new = old)) l1 l3.
Proof.
  intros H. revert l3. induction H as [|a b l1 l2 [Hh Hf] _ IH]; intros l3 H3.
  - inversion H3. constructor.
  - inversion H3 as [|? c ? l3' [Hh' Hf'] H3']; subst. constructor.
    + split; [congruence |]. intros Hk.
      assert (b = a) by now apply Hf. subst b. now apply Hf'.
    + now apply IH.
Qed.

Lemma update_invoice_totals_frame_id now row invoices items k :
  li_document_id row = Some k ->
  Forall2 (fun old new => invoice_header new = invoice_header old
                          /\ (inv_id old <> k -> new = old))
          invoices (update_invoice_totals now (Some row) invoices items).
Proof.
  intros Hk.
  pose proof (update_invoice_totals_pointwise now (Some row) invoices items) as P.
  revert P. apply Forall2_impl. intros old new [Hh Hf]. split; [exact Hh |].
  intros Hne. apply Hf. cbn [NEW_document_id]. rewrite Hk. cbn [sql_eq].
  now apply Nat.eqb_neq.
Qed.

Lemma Forall2_refl_frame (k : uuid) (l : list invoice) :
  Forall2 (fun old new => invoice_header new = invoice_header old
                          /\ (inv_id old <> k -> new = old)) l l.
Proof. induction l; constructor; [now split | assumption]. Qed.

(** The rows of one INSERT that all belong to document [k]. *)
Lemma fold_update_totals now rows invoices items k :
  Forall (fun r => li_document_id r = Some k) rows ->
  let res := fold_left
               (fun invs row => update_invoice_totals now (Some row) invs items)
               rows invoices in
  Forall2 (fun old new => invoice_header new = invoice_header old
                          /\ (inv_id old <> k -> new = old)) invoices res
  /\ (rows <> [] ->
      forall i, In i res -> inv_id i = k -> invoice_totals_stored items i).
Proof.
  intros Hrows. cbv zeta. split.
  - revert invoices. induction Hrows as [|r rows Hr _ IH]; intros invoices.
    + apply Forall2_refl_frame.
    + cbn [fold_left].
      eapply Forall2_trans_frame; [| apply IH].
      now apply update_invoice_totals_frame_id.
  - intros Hne i Hin Hid.
    destruct (exists_last Hne) as [l [x E]]. subst rows.
    rewrite fold_left_app in Hin. cbn [fold_left] in Hin.
    apply (update_invoice_totals_ok _ _ _ _ _ Hin).
    rewrite Forall_forall in Hrows. rewrite Hid. apply Hrows.
    apply in_or_app. right. now left.
Qed.

Lemma assign_ids_map (f : uuid -> item_payload -> uuid -> line_item)
    (k : uuid) (items : list item_payload) (next : uuid) :
  (forall it id, li_document_id (f k it id) = Some k) ->
  (forall it id, li_amount (f k it id) = ip_amount it) ->
  Forall (fun r => li_document_id r = Some k)
         (assign_ids next (map (f k) items))
  /\ map li_amount (assign_ids next (map (f k) items)) = map ip_amount items.
Proof.
  intros Hd Ha. revert next. induction items as [|it items IH]; intros next.
  - split; [constructor | reflexivity].
  - destruct (IH (S next)) as [IH1 IH2]. cbn [map assign_ids]. split.
    + constructor; [apply Hd | exact IH1].
    + now rewrite Ha, IH2.
Qed.

Lemma items_of_fresh items (k : uuid) rows :
  Forall (fun it => match li_document_id it with
                    | Some j => (j < k)%nat
                    | None => True
                    end) items ->
  Forall (fun r => li_document_id r = Some k) rows ->
  items_of (items ++ rows) (Some k) = rows.
Proof.
  intros Hold Hnew. unfold items_of. rewrite filter_app.
  rewrite filter_none, filter_all; [reflexivity | |].
  - revert Hnew. apply Forall_impl. intros r ->. cbn. apply Nat.eqb_refl.
  - intros it Hit. rewrite Forall_forall in Hold. specialize (Hold it Hit).
    destruct (li_document_id it) as [j|]; [| reflexivity].
    cbn. apply Nat.eqb_neq. lia.
Qed.

Lemma Forall2_frame_unchanged (k : uuid) (l l' : list invoice) :
  Forall (fun i => inv_id i <> k) l ->
  Forall2 (fun old new => invoice_header new = invoice_header old
                          /\ (inv_id old <> k -> new = old)) l l' ->
  l' = l.
Proof.
  intros Hne H. induction H as [|a b l l' [_ Hf] _ IH]; [reflexivity |].
  inversion Hne as [|? ? Ha Hne']; subst.
  rewrite (Hf Ha), (IH Hne'). reflexivity.
Qed.

(** X10: When the form goes through, exactly one invoice is added, a draft of
    the signed-in user with a number no stored invoice carries; the
    invoices already stored are unchanged; and the new invoice holds
    subtotal = sum of the amounts sent, tax_amount = subtotal * f with f
    the quotient tax / 100 as the division returns it (tax / 100 itself
    for a rate of at most 14 decimal places below 10000), and
    total = subtotal + tax_amount, also for an empty list of items. *)
Theorem submit_invoice_stores_totals user now pl items db db' :
  ids_below db ->
  submit_invoice user now pl items db = Ok db' ->
  exists new,
    db_invoices db' = (db_invoices db ++ [new])%list
    /\ ~ In (inv_number new) (map inv_number (db_invoices db))
    /\ inv_user_id new = Some user /\ inv_status new = draft
    /\ inv_client_id new = pl_client_id pl /\ inv_date new = pl_date pl
    /\ inv_due_date new = pl_due_date pl /\ inv_tax_rate new = pl_tax pl
    /\ inv_subtotal new == qsum (map ip_amount items)
    /\ inv_tax_amount new == inv_subtotal new * tax_fraction (pl_tax pl)
    /\ (plain_rate (pl_tax pl) ->
        inv_tax_amount new == inv_subtotal new * (pl_tax pl / 100))
    /\ inv_total new == inv_subtotal new + inv_tax_amount new.
Proof.
  intros [Hinv Hitems] H. unfold submit_invoice in H.
  destruct (rpc_generate_invoice_number (Some user) (timestamp_to_date now)
              (db_invoices db)) as [number|] eqn:G; [| discriminate].
  cbn [bind] in H. unfold insert_invoice in H. cbn [inv_number] in H.
  destruct (existsb (String.eqb number) (map inv_number (db_invoices db)))
    eqn:X; [discriminate |].
  cbn [bind] in H. apply Ok_inj in H. subst db'.
  unfold insert_invoice_items.
  cbn [db_invoices db_invoice_items db_next_id db_recurring_invoices].
  set (k := db_next_id db).
  set (row0 := mkInvoice k number (pl_client_id pl) (pl_date pl)
                 (pl_due_date pl) 0 (pl_tax pl) 0 0 draft
                 (pl_currency_code pl) (Some user) now).
  set (rows := assign_ids (S k) (map (item_row k) items)).
  set (items' := (db_invoice_items db ++ rows)%list).
  destruct (assign_ids_map item_row k items (S k)
              ltac:(reflexivity) ltac:(reflexivity)) as [Hdoc Hamt].
  fold rows in Hdoc, Hamt.
  destruct (fold_update_totals now rows (db_invoices db ++ [row0])%list
              items' k Hdoc) as [Hframe Hok].
  cbv zeta in Hframe, Hok.
  set (res := fold_left
                (fun invs row => update_invoice_totals now (Some row) invs items')
                rows (db_invoices db ++ [row0])%list) in *.
  apply Forall2_app_inv_l in Hframe.
  destruct Hframe as [old' [new' [Hold [Hnew Hres]]]].
  assert (Eold : old' = db_invoices db).
  { apply (Forall2_frame_unchanged k); [| exact Hold].
    revert Hinv. apply Forall_impl. intros i Hi. fold k in Hi. lia. }
  inversion Hnew as [|? new ? rest [Hh _] Hrest]; subst.
  inversion Hrest; subst.
  exists new. split; [rewrite Hres; reflexivity |].
  unfold invoice_header in Hh. injection Hh as Hid Hnum Hcl Hd Hdd Htr Hst _ Hu.
  cbn in Hid, Hnum, Hcl, Hd, Hdd, Htr, Hst, Hu.
  split.
  { rewrite Hnum. intros Hin. apply existsb_eqb_In in Hin. congruence. }
  repeat (split; [assumption |]).
  destruct items as [|it items0] eqn:Eit.
  - (* no item: no trigger runs, the invoice keeps its zeros *)
    cbn in res. subst res.
    apply app_inj_tail in Hres. destruct Hres as [_ <-].
    unfold row0. cbn [inv_subtotal inv_tax_amount inv_total map].
    split; [reflexivity |]. split; [ring |].
    split; [intros _; ring | reflexivity].
  - assert (Hne : rows <> []) by (subst rows; discriminate).
    assert (Hin : In new res).
    { rewrite Hres. apply in_or_app. right. now left. }
    destruct (Hok Hne new Hin Hid) as [Hs [Ht Htot]].
    rewrite Htr in Ht.
    split; [| split; [exact Ht | split; [| exact Htot]]].
    + rewrite Hs, Hid. subst items'.
      rewrite (items_of_fresh _ k rows Hitems Hdoc), Hamt. reflexivity.
    + intros Hp. rewrite Ht, (tax_fraction_exact _ Hp). reflexivity.
Qed.

Lemma submit_invoice_stores_totals_witness :
  exists db' new,
    submit_invoice 9%nat (noon 2025 6 1)
      (mkInvoicePayload 5%nat (mkDate 2025 6 1) (mkDate 2025 6 15) 15 "ZAR")
      [ mkItemPayload "Tuition" 1 100 100; mkItemPayload "Books" 2 25 50 ]
      empty_database = Ok db'
    /\ db_invoices db' = [ new ]
    /\ inv_subtotal new == 150.
Proof.
  destruct (submit_invoice 9%nat (noon 2025 6 1)
      (mkInvoicePayload 5%nat (mkDate 2025 6 1) (mkDate 2025 6 15) 15 "ZAR")
      [ mkItemPayload "Tuition" 1 100 100; mkItemPayload "Books" 2 25 50 ]
      empty_database) as [db'|e] eqn:H.
  - assert (Hb : ids_below empty_database) by (split; constructor).
    destruct (submit_invoice_stores_totals _ _ _ _ _ _ Hb H)
      as [new [Hdb [_ [_ [_ [_ [_ [_ [_ [Hs _]]]]]]]]]].
    exists db', new. split; [reflexivity |]. split; [exact Hdb |].
    rewrite Hs. reflexivity.
  - vm_compute in H. discriminate.
Defined.

Lemma visible_invoices_In user invoices i :
  In i (visible_invoices (Some user) invoices)
  <-> In i invoices /\ inv_user_id i = Some user.
Proof.
  unfold visible_invoices. rewrite filter_In. split; intros [H1 H2];
    (split; [exact H1 |]).
  - apply sql_eq_true in H2. destruct H2 as [x [Hx Hy]].
    injection Hx as <-. exact Hy.
  - rewrite H2. cbn. apply Nat.eqb_refl.
Qed.

(** X11: The number is computed from the caller's invoices, the UNIQUE
    constraint holds over everybody's: a user without an invoice numbered
    for this year is given INV-YYYY-001, and when any stored invoice (of
    another user) carries that number the form fails with
    unique_violation. *)
Theorem first_number_collides_across_users user now pl items db other :
  (forall i, In i (db_invoices db) -> inv_user_id i = Some user ->
     LIKE_prefix ("INV-" ++ to_char_YYYY (timestamp_to_date now) ++ "-")
                 (inv_number i) = false) ->
  In other (db_invoices db) ->
  inv_number other
    = ("INV-" ++ to_char_YYYY (timestamp_to_date now) ++ "-001")%string ->
  rpc_generate_invoice_number (Some user) (timestamp_to_date now)
    (db_invoices db) = Ok (inv_number other)
  /\ submit_invoice user now pl items db = Raise unique_violation.
Proof.
  intros Hown Hin Hnum.
  assert (G : rpc_generate_invoice_number (Some user) (timestamp_to_date now)
                (db_invoices db) = Ok (inv_number other)).
  { unfold rpc_generate_invoice_number.
    rewrite Hnum.
    apply first_invoice_number_of_year.
    intros i Hi. apply visible_invoices_In in Hi. destruct Hi as [Hi Hu].
    now apply Hown. }
  split; [exact G |].
  unfold submit_invoice. rewrite G. cbn [bind].
  unfold insert_invoice. cbn [inv_number].
  assert (X : existsb (String.eqb (inv_number other))
                      (map inv_number (db_invoices db)) = true).
  { apply existsb_eqb_In. now apply in_map. }
  rewrite X. reflexivity.
Qed.

Lemma first_number_collides_across_users_witness :
  submit_invoice 4%nat (noon 2025 6 1)
    (mkInvoicePayload 6%nat (mkDate 2025 6 1) (mkDate 2025 6 15) 15 "ZAR")
    [ mkItemPayload "Tuition" 1 100 100 ]
    (mkDatabase [ numbered_invoice "INV-2025-001" ] [] [] 2)
  = Raise unique_violation.
Proof.
  refine (proj2 (first_number_collides_across_users 4%nat (noon 2025 6 1)
            _ _ (mkDatabase [ numbered_invoice "INV-2025-001" ] [] [] 2)
            (numbered_invoice "INV-2025-001") _ _ _)).
  - intros i [<- | []] Hu. discriminate Hu.
  - left. reflexivity.
  - reflexivity.
Defined.


(** ** More on recurring invoices *)

Lemma date_ltb_trans (a b c : date) :
  date_ltb a b = true -> date_ltb b c = true -> date_ltb a c = true.
Proof. intros H1 H2. date_cases. Qed.

Lemma date_ltb_irrefl (a : date) : date_ltb a a = false.
Proof. unfold date_ltb, date_compare. now rewrite !Z.compare_refl. Qed.

Lemma date_ltb_not_eqb (a b : date) :
  date_ltb a b = true -> date_ltb b a = false /\ date_eqb b a = false.
Proof. intros H. split; date_cases. Qed.

Lemma next_day_later (d : date) : date_ltb d (next_day d) = true.
Proof.
  unfold next_day.
  destruct (Z.ltb_spec (d_day d) (days_in_month (d_year d) (d_month d)));
    [| destruct (Z.ltb_spec (d_month d) 12)];
    unfold date_ltb, date_compare; cbn [d_year d_month d_day];
    repeat match goal with
           | |- context [(?x ?= ?y)%Z] => destruct (Z.compare_spec x y)
           end; try reflexivity; lia.
Qed.

Lemma add_days_later (n : nat) (d : date) :
  date_ltb d (add_days (S n) d) = true.
Proof.
  unfold add_days. induction n as [|n IH].
  - apply next_day_later.
  - cbn [Nat.iter] in *. eapply date_ltb_trans; [exact IH |].
    apply next_day_later.
Qed.

Lemma add_months_later (k : Z) (d : date) :
  (0 < k)%Z -> (1 <= d_month d <= 12)%Z ->
  date_ltb d (add_months k d) = true.
Proof.
  intros Hk Hm. unfold add_months.
  set (t := (d_year d * 12 + (d_month d - 1) + k)%Z).
  pose proof (Z.mod_pos_bound t 12 ltac:(lia)) as Hmod.
  pose proof (Z.div_mod t 12 ltac:(lia)) as Hdiv.
  unfold date_ltb, date_compare. cbn [d_year d_month d_day].
  repeat match goal with
         | |- context [(?x ?= ?y)%Z] => destruct (Z.compare_spec x y)
         end; try reflexivity; lia.
Qed.

(** The date of a timestamp plus a period is later than its own date. *)
Lemma period_later (ts : timestamptz) (f : frequency) :
  (1 <= d_month (ts_date ts) <= 12)%Z ->
  date_ltb (ts_date ts) (ts_date (timestamp_pl_interval ts (period f))) = true.
Proof.
  intros Hm. unfold timestamp_pl_interval.
  destruct f; cbn [period iv_months iv_days Z.eqb ts_date].
  - apply add_days_later.
  - now apply add_months_later.
  - now apply add_months_later.
  - now apply add_months_later.
Qed.

Lemma next_invoice_date_of_last (r : recurring_invoice) (ts : timestamptz) :
  rc_last_generated r = Some ts ->
  next_invoice_date r
  = ts_date (timestamp_pl_interval ts (period (rc_frequency r))).
Proof.
  intros H. unfold next_invoice_date. rewrite H. reflexivity.
Qed.

(** X12: For a template that has been generated before, the selection compares
    the date its next invoice will carry with today: when last_generated
    is exactly midnight the template is due from that date on; when
    last_generated has any later time of day it is due only from the day
    after that date. *)
Theorem due_only_after_the_invoice_date now r ts :
  rc_status r = active ->
  rc_last_generated r = Some ts ->
  (0 <= ts_time ts)%Z ->
  is_due now r
  = (if (0 <? ts_time ts)%Z
     then date_ltb (next_invoice_date r) (timestamp_to_date now)
     else date_leb (next_invoice_date r) (timestamp_to_date now))
    && match rc_end_date r with
       | None => true
       | Some e => date_leb (timestamp_to_date now) e
       end.
Proof.
  intros Hs Hl Ht. unfold is_due. rewrite Hs, Hl.
  rewrite (next_invoice_date_of_last r ts Hl).
  cbn [recurring_status_eqb andb]. f_equal.
  unfold timestamp_leb, timestamp_to_date, date_to_timestamp.
  cbn [ts_date ts_time]. unfold timestamp_pl_interval at 3. cbn [ts_time].
  set (d := ts_date (timestamp_pl_interval ts (period (rc_frequency r)))).
  set (today := ts_date now).
  destruct (Z.ltb_spec 0 (ts_time ts)) as [Hpos | Hzero].
  - assert (L : (ts_time ts <=? 0)%Z = false) by (apply Z.leb_gt; lia).
    rewrite L, andb_false_r, orb_false_r. reflexivity.
  - assert (L : (ts_time ts <=? 0)%Z = true) by (apply Z.leb_le; lia).
    rewrite L, andb_true_r. clear. date_cases.
Qed.

Lemma due_only_after_the_invoice_date_witness :
  is_due (midnight 2025 2 8)
    (template 1 weekly (mkDate 2025 1 6) None active (Some (noon 2025 2 1)))
  = false
  /\ is_due (midnight 2025 2 9)
       (template 1 weekly (mkDate 2025 1 6) None active (Some (noon 2025 2 1)))
     = true.
Proof.
  split.
  - rewrite (due_only_after_the_invoice_date (midnight 2025 2 8)
               (template 1 weekly (mkDate 2025 1 6) None active
                  (Some (noon 2025 2 1)))
               (noon 2025 2 1) eq_refl eq_refl ltac:(simpl; lia)).
    reflexivity.
  - rewrite (due_only_after_the_invoice_date (midnight 2025 2 9)
               (template 1 weekly (mkDate 2025 1 6) None active
                  (Some (noon 2025 2 1)))
               (noon 2025 2 1) eq_refl eq_refl ltac:(simpl; lia)).
    reflexivity.
Defined.

Lemma is_due_same_day now now2 r :
  timestamp_to_date now2 = timestamp_to_date now ->
  is_due now2 r = is_due now r.
Proof. intros H. unfold is_due. now rewrite H. Qed.

Lemma served_not_due now now2 r :
  (1 <= d_month (timestamp_to_date now) <= 12)%Z ->
  timestamp_to_date now2 = timestamp_to_date now ->
  is_due now2 (set_last_generated now r) = false.
Proof.
  intros Hm Hd. unfold is_due. cbn [set_last_generated rc_status
    rc_last_generated rc_frequency rc_end_date].
  rewrite Hd.
  assert (L : timestamp_leb
                (timestamp_pl_interval now (period (rc_frequency r)))
                (date_to_timestamp (timestamp_to_date now)) = false).
  { unfold timestamp_leb, date_to_timestamp, timestamp_to_date in *.
    cbn [ts_date ts_time].
    destruct (date_ltb_not_eqb _ _ (period_later now (rc_frequency r) Hm))
      as [L1 L2].
    now rewrite L1, L2. }
  rewrite L. now rewrite andb_false_r.
Qed.

(** X13: Running the job again on the same day does nothing: after a run that
    returned, a second run whose CURRENT_DATE is the same selects no
    template and returns the database unchanged. *)
Theorem second_run_same_day_is_idle now now2 db db' :
  valid_date (timestamp_to_date now) ->
  timestamp_to_date now2 = timestamp_to_date now ->
  generate_recurring_invoices now db = Ok db' ->
  generate_recurring_invoices now2 db' = Ok db'.
Proof.
  intros [Hm _] Hd H. unfold generate_recurring_invoices in *.
  destruct (fold_round_effect _ _ _ _ H) as [Hr _].
  rewrite filter_none; [reflexivity |].
  intros r' Hin. rewrite Hr in Hin. apply in_map_iff in Hin.
  destruct Hin as [r [<- Hin]].
  destruct (touched (filter (is_due now) (db_recurring_invoices db)) r) eqn:T.
  - now apply served_not_due.
  - rewrite (is_due_same_day now now2 r Hd).
    destruct (is_due now r) eqn:E; [| reflexivity].
    assert (T' : touched (filter (is_due now) (db_recurring_invoices db)) r
                 = true); [| congruence].
    unfold touched. apply existsb_exists. exists r. split.
    + apply filter_In. now split.
    + apply Nat.eqb_refl.
Qed.

Lemma second_run_same_day_is_idle_witness :
  exists db',
    generate_recurring_invoices (noon 2025 2 1)
      (mkDatabase [] [] two_templates 10) = Ok db'
    /\ generate_recurring_invoices (mkTimestamp (mkDate 2025 2 1) 86399000000)
         db' = Ok db'.
Proof.
  destruct (generate_recurring_invoices (noon 2025 2 1)
              (mkDatabase [] [] two_templates 10)) as [db'|e] eqn:H.
  - exists db'. split; [reflexivity |].
    refine (second_run_same_day_is_idle (noon 2025 2 1) _ _ _ _ _ H).
    + split; split; vm_compute; intros C; discriminate C.
    + reflexivity.
  - vm_compute in H. discriminate.
Defined.


Lemma invoice_header_eq (a b : invoice) :
  invoice_header a = invoice_header b ->
  inv_id a = inv_id b /\ inv_number a = inv_number b
  /\ inv_client_id a = inv_client_id b /\ inv_date a = inv_date b
  /\ inv_due_date a = inv_due_date b /\ inv_tax_rate a = inv_tax_rate b
  /\ inv_status a = inv_status b
  /\ inv_currency_code a = inv_currency_code b
  /\ inv_user_id a = inv_user_id b.
Proof.
  destruct a, b. unfold invoice_header. cbn. intros H.
  injection H as -> -> -> -> -> -> -> -> ->. repeat split.
Qed.

(** A fresh invoice with zero totals and the rows inserted for it. *)
Lemma new_invoice_totals now (k : uuid) row0 rows invoices items :
  Forall (fun i => (inv_id i < k)%nat) invoices ->
  Forall (fun it => match li_document_id it with
                    | Some j => (j < k)%nat
                    | None => True
                    end) items ->
  inv_id row0 = k ->
  inv_subtotal row0 = 0 -> inv_tax_amount row0 = 0 -> inv_total row0 = 0 ->
  Forall (fun r => li_document_id r = Some k) rows ->
  exists new,
    fold_left (fun invs row =>
                 update_invoice_totals now (Some row) invs (items ++ rows))
              rows (invoices ++ [row0])
    = invoices ++ [new]
    /\ invoice_header new = invoice_header row0
    /\ inv_subtotal new == qsum (map li_amount rows)
    /\ inv_tax_amount new == inv_subtotal new * tax_fraction (inv_tax_rate row0)
    /\ inv_total new == inv_subtotal new + inv_tax_amount new.
Proof.
  intros Hinv Hitems Hid H0 H1 H2 Hdoc.
  destruct (fold_update_totals now rows (invoices ++ [row0]) (items ++ rows)
              k Hdoc) as [Hframe Hok].
  cbv zeta in Hframe, Hok.
  set (res := fold_left
                (fun invs row =>
                   update_invoice_totals now (Some row) invs (items ++ rows))
                rows (invoices ++ [row0])) in *.
  apply Forall2_app_inv_l in Hframe.
  destruct Hframe as [old' [new' [Hold [Hnew Hres]]]].
  assert (Eold : old' = invoices).
  { apply (Forall2_frame_unchanged k); [| exact Hold].
    revert Hinv. apply Forall_impl. intros i Hi. lia. }
  inversion Hnew as [|? new ? rest [Hh _] Hrest]; subst old' new'.
  inversion Hrest; subst rest.
  exists new. split; [exact Hres |]. split; [exact Hh |].
  destruct (invoice_header_eq _ _ Hh) as [Hidn' [_ [_ [_ [_ [Htr _]]]]]].
  assert (Hidn : inv_id new = k) by congruence.
  destruct rows as [|r0 rows0] eqn:Er.
  - cbn in res. subst res. apply app_inj_tail in Hres.
    destruct Hres as [_ <-]. rewrite H0, H1, H2. cbn.
    repeat split; try reflexivity; ring.
  - assert (Hne : r0 :: rows0 <> []) by discriminate.
    assert (Hin : In new res).
    { rewrite Hres. apply in_or_app. right. now left. }
    destruct (Hok Hne new Hin Hidn) as [Hs [Ht Htot]].
    rewrite Htr in Ht. split; [| split; assumption].
    rewrite Hs, Hidn.
    now rewrite (items_of_fresh items k (r0 :: rows0) Hitems Hdoc).
Qed.

Lemma header_fields (new : invoice) id num cl d dd sub tr ta tot st cur u ca :
  invoice_header new
    = invoice_header (mkInvoice id num cl d dd sub tr ta tot st cur u ca) ->
  inv_id new = id /\ inv_number new = num /\ inv_client_id new = cl
  /\ inv_date new = d /\ inv_due_date new = dd /\ inv_tax_rate new = tr
  /\ inv_status new = st /\ inv_currency_code new = cur
  /\ inv_user_id new = u.
Proof. intros H. exact (invoice_header_eq _ _ H). Qed.

Lemma due_in_30_days d :
  timestamp_to_date (date_pl_interval d (mkInterval 0 30)) = add_days 30 d.
Proof. reflexivity. Qed.

Lemma generate_for_contents now r db db1 :
  ids_below db ->
  generate_for now r db = Ok db1 ->
  ids_below db1
  /\ exists new,
       db_invoices db1 = db_invoices db ++ [new] /\ carries_template r new.
Proof.
  intros [Hinv Hitems] H. unfold generate_for in H.
  destruct (generate_invoice_number (timestamp_to_date now) (db_invoices db))
    as [number|]; [| discriminate].
  cbn [bind] in H. destruct (rc_client_id r) as [client|] eqn:Ec;
    [| discriminate].
  cbn [not_null bind] in H. unfold insert_invoice in H.
  destruct (existsb _ _); [discriminate |].
  cbn [bind] in H. apply Ok_inj in H. subst db1.
  unfold insert_invoice_item, exec_invoice_item_statement,
    update_last_generated.
  cbn [apply_item_statement fired_NEW fold_left db_invoices db_invoice_items
       db_recurring_invoices db_next_id].
  set (k := db_next_id db).
  match goal with
  | |- context [update_invoice_totals now (Some ?it) (_ ++ [?r0]) _] =>
      destruct (new_invoice_totals now k r0 [it] (db_invoices db)
                  (db_invoice_items db) Hinv Hitems eq_refl eq_refl eq_refl
                  eq_refl ltac:(repeat constructor))
        as [new [Hres [Hh [Hs [Ht Htot]]]]]
  end.
  cbn [fold_left] in Hres. rewrite Hres.
  destruct (header_fields _ _ _ _ _ _ _ _ _ _ _ _ _ _ Hh)
    as [Hid [Hnum [Hcl [Hd [Hdd [Htr [Hst [Hcur Hu]]]]]]]].
  split.
  - split; cbn [db_invoices db_invoice_items db_next_id].
    + apply Forall_app. split.
      * revert Hinv. apply Forall_impl. intros i Hi. fold k in Hi. lia.
      * constructor; [lia | constructor].
    + apply Forall_app. split.
      * revert Hitems. apply Forall_impl. intros it Hit.
        destruct (li_document_id it); [fold k in Hit; lia | exact I].
      * constructor; [cbn; lia | constructor].
  - exists new. split; [reflexivity |].
    assert (Hsub : inv_subtotal new == rc_amount r).
    { rewrite Hs. cbn. ring. }
    unfold carries_template.
    split; [rewrite Ec; f_equal; exact Hcl |].
    split; [exact Hu |]. split; [exact Hd |].
    split; [exact (eq_trans Hdd (due_in_30_days _)) |].
    split; [exact Hst |]. split; [exact Htr |]. split; [exact Hcur |].
    split; [exact Hsub |]. split.
    + rewrite Ht, Hsub. reflexivity.
    + rewrite Htot, Ht, Hsub. reflexivity.
Qed.

Lemma fold_round_contents now due db db' :
  ids_below db ->
  fold_left (round now) due (Ok db) = Ok db' ->
  exists news,
    db_invoices db' = db_invoices db ++ news
    /\ Forall2 carries_template due news.
Proof.
  revert db. induction due as [|r due IH]; intros db Hb H.
  - cbn in H. apply Ok_inj in H. subst db'. exists [].
    split; [now rewrite app_nil_r | constructor].
  - cbn [fold_left] in H. unfold round at 2 in H. cbn [bind] in H.
    destruct (generate_for now r db) as [db1|e] eqn:G.
    + destruct (generate_for_contents _ _ _ _ Hb G) as [Hb1 [new [Hn Hc]]].
      destruct (IH db1 Hb1 H) as [news [Hn' Hc']].
      exists (new :: news). split.
      * rewrite Hn', Hn, <- app_assoc. reflexivity.
      * now constructor.
    + rewrite fold_round_Raise in H. discriminate.
Qed.

(** X14: A run that returns leaves the stored invoices as they are and appends
    one invoice per selected template, in order: a draft for the
    template's client and owner, dated the next invoice date and due 30
    days later, with subtotal = the template's amount,
    tax_amount = amount * (tax_rate/100) and total = their sum. *)
Theorem recurring_invoices_carry_template now db db' :
  ids_below db ->
  generate_recurring_invoices now db = Ok db' ->
  exists news,
    db_invoices db' = db_invoices db ++ news
    /\ Forall2 carries_template
               (filter (is_due now) (db_recurring_invoices db)) news.
Proof. intros Hb H. exact (fold_round_contents now _ db db' Hb H). Qed.

Lemma recurring_invoices_carry_template_witness :
  exists db' news,
    generate_recurring_invoices (noon 2025 2 1)
      (mkDatabase [] [] two_templates 10) = Ok db'
    /\ db_invoices db' = news
    /\ Forall2 carries_template
         [ template 1 monthly (mkDate 2025 1 31) None active None ] news.
Proof.
  destruct (generate_recurring_invoices (noon 2025 2 1)
              (mkDatabase [] [] two_templates 10)) as [db'|e] eqn:H.
  - assert (Hb : ids_below (mkDatabase [] [] two_templates 10))
      by (split; constructor).
    destruct (recurring_invoices_carry_template _ _ _ Hb H)
      as [news [Hn Hc]].
    exists db', news. split; [reflexivity |]. split; [exact Hn | exact Hc].
  - vm_compute in H. discriminate.
Defined.

(** ** The statement: scope, order and completeness *)

Lemma in_statement_scope_true auth c d1 d2 i :
  in_statement_scope auth c d1 d2 i = true ->
  inv_client_id i = c
  /\ date_leb d1 (inv_date i) = true /\ date_leb (inv_date i) d2 = true
  /\ inv_user_id i = auth /\ auth <> None.
Proof.
  unfold in_statement_scope. intros H.
  apply andb_true_iff in H. destruct H as [H Hu].
  apply andb_true_iff in H. destruct H as [Hc Hd].
  apply andb_true_iff in Hd. destruct Hd as [H1 H2].
  apply Nat.eqb_eq in Hc.
  unfold sql_eq in Hu. destruct (inv_user_id i) as [x|]; [| discriminate].
  destruct auth as [y|]; [| discriminate].
  apply Nat.eqb_eq in Hu. subst y. repeat split; auto. discriminate.
Qed.

Lemma In_transactions auth invoices c d1 d2 t :
  In t (transactions auth invoices c d1 d2) <->
  exists i,
    In i invoices /\ in_statement_scope auth c d1 d2 i = true
    /\ (t = invoice_transaction i
        \/ (inv_status i = paid /\ t = payment_transaction i)).
Proof.
  unfold transactions. rewrite in_app_iff, !in_map_iff. split.
  - intros [[i [E Hi]] | [i [E Hi]]]; apply filter_In in Hi;
      destruct Hi as [Hi Hs]; exists i.
    + auto.
    + apply andb_true_iff in Hs. destruct Hs as [Hs Hp].
      destruct (inv_status i); try discriminate. auto.
  - intros [i [Hi [Hs [E | [Hp E]]]]]; [left | right]; exists i;
      (split; [now symmetry |]); apply filter_In; split; auto.
    now rewrite Hs, Hp.
Qed.

Lemma In_statement auth invoices c d1 d2 t :
  In t (map se_tx (get_client_statement auth invoices c d1 d2))
  <-> In t (transactions auth invoices c d1 d2).
Proof.
  destruct (get_client_statement_ordered auth invoices c d1 d2) as [_ P].
  split; intros H.
  - exact (Permutation_in _ P H).
  - exact (Permutation_in _ (Permutation_sym P) H).
Qed.

Lemma filter_andb {A : Type} (f g : A -> bool) (l : list A) :
  filter (fun x => f x && g x) l = filter g (filter f l).
Proof.
  induction l as [|x l IH]; cbn [filter]; [reflexivity |].
  destruct (f x); cbn [andb filter]; [| exact IH].
  destruct (g x); now rewrite IH.
Qed.

(** X15: Every line of a statement is the debit of one of the caller's invoices
    for the requested client dated within the period, or the credit of
    such an invoice that is paid: no other client's, no other user's and
    no out-of-period invoice ever shows. *)
Theorem statement_lines_in_scope auth invoices c d1 d2 e :
  In e (get_client_statement auth invoices c d1 d2) ->
  exists i,
    In i invoices
    /\ inv_client_id i = c /\ inv_user_id i = auth /\ auth <> None
    /\ date_leb d1 (inv_date i) = true /\ date_leb (inv_date i) d2 = true
    /\ (se_tx e = invoice_transaction i
        \/ (inv_status i = paid /\ se_tx e = payment_transaction i)).
Proof.
  intros He.
  assert (Ht : In (se_tx e)
                 (map se_tx (get_client_statement auth invoices c d1 d2)))
    by now apply in_map.
  apply In_statement, In_transactions in Ht.
  destruct Ht as [i [Hi [Hs Hk]]].
  destruct (in_statement_scope_true _ _ _ _ _ Hs) as [Hc [H1 [H2 [Hu Ha]]]].
  exists i. repeat split; auto.
Qed.

Lemma statement_lines_in_scope_witness :
  exists i,
    In i [ledger_invoice 1 "INV-2025-001" (mkDate 2025 3 1) 100 paid]
    /\ inv_client_id i = 5%nat /\ inv_user_id i = Some 9%nat
    /\ Some 9%nat <> None
    /\ date_leb (mkDate 2025 1 1) (inv_date i) = true
    /\ date_leb (inv_date i) (mkDate 2025 12 31) = true
    /\ (invoice_transaction
          (ledger_invoice 1 "INV-2025-001" (mkDate 2025 3 1) 100 paid)
        = invoice_transaction i
        \/ (inv_status i = paid
            /\ invoice_transaction
                 (ledger_invoice 1 "INV-2025-001" (mkDate 2025 3 1) 100 paid)
               = payment_transaction i)).
Proof.
  apply (statement_lines_in_scope (Some 9%nat)
           [ledger_invoice 1 "INV-2025-001" (mkDate 2025 3 1) 100 paid]
           5%nat (mkDate 2025 1 1) (mkDate 2025 12 31)
           (mkEntry (invoice_transaction
                       (ledger_invoice 1 "INV-2025-001" (mkDate 2025 3 1)
                                       100 paid))
                    100)).
  vm_compute. left. reflexivity.
Defined.

(** X16: A caller who is not signed in gets an empty statement, whatever is
    stored. *)
Theorem statement_needs_a_caller invoices c d1 d2 :
  get_client_statement None invoices c d1 d2 = [].
Proof.
  assert (E : transactions None invoices c d1 d2 = []).
  { unfold transactions.
    assert (F : forall f : invoice -> bool,
               (forall i, f i = false) -> filter f invoices = []).
    { intros f Hf. induction invoices as [|i l IH]; cbn; [reflexivity |].
      now rewrite Hf. }
    rewrite !F; [reflexivity | |].
    - intros i. unfold in_statement_scope, sql_eq.
      destruct (inv_user_id i); now rewrite !andb_false_r.
    - intros i. unfold in_statement_scope, sql_eq.
      destruct (inv_user_id i); now rewrite !andb_false_r. }
  unfold get_client_statement. rewrite E. reflexivity.
Qed.

(** X17: The statement is complete and sorted: every invoice in scope has its
    debit line, every paid one also its credit line, the number of lines
    is the number of invoices in scope plus the number of paid ones, and
    the lines come by date with an invoice before a payment of the same
    date. *)
Theorem statement_complete_and_sorted auth invoices c d1 d2 :
  let entries := get_client_statement auth invoices c d1 d2 in
  let scoped :=
    filter (in_statement_scope auth c d1 d2) invoices in
  ordered (map se_tx entries)
  /\ List.length entries
     = (List.length scoped
        + List.length
            (filter (fun i => invoice_status_eqb (inv_status i) paid)
                    scoped))%nat
  /\ forall i, In i scoped ->
       In (invoice_transaction i) (map se_tx entries)
       /\ (inv_status i = paid ->
           In (payment_transaction i) (map se_tx entries)).
Proof.
  intros entries scoped.
  destruct (get_client_statement_ordered auth invoices c d1 d2) as [O P].
  split; [exact O |]. split.
  - rewrite <- (length_map se_tx entries).
    unfold entries. rewrite (Permutation_length P).
    unfold transactions. rewrite length_app, !length_map.
    unfold scoped. f_equal. now rewrite filter_andb.
  - intros i Hi. unfold scoped in Hi. apply filter_In in Hi.
    destruct Hi as [Hi Hs]. split.
    + apply In_statement, In_transactions. exists i. auto.
    + intros Hp. apply In_statement, In_transactions. exists i. auto.
Qed.

Lemma order_leb_antisym a b :
  order_leb a b = true -> order_leb b a = true ->
  (tx_date a, tx_type a) = (tx_date b, tx_type b).
Proof.
  unfold order_leb, type_rank. intros H1 H2.
  destruct (date_eqb (tx_date a) (tx_date b)) eqn:E.
  - apply date_eqb_eq in E. rewrite E in *.
    assert (L : date_ltb (tx_date b) (tx_date b) = false).
    { rewrite date_ltb_leb, date_leb_refl. reflexivity. }
    rewrite L in H1, H2.
    assert (E' : date_eqb (tx_date b) (tx_date b) = true)
      by now apply date_eqb_eq.
    rewrite E' in H2. cbn [orb andb] in H1, H2.
    destruct (tx_type a), (tx_type b); try reflexivity; discriminate.
  - rewrite andb_false_l, orb_false_r in H1.
    rewrite date_ltb_leb in H1. apply negb_true_iff in H1.
    apply orb_true_iff in H2. destruct H2 as [H2 | H2].
    + rewrite date_ltb_leb in H2. apply negb_true_iff in H2.
      destruct (date_leb_total (tx_date a) (tx_date b)); congruence.
    + apply andb_true_iff in H2. destruct H2 as [H2 _].
      apply date_eqb_eq in H2. rewrite H2, date_leb_refl in H1. discriminate.
Qed.

Lemma ordered_strict l :
  ordered l ->
  NoDup (map (fun t => (tx_date t, tx_type t)) l) ->
  StronglySorted (fun a b => order_ltb a b = true) l.
Proof.
  unfold ordered. induction 1 as [|a l Hs IH Ha]; intros Hn.
  - constructor.
  - cbn [map] in Hn. inversion Hn as [|? ? Hnot Hn']; subst.
    constructor; [now apply IH |].
    rewrite Forall_forall in *. intros b Hb.
    unfold order_ltb. apply negb_true_iff.
    destruct (order_leb b a) eqn:E; [| reflexivity].
    exfalso. apply Hnot.
    rewrite (order_leb_antisym a b (Ha b Hb) E).
    now apply (in_map (fun t => (tx_date t, tx_type t))).
Qed.

Lemma NoDup_map_filter {A B : Type} (f : A -> B) (g : A -> bool) l :
  NoDup (map f l) -> NoDup (map f (filter g l)).
Proof.
  induction l as [|x l IH]; cbn [map filter]; intros H; [constructor |].
  inversion H as [|? ? Hnot H']; subst.
  destruct (g x); [| now apply IH].
  cbn [map]. constructor; [| now apply IH].
  intros Hin. apply Hnot. apply in_map_iff in Hin.
  destruct Hin as [y [E Hy]]. apply filter_In in Hy.
  rewrite <- E. apply in_map. tauto.
Qed.

Lemma NoDup_tagged {A B : Type} (f : A -> B) (c : entry_type) l :
  NoDup (map f l) -> NoDup (map (fun x => (f x, c)) l).
Proof.
  induction l as [|x l IH]; cbn [map]; intros H; [constructor |].
  inversion H as [|? ? Hnot H']; subst.
  constructor; [| now apply IH].
  intros Hin. apply Hnot. apply in_map_iff in Hin.
  destruct Hin as [y [E Hy]]. injection E as E. rewrite <- E.
  now apply in_map.
Qed.

(** X18: Where the invoices in scope all have different dates, the balance on
    each line is the cumulative sum of debit - credit of the lines up to
    and including it. *)
Theorem running_balance_cumulative_on_distinct_dates
    auth invoices c d1 d2 :
  NoDup (map inv_date (filter (in_statement_scope auth c d1 d2) invoices)) ->
  Forall2 Qeq
    (map se_running_balance (get_client_statement auth invoices c d1 d2))
    (spec_running_balances 0
       (map se_tx (get_client_statement auth invoices c d1 d2))).
Proof.
  intros Hd.
  destruct (get_client_statement_ordered auth invoices c d1 d2) as [O P].
  assert (Hs : StronglySorted (fun a b => order_ltb a b = true)
                 (map se_tx (get_client_statement auth invoices c d1 d2))).
  { apply ordered_strict; [exact O |].
    apply (Permutation_NoDup
             (Permutation_sym
                (Permutation_map (fun t => (tx_date t, tx_type t)) P))).
    unfold transactions. rewrite map_app, !map_map.
    cbn [invoice_transaction payment_transaction tx_date tx_type].
    apply NoDup_app.
    - now apply (NoDup_tagged inv_date entry_invoice).
    - apply (NoDup_tagged inv_date entry_payment).
      rewrite filter_andb. now apply NoDup_map_filter.
    - intros k H1 H2. apply in_map_iff in H1, H2.
      destruct H1 as [x [E1 _]], H2 as [y [E2 _]]. congruence. }
  revert Hs. unfold get_client_statement.
  rewrite !map_map. cbn [se_tx se_running_balance]. rewrite map_id.
  intros Hs. exact (window_sum_cumulative [] _ (Forall_nil _) Hs).
Qed.

Lemma running_balance_cumulative_on_distinct_dates_witness :
  Forall2 Qeq
    (map se_running_balance
       (get_client_statement (Some 9%nat)
          [ledger_invoice 1 "INV-2025-001" (mkDate 2025 3 1) 100 paid;
           ledger_invoice 2 "INV-2025-002" (mkDate 2025 4 1) 50 sent]
          5%nat (mkDate 2025 1 1) (mkDate 2025 12 31)))
    (spec_running_balances 0
       (map se_tx
          (get_client_statement (Some 9%nat)
             [ledger_invoice 1 "INV-2025-001" (mkDate 2025 3 1) 100 paid;
              ledger_invoice 2 "INV-2025-002" (mkDate 2025 4 1) 50 sent]
             5%nat (mkDate 2025 1 1) (mkDate 2025 12 31)))).
Proof.
  apply (running_balance_cumulative_on_distinct_dates (Some 9%nat)
           [ledger_invoice 1 "INV-2025-001" (mkDate 2025 3 1) 100 paid;
            ledger_invoice 2 "INV-2025-002" (mkDate 2025 4 1) 50 sent]
           5%nat (mkDate 2025 1 1) (mkDate 2025 12 31)).
  vm_compute. constructor.
  - intros [H | []]. discriminate H.
  - constructor; [intros [] | constructor].
Defined.

(** ** The summary view *)

Lemma fold_min_le ds d x :
  In x (d :: ds) ->
  date_leb (fold_left (fun m y => if date_ltb y m then y else m) ds d) x
  = true.
Proof.
  revert d x. induction ds as [|y ds IH]; intros d x Hx.
  - destruct Hx as [<- | []]. apply date_leb_refl.
  - cbn [fold_left]. destruct (date_ltb y d) eqn:E.
    + destruct Hx as [<- | Hx].
      * apply (date_leb_trans _ y).
        -- apply IH. now left.
        -- rewrite date_ltb_leb in E. apply negb_true_iff in E.
           destruct (date_leb_total y d) as [H | H]; [exact H | congruence].
      * apply IH. exact Hx.
    + destruct Hx as [<- | [<- | Hx]].
      * apply IH. now left.
      * apply (date_leb_trans _ d); [apply IH; now left |].
        rewrite date_ltb_leb in E. now apply negb_false_iff in E.
      * apply IH. now right.
Qed.

Lemma fold_max_ge ds d x :
  In x (d :: ds) ->
  date_leb x (fold_left (fun m y => if date_ltb m y then y else m) ds d)
  = true.
Proof.
  revert d x. induction ds as [|y ds IH]; intros d x Hx.
  - destruct Hx as [<- | []]. apply date_leb_refl.
  - cbn [fold_left]. destruct (date_ltb d y) eqn:E.
    + destruct Hx as [<- | Hx].
      * apply (date_leb_trans _ y).
        -- rewrite date_ltb_leb in E. apply negb_true_iff in E.
           destruct (date_leb_total d y) as [H | H]; [exact H | congruence].
        -- apply IH. now left.
      * apply IH. exact Hx.
    + destruct Hx as [<- | [<- | Hx]].
      * apply IH. now left.
      * apply (date_leb_trans _ d); [| apply IH; now left].
        rewrite date_ltb_leb in E. now apply negb_false_iff in E.
      * apply IH. now right.
Qed.

Lemma status_parts i :
  paid_part i + outstanding_part i + draft_part i == inv_total i.
Proof.
  unfold paid_part, outstanding_part, draft_part.
  destruct (inv_status i); ring.
Qed.

Lemma qsum_parts (l : list invoice) :
  qsum (map paid_part l) + qsum (map outstanding_part l)
  + qsum (map draft_part l) == qsum (map inv_total l).
Proof.
  induction l as [|i l IH]; cbn [map qsum fold_right]; [ring |].
  unfold qsum in IH. rewrite <- IH, <- (status_parts i). ring.
Qed.

Lemma In_summary auth clients invoices s :
  In s (client_statement_summary auth clients invoices) ->
  let joined :=
    filter (fun i => Nat.eqb (inv_client_id i) (ss_client_id s)) invoices in
  ss_total_paid s = qsum (map paid_part joined)
  /\ ss_total_outstanding s = qsum (map outstanding_part joined)
  /\ ss_first_invoice_date s = min_date (map inv_date joined)
  /\ ss_last_invoice_date s = max_date (map inv_date joined)
  /\ exists c, In c clients /\ c_user_id c = auth /\ auth <> None
               /\ ss_client_id s = c_id c /\ ss_client_name s = c_name c.
Proof.
  unfold client_statement_summary. intros H. apply in_map_iff in H.
  destruct H as [c [<- Hc]]. cbn. apply filter_In in Hc.
  destruct Hc as [Hc Hu]. repeat split.
  exists c. unfold sql_eq in Hu.
  destruct (c_user_id c) as [x|]; [| discriminate].
  destruct auth as [y|]; [| discriminate].
  apply Nat.eqb_eq in Hu. subst y. repeat split; auto. discriminate.
Qed.

(** X19: Each row of the summary belongs to a client of the caller, and its two
    sums split the client's invoiced total by status: paid + outstanding
    + the totals of the drafts = the sum of the totals of all invoices of
    that client. *)
Theorem summary_splits_invoiced_total auth clients invoices s :
  In s (client_statement_summary auth clients invoices) ->
  let joined :=
    filter (fun i => Nat.eqb (inv_client_id i) (ss_client_id s)) invoices in
  (exists c, In c clients /\ c_user_id c = auth
             /\ ss_client_id s = c_id c /\ ss_client_name s = c_name c)
  /\ ss_total_paid s + ss_total_outstanding s + qsum (map draft_part joined)
     == qsum (map inv_total joined).
Proof.
  intros H joined.
  destruct (In_summary _ _ _ _ H) as [Hp [Ho [_ [_ [c [Hc [Hu [_ [Hi Hn]]]]]]]]].
  split; [exists c; auto |].
  rewrite Hp, Ho. apply qsum_parts.
Qed.

Lemma summary_splits_invoiced_total_witness :
  let s := mkSummary 5 "Acme" 2 100 50 (Some (mkDate 2025 3 1))
                     (Some (mkDate 2025 4 1)) in
  let invoices :=
    [ledger_invoice 1 "INV-2025-001" (mkDate 2025 3 1) 100 paid;
     ledger_invoice 2 "INV-2025-002" (mkDate 2025 4 1) 50 sent] in
  let clients := [mkClient 5 "Acme" (Some 9%nat)] in
  let joined :=
    filter (fun i => Nat.eqb (inv_client_id i) (ss_client_id s)) invoices in
  (exists c, In c clients /\ c_user_id c = Some 9%nat
             /\ ss_client_id s = c_id c /\ ss_client_name s = c_name c)
  /\ ss_total_paid s + ss_total_outstanding s + qsum (map draft_part joined)
     == qsum (map inv_total joined).
Proof.
  intros s invoices clients.
  apply (summary_splits_invoiced_total (Some 9%nat) clients invoices s).
  vm_compute. left. reflexivity.
Defined.

(** X20: The two dates of a summary row bracket every invoice of the client:
    first_invoice_date <= date <= last_invoice_date. *)
Theorem summary_dates_bracket_invoices auth clients invoices s i :
  In s (client_statement_summary auth clients invoices) ->
  In i invoices ->
  inv_client_id i = ss_client_id s ->
  exists first last,
    ss_first_invoice_date s = Some first
    /\ ss_last_invoice_date s = Some last
    /\ date_leb first (inv_date i) = true
    /\ date_leb (inv_date i) last = true.
Proof.
  intros H Hi Hc.
  destruct (In_summary _ _ _ _ H) as [_ [_ [Hf [Hl _]]]].
  cbv zeta in Hf, Hl.
  assert (Hin : In (inv_date i)
                  (map inv_date
                     (filter (fun j => Nat.eqb (inv_client_id j)
                                                (ss_client_id s))
                             invoices))).
  { apply in_map, filter_In. split; [exact Hi |]. now apply Nat.eqb_eq. }
  destruct (map inv_date _) as [|d ds]; [destruct Hin |].
  cbn [min_date max_date] in Hf, Hl.
  eexists. eexists. split; [exact Hf |]. split; [exact Hl |]. split.
  - now apply fold_min_le.
  - now apply fold_max_ge.
Qed.

Lemma summary_dates_bracket_invoices_witness :
  exists first last,
    Some (mkDate 2025 3 1) = Some first
    /\ Some (mkDate 2025 4 1) = Some last
    /\ date_leb first (mkDate 2025 4 1) = true
    /\ date_leb (mkDate 2025 4 1) last = true.
Proof.
  apply (summary_dates_bracket_invoices (Some 9%nat)
           [mkClient 5 "Acme" (Some 9%nat)]
           [ledger_invoice 1 "INV-2025-001" (mkDate 2025 3 1) 100 paid;
            ledger_invoice 2 "INV-2025-002" (mkDate 2025 4 1) 50 sent]
           (mkSummary 5 "Acme" 2 100 50 (Some (mkDate 2025 3 1))
                      (Some (mkDate 2025 4 1)))
           (ledger_invoice 2 "INV-2025-002" (mkDate 2025 4 1) 50 sent)).
  - vm_compute. left. reflexivity.
  - right. left. reflexivity.
  - reflexivity.
Defined.

(** X21: A client of the caller without invoices still has a row: no invoices,
    both sums 0 and no dates. *)
Theorem summary_of_client_without_invoices u clients invoices c :
  In c clients ->
  c_user_id c = Some u ->
  (forall i, In i invoices -> inv_client_id i <> c_id c) ->
  In (mkSummary (c_id c) (c_name c) 0 0 0 None None)
     (client_statement_summary (Some u) clients invoices).
Proof.
  intros Hc Hu Hno. unfold client_statement_summary.
  apply in_map_iff. exists c. split.
  - assert (E : filter (fun i => Nat.eqb (inv_client_id i) (c_id c)) invoices
                = []).
    { induction invoices as [|i l IH]; cbn [filter]; [reflexivity |].
      destruct (Nat.eqb_spec (inv_client_id i) (c_id c)) as [E | _].
      - exfalso. apply (Hno i); [now left | exact E].
      - apply IH. intros j Hj. apply Hno. now right. }
    rewrite E. reflexivity.
  - apply filter_In. split; [exact Hc |]. rewrite Hu. cbn.
    apply Nat.eqb_refl.
Qed.

Lemma summary_of_client_without_invoices_witness :
  In (mkSummary 6 "Borealis" 0 0 0 None None)
     (client_statement_summary (Some 9%nat)
        [mkClient 5 "Acme" (Some 9%nat); mkClient 6 "Borealis" (Some 9%nat)]
        [ledger_invoice 1 "INV-2025-001" (mkDate 2025 3 1) 100 paid]).
Proof.
  apply (summary_of_client_without_invoices 9%nat
           [mkClient 5 "Acme" (Some 9%nat); mkClient 6 "Borealis" (Some 9%nat)]
           [ledger_invoice 1 "INV-2025-001" (mkDate 2025 3 1) 100 paid]
           (mkClient 6 "Borealis" (Some 9%nat))).
  - right. left. reflexivity.
  - reflexivity.
  - intros i [<- | []]. cbn. discriminate.
Defined.

(** ** Report comments *)

Lemma In_matching_comments library subj lang level r :
  In r (matching_comments library subj lang level) <->
  In r library
  /\ (exists s, subj = Some s /\ lc_subject_id r = Some s)
  /\ lang = Some (lc_language r)
  /\ lc_performance_level r = Some level.
Proof.
  unfold matching_comments. rewrite filter_In. split.
  - intros [Hin H]. apply andb_true_iff in H. destruct H as [H Hl].
    apply andb_true_iff in H. destruct H as [Hs Hg].
    split; [exact Hin |]. split; [| split].
    + unfold sql_eq in Hs. destruct (lc_subject_id r) as [x|]; [| discriminate].
      destruct subj as [y|]; [| discriminate].
      apply Nat.eqb_eq in Hs. subst y. now exists x.
    + unfold sql_text_eq in Hg. destruct lang as [y|]; [| discriminate].
      apply String.eqb_eq in Hg. now subst y.
    + destruct (lc_performance_level r) as [l|]; [| discriminate].
      destruct l, level; try discriminate; reflexivity.
  - intros [Hin [[s [-> Hs]] [-> Hl]]]. split; [exact Hin |].
    rewrite Hs, Hl. cbn [sql_eq sql_text_eq].
    rewrite Nat.eqb_refl, String.eqb_refl. now destruct level.
Qed.

(** X22: Whatever the random order, when no library row is written for
    that subject, in that language and for the level of the score, the
    default text is returned; otherwise the comment returned is the text
    of such a row.  Rows without a subject or without a level are never
    used. *)
Theorem comment_comes_from_the_library draw library subj score lang :
  let rows := matching_comments library subj lang (level_of_score score) in
  (rows = []
   /\ generate_subject_comment draw library subj score lang
      = no_comment_available)
  \/ (exists r s,
        In r library
        /\ subj = Some s /\ lc_subject_id r = Some s
        /\ lang = Some (lc_language r)
        /\ lc_performance_level r = Some (level_of_score score)
        /\ generate_subject_comment draw library subj score lang
           = lc_comment_text r).
Proof.
  intros rows. unfold generate_subject_comment. fold rows.
  destruct rows as [|r0 rest] eqn:E.
  - left. split; [reflexivity |]. cbn. now destruct draw.
  - right.
    assert (Hlt : (draw mod List.length (r0 :: rest)
                   < List.length (r0 :: rest))%nat).
    { apply Nat.mod_upper_bound. discriminate. }
    destruct (nth_error (r0 :: rest) (draw mod List.length (r0 :: rest)))
      as [r|] eqn:N.
    + assert (Hin : In r rows).
      { rewrite E. exact (nth_error_In _ _ N). }
      apply In_matching_comments in Hin.
      destruct Hin as [Hin [[s [Hs1 Hs2]] [Hg Hl]]].
      exists r, s. repeat split; assumption.
    + apply nth_error_None in N. lia.
Qed.

(** Every matching row can be the one drawn. *)
Lemma any_matching_comment_can_be_drawn library subj score lang r :
  In r (matching_comments library subj lang (level_of_score score)) ->
  exists draw,
    generate_subject_comment draw library subj score lang
    = lc_comment_text r.
Proof.
  intros Hin. apply In_nth_error in Hin. destruct Hin as [n Hn].
  exists n. unfold generate_subject_comment.
  assert (Hlt : (n < List.length
                       (matching_comments library subj lang
                          (level_of_score score)))%nat).
  { apply nth_error_Some. congruence. }
  rewrite Nat.mod_small by exact Hlt. now rewrite Hn.
Qed.

(** X23: A higher score never gives a lower level, and the levels change at
    80, 70 and 50. *)
Theorem level_rises_with_score (s1 s2 : numeric) :
  s1 <= s2 ->
  (level_rank (level_of_score (Some s1))
   <= level_rank (level_of_score (Some s2)))%nat.
Proof.
  intros H. unfold level_of_score.
  destruct (Qle_bool 80 s1) eqn:A1; destruct (Qle_bool 80 s2) eqn:A2;
    destruct (Qle_bool 70 s1) eqn:B1; destruct (Qle_bool 70 s2) eqn:B2;
    destruct (Qle_bool 50 s1) eqn:C1; destruct (Qle_bool 50 s2) eqn:C2;
    cbn [level_rank]; try lia; exfalso;
    repeat match goal with
           | H : Qle_bool _ _ = true |- _ => apply Qle_bool_iff in H
           | H : Qle_bool ?a ?b = false |- _ =>
               assert (~ a <= b)
                 by (intros X; apply Qle_bool_iff in X; congruence);
               clear H
           end; lra.
Qed.

Lemma level_rises_with_score_witness :
  (level_rank (level_of_score (Some 49%Q))
   <= level_rank (level_of_score (Some 80%Q)))%nat.
Proof.
  apply (level_rises_with_score 49 80). vm_compute. discriminate.
Defined.

(** X24: A missing score is read as a failing one: the comment is drawn from
    the 'needs_improvement' rows, exactly as for any score below 50. *)
Theorem missing_score_reads_as_failing draw library subj lang (s : numeric) :
  s < 50 ->
  generate_subject_comment draw library subj None lang
  = generate_subject_comment draw library subj (Some s) lang.
Proof.
  intros H. unfold generate_subject_comment.
  assert (E : level_of_score (Some s) = needs_improvement).
  { unfold level_of_score.
    assert (F : forall a, 50 <= a -> Qle_bool a s = false).
    { intros a Ha. destruct (Qle_bool a s) eqn:X; [| reflexivity].
      apply Qle_bool_iff in X. lra. }
    rewrite !F by lra. reflexivity. }
  rewrite E. reflexivity.
Qed.

Lemma missing_score_reads_as_failing_witness :
  generate_subject_comment 0
    [mkComment 1 "general" "english" "Needs more practice." (Some 3%nat)
               (Some needs_improvement)]
    (Some 3%nat) None (Some "english"%string)
  = generate_subject_comment 0
      [mkComment 1 "general" "english" "Needs more practice." (Some 3%nat)
                 (Some needs_improvement)]
      (Some 3%nat) (Some 35) (Some "english"%string).
Proof.
  apply (missing_score_reads_as_failing 0
           [mkComment 1 "general" "english" "Needs more practice."
                      (Some 3%nat) (Some needs_improvement)]
           (Some 3%nat) (Some "english"%string) 35).
  vm_compute. reflexivity.
Defined.

(** ** Reports *)

Lemma insert_month_In k x l :
  In k (insert_month x l) <-> k = x \/ In k l.
Proof.
  induction l as [|y l IH]; cbn [insert_month].
  - cbn. intuition congruence.
  - destruct (date_ltb x y); [cbn; intuition congruence |].
    destruct (date_eqb x y) eqn:E.
    + apply date_eqb_eq in E. subst y. cbn. intuition congruence.
    + cbn [In]. rewrite IH. intuition congruence.
Qed.

Lemma insert_month_sorted x l :
  StronglySorted (fun a b => date_ltb a b = true) l ->
  StronglySorted (fun a b => date_ltb a b = true) (insert_month x l).
Proof.
  induction 1 as [|y l Hs IH Hy]; cbn [insert_month].
  - repeat constructor.
  - destruct (date_ltb x y) eqn:L.
    + constructor; [now constructor |].
      constructor; [exact L |].
      revert Hy. apply Forall_impl. intros z Hz.
      exact (date_ltb_trans _ _ _ L Hz).
    + destruct (date_eqb x y) eqn:E; [now constructor |].
      constructor; [exact IH |].
      rewrite Forall_forall in *. intros z Hz.
      apply insert_month_In in Hz. destruct Hz as [-> | Hz]; [| now apply Hy].
      clear - L E. date_cases.
Qed.

Lemma months_sorted rows :
  StronglySorted (fun a b => date_ltb a b = true) (months rows).
Proof.
  unfold months. induction (map fst rows) as [|k l IH]; cbn [fold_right].
  - constructor.
  - now apply insert_month_sorted.
Qed.

Lemma months_In rows k : In k (months rows) <-> In k (map fst rows).
Proof.
  unfold months. induction (map fst rows) as [|x l IH]; cbn [fold_right].
  - reflexivity.
  - rewrite insert_month_In, IH. cbn. intuition congruence.
Qed.

Lemma months_NoDup rows : NoDup (months rows).
Proof.
  induction (months_sorted rows) as [|k l _ IH Hk]; constructor; auto.
  intros Hin. rewrite Forall_forall in Hk.
  specialize (Hk k Hin). now rewrite date_ltb_irrefl in Hk.
Qed.

Lemma date_eqb_refl d : date_eqb d d = true.
Proof. now apply date_eqb_eq. Qed.

Lemma indicator_sum (k : date) (v : numeric) (ks : list date) :
  NoDup ks -> In k ks ->
  qsum (map (fun x => if date_eqb k x then v else 0) ks) == v.
Proof.
  induction 1 as [|y ks Hnot Hn IH]; intros Hin; [destruct Hin |].
  cbn [map]. unfold qsum in *. cbn [fold_right].
  destruct Hin as [-> | Hin].
  - rewrite date_eqb_refl.
    assert (Z0 : fold_right Qplus 0
                   (map (fun x => if date_eqb k x then v else 0) ks) == 0).
    { clear - Hnot. induction ks as [|z ks IHk]; cbn; [reflexivity |].
      destruct (date_eqb k z) eqn:E.
      - apply date_eqb_eq in E. subst z. exfalso. apply Hnot. now left.
      - rewrite IHk; [ring |]. intros H. apply Hnot. now right. }
    rewrite Z0. ring.
  - destruct (date_eqb k y) eqn:E.
    + apply date_eqb_eq in E. subst y. contradiction.
    + rewrite (IH Hin). ring.
Qed.

(** Summing group by group gives the sum over all rows. *)
Lemma grouped_sum (ks : list date) (rows : list (date * numeric)) :
  NoDup ks ->
  (forall p, In p rows -> In (fst p) ks) ->
  qsum (map (fun k =>
               qsum (map snd (filter (fun p => date_eqb (fst p) k) rows)))
            ks)
  == qsum (map snd rows).
Proof.
  intros Hn. induction rows as [|p rows IH]; intros Hc.
  - cbn [filter map]. clear.
    assert (Z0 : qsum (map (fun _ : date => qsum []) ks) == 0).
    { induction ks as [|k ks IHk]; [reflexivity |].
      cbn [map]. unfold qsum in *. cbn [fold_right] in *.
      rewrite IHk. ring. }
    rewrite Z0. reflexivity.
  - assert (E : qsum (map (fun k =>
                             qsum (map snd
                                     (filter (fun q => date_eqb (fst q) k)
                                             (p :: rows))))
                          ks)
                == qsum (map (fun k =>
                                if date_eqb (fst p) k then snd p else 0)
                             ks)
                   + qsum (map (fun k =>
                                  qsum (map snd
                                          (filter
                                             (fun q => date_eqb (fst q) k)
                                             rows)))
                               ks)).
    { clear. induction ks as [|k ks IHk]; [cbn; ring |].
      unfold qsum in *. cbn [map fold_right filter]. rewrite IHk.
      destruct (date_eqb (fst p) k); cbn [map fold_right]; ring. }
    rewrite E, indicator_sum; [| exact Hn | apply Hc; now left].
    rewrite IH by (intros q Hq; apply Hc; now right).
    unfold qsum. cbn [map fold_right]. ring.
Qed.

Lemma revenue_rows_total auth s e invoices :
  qsum (map snd (revenue_rows auth s e invoices))
  == qsum (map (fun r => inv_total (di_invoice r))
               (filter (in_report_scope auth s e) invoices)).
Proof.
  unfold revenue_rows.
  induction invoices as [|r l IH]; cbn [flat_map filter]; [reflexivity |].
  rewrite map_app, qsum_app, IH.
  destruct (in_report_scope auth s e r) eqn:S.
  - destruct (di_created_at r) as [t|] eqn:C.
    + unfold qsum. cbn [map fold_right snd]. ring.
    + unfold in_report_scope in S. rewrite C in S. discriminate.
  - destruct (di_created_at r); cbn; ring.
Qed.

Lemma In_revenue_rows auth s e invoices p :
  In p (revenue_rows auth s e invoices) ->
  exists r t,
    In r invoices /\ in_report_scope auth s e r = true
    /\ di_created_at r = Some t
    /\ p = (ts_date (date_trunc_month t), inv_total (di_invoice r)).
Proof.
  unfold revenue_rows. intros H. apply in_flat_map in H.
  destruct H as [r [Hr Hp]].
  destruct (di_created_at r) as [t|] eqn:C; [| destruct Hp].
  destruct (in_report_scope auth s e r) eqn:S; [| destruct Hp].
  destruct Hp as [<- | []]. exists r, t. auto.
Qed.

(** X25: The monthly amounts add up to the total of the caller's paid invoices
    created within the period: every such invoice is counted in exactly
    one month, and nothing else is. *)
Theorem monthly_revenue_adds_up auth s e invoices :
  qsum (map snd (get_monthly_revenue auth s e invoices))
  == qsum (map (fun r => inv_total (di_invoice r))
               (filter (in_report_scope auth s e) invoices)).
Proof.
  unfold get_monthly_revenue, monthly_groups.
  rewrite !map_map. cbn [snd].
  rewrite <- revenue_rows_total.
  set (rows := revenue_rows auth s e invoices).
  rewrite (map_ext _
             (fun k : date =>
                qsum (map snd (filter (fun p => date_eqb (fst p) k) rows))))
    by (intros k; apply COALESCE_SUM).
  apply grouped_sum.
  - apply months_NoDup.
  - intros p Hp. apply months_In. now apply in_map.
Qed.

(** X26: The months come in strictly rising order, each once, each the first
    day of a month, and only months that hold at least one of the
    caller's paid invoices appear: a month without revenue has no row. *)
Theorem monthly_revenue_months auth s e invoices :
  StronglySorted (fun a b => date_ltb a b = true)
                 (map fst (monthly_groups auth s e invoices))
  /\ forall k, In k (map fst (monthly_groups auth s e invoices)) ->
       d_day k = 1%Z
       /\ exists r t,
            In r invoices /\ in_report_scope auth s e r = true
            /\ di_created_at r = Some t
            /\ d_year (ts_date t) = d_year k
            /\ d_month (ts_date t) = d_month k.
Proof.
  unfold monthly_groups. rewrite map_map. cbn [fst]. rewrite map_id.
  split; [apply months_sorted |].
  intros k Hk. apply months_In, in_map_iff in Hk.
  destruct Hk as [p [<- Hp]].
  apply In_revenue_rows in Hp.
  destruct Hp as [r [t [Hr [Hs [Hc ->]]]]]. cbn.
  split; [reflexivity |]. exists r, t. auto.
Qed.

Lemma Qle_bool_false a b : Qle_bool a b = false -> b <= a.
Proof.
  intros H. destruct (Qlt_le_dec b a) as [L | L]; [now apply Qlt_le_weak |].
  apply Qle_bool_iff in L. congruence.
Qed.

Lemma insert_row_perm p l : Permutation (insert_row p l) (p :: l).
Proof.
  induction l as [|x l IH]; cbn [insert_row]; [reflexivity |].
  match goal with
  | |- context [if ?c then _ else _] => destruct c
  end; [reflexivity |].
  rewrite IH. apply perm_swap.
Qed.

Lemma insert_row_sorted p l :
  by_falling_total l -> by_falling_total (insert_row p l).
Proof.
  unfold by_falling_total.
  induction 1 as [|x l Hs IH Hx]; cbn [insert_row].
  - repeat constructor.
  - match goal with
    | |- context [if ?c then _ else _] => destruct c eqn:E
    end.
    + apply Qle_bool_iff in E.
      constructor; [now constructor |].
      constructor; [exact E |].
      revert Hx. apply Forall_impl. intros z Hz.
      now apply (Qle_trans _ (snd x)).
    + apply Qle_bool_false in E.
      constructor; [exact IH |].
      rewrite Forall_forall in *. intros z Hz.
      apply (Permutation_in _ (insert_row_perm p l)) in Hz.
      destruct Hz as [<- | Hz]; [exact E | now apply Hx].
Qed.

Lemma rank_rows_sorted l : by_falling_total (rank_rows l).
Proof.
  unfold rank_rows. induction l as [|p l IH]; cbn [fold_right].
  - constructor.
  - now apply insert_row_sorted.
Qed.

Lemma rank_rows_perm l : Permutation (rank_rows l) l.
Proof.
  unfold rank_rows. induction l as [|p l IH]; cbn [fold_right].
  - constructor.
  - rewrite insert_row_perm. now constructor.
Qed.

Lemma In_client_revenue auth s e invoices c p :
  In p (client_revenue auth s e invoices c) ->
  let joined :=
    filter (fun r =>
              Nat.eqb (inv_client_id (di_invoice r)) (c_id c)
              && in_report_scope auth s e r)
           invoices in
  joined <> []
  /\ p = (c_name c, qsum (map (fun r => inv_total (di_invoice r)) joined)).
Proof.
  intros H joined. unfold client_revenue in H. cbv zeta in H.
  fold joined in H.
  destruct joined as [|r l] eqn:E; [destruct H |].
  destruct H as [<- | []]. split; [discriminate |].
  now rewrite COALESCE_SUM.
Qed.

(** X27: A call that returns rows had a limit that is not negative, returns at
    most that many, and returns the head of the ranking by falling total:
    the rows returned and the rows cut off are together the clients'
    groups, and no row cut off has a higher total than a row returned. *)
Theorem top_clients_are_the_head_of_the_ranking
    auth s e n clients invoices rows :
  get_top_clients auth s e (Some n) clients invoices = inr rows ->
  (0 <= n)%Z
  /\ (List.length rows <= Z.to_nat n)%nat
  /\ exists rest,
       Permutation (rows ++ rest)
                   (flat_map (client_revenue auth s e invoices) clients)
       /\ by_falling_total (rows ++ rest).
Proof.
  unfold get_top_clients. destruct (Z.ltb_spec n 0) as [L | L];
    [discriminate |].
  intros H. injection H as <-. split; [exact L |]. split.
  - rewrite length_firstn. apply Nat.le_min_l.
  - exists (skipn (Z.to_nat n)
                  (rank_rows (flat_map (client_revenue auth s e invoices)
                                       clients))).
    rewrite firstn_skipn. split.
    + apply rank_rows_perm.
    + apply rank_rows_sorted.
Qed.

Lemma top_clients_are_the_head_of_the_ranking_witness :
  (0 <= 1)%Z
  /\ (List.length [("Acme"%string, 150)] <= Z.to_nat 1)%nat
  /\ exists rest,
       Permutation
         ([("Acme"%string, 150)] ++ rest)
         (flat_map
            (client_revenue (Some 9%nat) (Some (midnight 2025 1 1))
               (Some (midnight 2025 12 31))
               [mkDated
                  (ledger_invoice 1 "INV-2025-001" (mkDate 2025 3 1) 100 paid)
                  (Some (noon 2025 3 1));
                mkDated
                  (ledger_invoice 2 "INV-2025-002" (mkDate 2025 4 1) 50 paid)
                  (Some (noon 2025 4 1))])
            [mkClient 5 "Acme" (Some 9%nat)])
       /\ by_falling_total ([("Acme"%string, 150)] ++ rest).
Proof.
  apply (top_clients_are_the_head_of_the_ranking (Some 9%nat)
           (Some (midnight 2025 1 1)) (Some (midnight 2025 12 31)) 1
           [mkClient 5 "Acme" (Some 9%nat)]
           [mkDated
              (ledger_invoice 1 "INV-2025-001" (mkDate 2025 3 1) 100 paid)
              (Some (noon 2025 3 1));
            mkDated
              (ledger_invoice 2 "INV-2025-002" (mkDate 2025 4 1) 50 paid)
              (Some (noon 2025 4 1))]
           [("Acme"%string, 150)]).
  vm_compute. reflexivity.
Defined.

Lemma In_firstn {A : Type} (n : nat) (l : list A) (x : A) :
  In x (firstn n l) -> In x l.
Proof.
  intros H. rewrite <- (firstn_skipn n l). apply in_or_app. now left.
Qed.

(** X28: Only clients with revenue are ranked: every row returned is a client
    with at least one paid invoice of the caller created in the period,
    and its total is the sum of those invoices.  A client without such an
    invoice is never listed, however large the limit. *)
Theorem top_clients_have_revenue auth s e limit clients invoices rows p :
  get_top_clients auth s e limit clients invoices = inr rows ->
  In p rows ->
  exists c,
    In c clients /\ fst p = c_name c
    /\ let joined :=
         filter (fun r =>
                   Nat.eqb (inv_client_id (di_invoice r)) (c_id c)
                   && in_report_scope auth s e r)
                invoices in
       joined <> []
       /\ snd p = qsum (map (fun r => inv_total (di_invoice r)) joined).
Proof.
  unfold get_top_clients. intros H Hp.
  assert (Hin : In p (flat_map (client_revenue auth s e invoices) clients)).
  { apply (Permutation_in _ (rank_rows_perm _)).
    destruct limit as [n|].
    - destruct (n <? 0)%Z; [discriminate |]. injection H as <-.
      now apply (In_firstn (Z.to_nat n)).
    - injection H as <-. exact Hp. }
  apply in_flat_map in Hin. destruct Hin as [c [Hc Hpc]].
  destruct (In_client_revenue _ _ _ _ _ _ Hpc) as [Hne ->].
  exists c. cbn [fst snd]. auto.
Qed.

Lemma top_clients_have_revenue_witness :
  exists c,
    In c [mkClient 5 "Acme" (Some 9%nat); mkClient 6 "Borealis" (Some 9%nat)]
    /\ fst ("Acme"%string, 100) = c_name c
    /\ let joined :=
         filter (fun r =>
                   Nat.eqb (inv_client_id (di_invoice r)) (c_id c)
                   && in_report_scope (Some 9%nat) (Some (midnight 2025 1 1))
                        (Some (midnight 2025 12 31)) r)
                [mkDated
                   (ledger_invoice 1 "INV-2025-001" (mkDate 2025 3 1) 100
                                   paid)
                   (Some (noon 2025 3 1))] in
       joined <> []
       /\ snd ("Acme"%string, 100)
          = qsum (map (fun r => inv_total (di_invoice r)) joined).
Proof.
  apply (top_clients_have_revenue (Some 9%nat) (Some (midnight 2025 1 1))
           (Some (midnight 2025 12 31)) None
           [mkClient 5 "Acme" (Some 9%nat);
            mkClient 6 "Borealis" (Some 9%nat)]
           [mkDated
              (ledger_invoice 1 "INV-2025-001" (mkDate 2025 3 1) 100 paid)
              (Some (noon 2025 3 1))]
           [("Acme"%string, 0 + 100)]).
  - vm_compute. reflexivity.
  - left. vm_compute. reflexivity.
Defined.

(** ** Email events *)

Lemma Forall2_map_r {A : Type} (R : A -> A -> Prop) (f : A -> A) l :
  (forall x, R x (f x)) -> Forall2 R l (map f l).
Proof.
  intros H. induction l as [|x l IH]; cbn [map]; constructor; auto.
Qed.

(** X29: An email event never touches an invoice that is not a draft and
    never changes a number, a client or an amount, whoever records it:
    each invoice either stays exactly as it is or goes from draft to
    sent, and it can only go to sent when the log of the event is a log
    of that invoice and the event is 'sent', 'delivered', 'opened' or
    'clicked'. *)
Theorem email_event_only_sends_drafts
    s now NEW logs invoices logs' invoices' :
  handle_email_event s now NEW logs invoices = inr (logs', invoices') ->
  Forall2 (fun old new =>
             new = old
             \/ (inv_status old = draft /\ inv_status new = sent
                 /\ inv_number new = inv_number old
                 /\ inv_client_id new = inv_client_id old
                 /\ inv_subtotal new = inv_subtotal old
                 /\ inv_tax_amount new = inv_tax_amount old
                 /\ inv_total new = inv_total old
                 /\ text_in (ee_event_type NEW)
                            ["sent"; "delivered"; "opened"; "clicked"]%string
                    = true
                 /\ exists e,
                      In e logs /\ Some (el_id e) = ee_email_log_id NEW
                      /\ el_invoice_id e = Some (inv_id old)))
          invoices invoices'.
Proof.
  unfold handle_email_event.
  destruct (existsb _ logs && negb _); [discriminate |].
  intros H. apply (f_equal (fun r => match r with
                                     | inr p => snd p
                                     | inl _ => invoices
                                     end)) in H.
  cbn [snd] in H. subst invoices'. unfold mark_invoices_sent.
  destruct (text_in (ee_event_type NEW) _) eqn:T.
  - apply Forall2_map_r. intros i.
    destruct (existsb _ (update_email_logs s now NEW logs)) eqn:X;
      cbn [andb]; [| now left].
    destruct (own_invoice s i); cbn [andb]; [| now left].
    destruct (invoice_status_eqb (inv_status i) draft) eqn:S; [| now left].
    right. destruct (inv_status i) eqn:St; try discriminate.
    split; [reflexivity |]. split; [reflexivity |].
    split; [reflexivity |]. split; [reflexivity |].
    split; [reflexivity |]. split; [reflexivity |].
    split; [reflexivity |]. split; [reflexivity |].
    apply existsb_exists in X. destruct X as [e' [He' Hc]].
    unfold update_email_logs in He'.
    apply in_map_iff in He'. destruct He' as [e [Ee He]].
    apply andb_true_iff in Hc. destruct Hc as [Hl Hi].
    apply andb_true_iff in Hl. destruct Hl as [Hl _].
    assert (Hid : el_id e' = el_id e /\ el_invoice_id e' = el_invoice_id e).
    { destruct (is_log NEW e && log_updatable s); subst e'; auto. }
    destruct Hid as [Hid Hinv]. unfold is_log in Hl.
    rewrite Hid in Hl. rewrite Hinv in Hi.
    exists e. split; [exact He |].
    unfold sql_eq in Hl, Hi.
    destruct (ee_email_log_id NEW) as [k|]; [| discriminate].
    destruct (el_invoice_id e) as [j|]; [| discriminate].
    apply Nat.eqb_eq in Hl, Hi. now subst.
  - clear. induction invoices; constructor; auto.
Qed.

Lemma email_event_only_sends_drafts_witness :
  Forall2 (fun old new =>
             new = old
             \/ (inv_status old = draft /\ inv_status new = sent
                 /\ inv_number new = inv_number old
                 /\ inv_client_id new = inv_client_id old
                 /\ inv_subtotal new = inv_subtotal old
                 /\ inv_tax_amount new = inv_tax_amount old
                 /\ inv_total new = inv_total old
                 /\ text_in "delivered"
                            ["sent"; "delivered"; "opened"; "clicked"]%string
                    = true
                 /\ exists e,
                      In e [mkEmailLog 4 (Some 1%nat) "queued"
                                       (noon 2025 3 1)]
                      /\ Some (el_id e) = Some 4%nat
                      /\ el_invoice_id e = Some (inv_id old)))
          [ledger_invoice 1 "INV-2025-001" (mkDate 2025 3 1) 100 draft;
           ledger_invoice 2 "INV-2025-002" (mkDate 2025 3 1) 50 paid]
          [set_invoice_status sent (noon 2025 3 2)
             (ledger_invoice 1 "INV-2025-001" (mkDate 2025 3 1) 100 draft);
           ledger_invoice 2 "INV-2025-002" (mkDate 2025 3 1) 50 paid].
Proof.
  apply (email_event_only_sends_drafts (authenticated (Some 9%nat))
           (noon 2025 3 2)
           (mkEmailEvent (Some 4%nat) "delivered")
           [mkEmailLog 4 (Some 1%nat) "queued" (noon 2025 3 1)]
           [ledger_invoice 1 "INV-2025-001" (mkDate 2025 3 1) 100 draft;
            ledger_invoice 2 "INV-2025-002" (mkDate 2025 3 1) 50 paid]
           [mkEmailLog 4 (Some 1%nat) "queued" (noon 2025 3 1)]).
  reflexivity.
Defined.

Lemma event_status_checked t :
  email_events_event_type_check t = true ->
  email_logs_status_check (event_status t) = false ->
  t = "unsubscribed"%string.
Proof.
  unfold email_events_event_type_check, text_in. cbn [existsb].
  intros H. repeat (apply orb_true_iff in H; destruct H as [H | H]);
    try discriminate; apply String.eqb_eq in H; subst t;
    cbn; intros; try discriminate; reflexivity.
Qed.

(** An event recorded by a signed-in user leaves every log as it is: no
    policy lets that user update [email_logs]. *)
Lemma signed_in_event_leaves_logs u now NEW logs invoices :
  handle_email_event (authenticated u) now NEW logs invoices
  = inr (logs, mark_invoices_sent (authenticated u) now NEW logs invoices).
Proof.
  unfold handle_email_event.
  assert (E : existsb (fun e => is_log NEW e
                                && log_updatable (authenticated u)) logs
              = false).
  { induction logs as [|e l IH]; cbn; [reflexivity |].
    now rewrite andb_false_r. }
  rewrite E. cbn [andb].
  assert (U : update_email_logs (authenticated u) now NEW logs = logs).
  { unfold update_email_logs. induction logs as [|e l IH]; cbn [map];
      [reflexivity |].
    cbn [log_updatable]. rewrite andb_false_r. f_equal. apply IH.
    cbn in E. now rewrite andb_false_r in E. }
  now rewrite U.
Qed.

(** X30: The trigger function fails on exactly one kind of event that the
    table [email_events] admits: an 'unsubscribed' event for a log that
    exists, recorded by a role that may update [email_logs].  Its status
    would be written to [email_logs.status], whose CHECK does not admit
    it, so such an event cannot be recorded; every other admitted event
    passes the function, and so does any event for a log that is not
    there or recorded by a signed-in user. *)
Theorem only_unsubscribed_events_fail s now NEW logs invoices :
  email_events_event_type_check (ee_event_type NEW) = true ->
  handle_email_event s now NEW logs invoices = inl check_violation
  <-> (s = exempt_from_rls
       /\ ee_event_type NEW = "unsubscribed"%string
       /\ exists e, In e logs /\ Some (el_id e) = ee_email_log_id NEW).
Proof.
  intros Hc. destruct s as [|u].
  - unfold handle_email_event.
    destruct (existsb _ logs) eqn:X; cbn [andb].
    + apply existsb_exists in X. destruct X as [e [He Hl]].
      apply andb_true_iff in Hl. destruct Hl as [Hl _].
      assert (Hid : Some (el_id e) = ee_email_log_id NEW).
      { unfold is_log, sql_eq in Hl.
        destruct (ee_email_log_id NEW); [| discriminate].
        apply Nat.eqb_eq in Hl. now subst. }
      destruct (email_logs_status_check (event_status (ee_event_type NEW)))
        eqn:S; cbn [negb].
      * split; [discriminate |]. intros [_ [U _]]. rewrite U in S.
        discriminate S.
      * split; [| reflexivity]. intros _. split; [reflexivity |].
        split; [exact (event_status_checked _ Hc S) |]. now exists e.
    + split; [discriminate |]. intros [_ [_ [e [He Hid]]]].
      assert (F : existsb (fun e0 => is_log NEW e0
                                     && log_updatable exempt_from_rls) logs
                  = true).
      { apply existsb_exists. exists e. split; [exact He |].
        unfold is_log. rewrite <- Hid. cbn. rewrite Nat.eqb_refl.
        reflexivity. }
      congruence.
  - rewrite signed_in_event_leaves_logs.
    split; [discriminate |]. intros [C _]. discriminate C.
Qed.

Lemma only_unsubscribed_events_fail_witness :
  handle_email_event exempt_from_rls (noon 2025 3 2)
    (mkEmailEvent (Some 4%nat) "unsubscribed")
    [mkEmailLog 4 (Some 1%nat) "delivered" (noon 2025 3 1)] []
  = inl check_violation
  <-> (exempt_from_rls = exempt_from_rls
       /\ "unsubscribed"%string = "unsubscribed"%string
       /\ exists e,
            In e [mkEmailLog 4 (Some 1%nat) "delivered" (noon 2025 3 1)]
            /\ Some (el_id e) = Some 4%nat).
Proof.
  apply (only_unsubscribed_events_fail exempt_from_rls (noon 2025 3 2)
           (mkEmailEvent (Some 4%nat) "unsubscribed")
           [mkEmailLog 4 (Some 1%nat) "delivered" (noon 2025 3 1)] []).
  reflexivity.
Defined.

